(** * Trim normalisation of the used-car listings pipeline

    A shallow embedding of [scripts/trim_cleaning.py]: the text normaliser
    [clean_trim], the validator [validate_trim], the per-make processor
    [process_trim_by_make] with its allowlist backfill, and the driver
    [process_trim], followed by the properties stated about them.  The
    helpers of that file that the driver does not reach
    ([remove_second_occurrence], [correct_string]) and the two steps of
    [scripts/preprocessing.py] that prepare the make and model columns
    ([process_make], [remove_rare_models]) are embedded as well.

    Text.  A Python [str] is a sequence of Unicode code points, modelled as
    [list N].  Literals are written as UTF-8 string literals and decoded by
    [u].  Three Unicode tables of the Python runtime are used by the code:
    white space ([str.strip], [str.split], the regex class \s), word
    characters (the regex class \w behind \b) and lower-casing.  White space
    is tabulated in full.  Word characters and lower-casing are tabulated for
    U+0000..U+00FF, the range of the rule tables' letters; a code point above
    U+00FF counts as a caseless symbol, which is what the two such characters
    of the rule tables (U+2019 and U+2122) are.  Statements that depend on
    these two tables are stated for [latin1] text.

    Tables.  A DataFrame is a list of rows, one record per listing, in index
    order; a boolean mask followed by an assignment is a [map] that rewrites
    the rows selected by the mask. *)

From Stdlib Require Import String Ascii DecimalString.
From Stdlib Require Import List NArith ZArith Bool Lia Permutation Sorted.
Import ListNotations.

Set Implicit Arguments.

(* ================================================================= *)
(** ** Text *)

Definition str := list N.

Local Open Scope N_scope.

(** UTF-8 decoding of a literal (well-formed input only; a truncated
    sequence is kept byte by byte). *)
Fixpoint utf8_decode (bs : list N) : str :=
  match bs with
  | [] => []
  | b1 :: t1 =>
    if b1 <? 128 then b1 :: utf8_decode t1
    else
      match t1 with
      | [] => [b1]
      | b2 :: t2 =>
        if b1 <? 224 then ((b1 - 192) * 64 + (b2 - 128)) :: utf8_decode t2
        else
          match t2 with
          | [] => [b1; b2]
          | b3 :: t3 =>
            if b1 <? 240
            then ((b1 - 224) * 4096 + (b2 - 128) * 64 + (b3 - 128)) :: utf8_decode t3
            else
              match t3 with
              | [] => [b1; b2; b3]
              | b4 :: t4 =>
                ((b1 - 240) * 262144 + (b2 - 128) * 4096 + (b3 - 128) * 64 + (b4 - 128))
                  :: utf8_decode t4
              end
          end
      end
  end.

Definition u (s : string) : str :=
  utf8_decode (List.map N_of_ascii (list_ascii_of_string s)).

(** [str.isspace], which is also the regex class \s. *)
Definition isspace (c : N) : bool :=
  ((9 <=? c) && (c <=? 13)) || ((28 <=? c) && (c <=? 32))
  || (c =? 133) || (c =? 160) || (c =? 5760)
  || ((8192 <=? c) && (c <=? 8202))
  || (c =? 8232) || (c =? 8233) || (c =? 8239) || (c =? 8287) || (c =? 12288).

(** [str.isalnum] on U+0000..U+00FF. *)
Definition isalnum (c : N) : bool :=
  ((48 <=? c) && (c <=? 57)) || ((65 <=? c) && (c <=? 90)) || ((97 <=? c) && (c <=? 122))
  || (c =? 170) || (c =? 178) || (c =? 179) || (c =? 181) || (c =? 185) || (c =? 186)
  || ((188 <=? c) && (c <=? 190))
  || ((192 <=? c) && (c <=? 214)) || ((216 <=? c) && (c <=? 246))
  || ((248 <=? c) && (c <=? 255)).

(** The regex class \w. *)
Definition is_word (c : N) : bool := isalnum c || (c =? 95).

Definition isupper (c : N) : bool :=
  ((65 <=? c) && (c <=? 90)) || ((192 <=? c) && (c <=? 214)) || ((216 <=? c) && (c <=? 222)).

Definition lower_char (c : N) : N := if isupper c then c + 32 else c.

(** [str.lower]. *)
Definition lower (s : str) : str := List.map lower_char s.

(** Text within U+0000..U+00FF. *)
Definition latin1 (s : str) : Prop := forallb (fun c => c <? 256) s = true.

Fixpoint eqb_str (a b : str) : bool :=
  match a, b with
  | [], [] => true
  | x :: a', y :: b' => (x =? y) && eqb_str a' b'
  | _, _ => false
  end.

(** [x in l] for a list of strings. *)
Definition mem_str (x : str) (l : list str) : bool := existsb (eqb_str x) l.

(** [x in chars] for a character. *)
Definition mem_char (c : N) (chars : str) : bool := existsb (N.eqb c) chars.

(** [s.startswith(p)]. *)
Fixpoint starts_with (p s : str) : bool :=
  match p, s with
  | [], _ => true
  | _ :: _, [] => false
  | a :: p', b :: s' => (a =? b) && starts_with p' s'
  end.

(** [p in s]: [p] occurs in [s] as a substring. *)
Fixpoint contains (p s : str) : bool :=
  starts_with p s ||
  match s with
  | [] => false
  | _ :: s' => contains p s'
  end.

(** [s.split(sep, 1)[0]]: the text before the first occurrence of [sep]
    (all of [s] when there is none). *)
Fixpoint before (sep s : str) : str :=
  if starts_with sep s then []
  else match s with
       | [] => []
       | c :: s' => c :: before sep s'
       end.

Fixpoint lstrip_by (f : N -> bool) (s : str) : str :=
  match s with
  | [] => []
  | c :: s' => if f c then lstrip_by f s' else s
  end.

(** [s.rstrip(chars)]: drop the longest suffix made of characters of the
    set. *)
Fixpoint rstrip_by (f : N -> bool) (s : str) : str :=
  match s with
  | [] => []
  | c :: s' =>
    match rstrip_by f s' with
    | [] => if f c then [] else [c]
    | r => c :: r
    end
  end.

Definition rstrip (chars s : str) : str := rstrip_by (fun c => mem_char c chars) s.

(** [s.strip()]. *)
Definition strip (s : str) : str := rstrip_by isspace (lstrip_by isspace s).

(** [s.split()]: the maximal runs of non-space characters. *)
Fixpoint split_ws (s : str) : list str :=
  match s with
  | [] => []
  | c :: s' =>
    if isspace c then split_ws s'
    else
      match s' with
      | [] => [[c]]
      | d :: _ =>
        if isspace d then [c] :: split_ws s'
        else match split_ws s' with
             | w :: ws => (c :: w) :: ws
             | [] => [[c]]
             end
      end
  end.

(** [sep.join(l)]. *)
Fixpoint join (sep : str) (l : list str) : str :=
  match l with
  | [] => []
  | [w] => w
  | w :: l' => w ++ sep ++ join sep l'
  end.

(* ----------------------------------------------------------------- *)
(** *** Substitution of leftmost, non-overlapping matches

    [str.replace] and [re.sub] scan the text from the left; at each position
    where the pattern matches, the match is replaced and the scan resumes
    after it.  A matcher is given the character before the position (for \b)
    and the rest of the text, and answers with the length of the match and
    its replacement.  The patterns of this program are alternations of
    literals and match no empty string (an empty alternative would only
    produce empty matches, which a replacement by the empty string leaves
    without effect). *)

Definition matcher := option N -> str -> option (nat * str).

Fixpoint sub_from (m : matcher) (prev : option N) (skip : nat) (s : str) : str :=
  match s with
  | [] => []
  | c :: s' =>
    match skip with
    | S k => sub_from m (Some c) k s'
    | O =>
      match m prev s with
      | Some (S k, r) => r ++ sub_from m (Some c) k s'
      | _ => c :: sub_from m (Some c) O s'
      end
    end
  end.

Definition sub (m : matcher) (s : str) : str := sub_from m None O s.

(** The matcher of a literal. *)
Definition lit (old new : str) : matcher :=
  fun _ s => if starts_with old s then Some (length old, new) else None.

(** [s.replace(old, new)]. *)
Definition replace (old new s : str) : str :=
  match old with
  | [] => new ++ flat_map (fun c => c :: new) s
  | _ => sub (lit old new) s
  end.

(** The matcher of [re.compile("|".join(map(re.escape, keys)))] with the
    replacement [translations[m.group(0)]]: the first key, in dict order,
    that the text starts with. *)
Fixpoint alt (translations : list (str * str)) : matcher :=
  fun prev s =>
    match translations with
    | [] => None
    | (k, v) :: rest =>
      match k with
      | [] => alt rest prev s
      | _ => if starts_with k s then Some (length k, v) else alt rest prev s
      end
    end.

(** \b between two neighbouring characters ([None] past either end). *)
Definition word_char (c : option N) : bool :=
  match c with
  | Some c => is_word c
  | None => false
  end.

Definition boundary (l r : option N) : bool := xorb (word_char l) (word_char r).

(** The first alternative, in list order, that matches at this position and
    is followed by \b. *)
Fixpoint first_word (ws : list str) (prev : option N) (s : str) : option (nat * str) :=
  match ws with
  | [] => None
  | w :: rest =>
    match w with
    | [] => first_word rest prev s
    | _ =>
      if starts_with w s && boundary (Some (last w 0)) (hd_error (skipn (length w) s))
      then Some (length w, [])
      else first_word rest prev s
    end
  end.

(** The matcher of [r'\b(?:w1|w2|...)\b'] with the empty replacement. *)
Definition bounded_words (ws : list str) : matcher :=
  fun prev s => if boundary prev (hd_error s) then first_word ws prev s else None.

(** [re.sub(r'\s+', ' ', s)]. *)
Fixpoint collapse_from (in_run : bool) (s : str) : str :=
  match s with
  | [] => []
  | c :: s' =>
    if isspace c
    then (if in_run then collapse_from true s' else 32 :: collapse_from true s')
    else c :: collapse_from false s'
  end.

Definition remove_extra_spaces (input_string : str) : str := collapse_from false input_string.

Fixpoint dedup_words (seen : list str) (ws : list str) : list str :=
  match ws with
  | [] => []
  | w :: rest =>
    if mem_str w seen then dedup_words seen rest
    else w :: dedup_words (w :: seen) rest
  end.

Definition remove_duplicate_words (input_string : str) : str :=
  join [32] (dedup_words [] (split_ws input_string)).

(* ================================================================= *)
(** ** Python values passed where a string is expected *)

Inductive pyobj :=
| PyNone
| PyNaN
| PyInt (z : Z)
| PyStr (s : str).

(** [str(o)]. *)
Definition py_str (o : pyobj) : str :=
  match o with
  | PyNone => u "None"
  | PyNaN => u "nan"
  | PyInt z => List.map N_of_ascii (list_ascii_of_string (NilZero.string_of_int (Z.to_int z)))
  | PyStr s => s
  end.

Inductive exn := TypeError.

Inductive result (A : Type) :=
| Returns (a : A)
| Raises (e : exn).

Arguments Returns {A} a.
Arguments Raises {A} e.

(* ================================================================= *)
(** ** Tables *)

(** The columns that [extract_info_from_trim] may overwrite. *)
Inductive column := Bodytype | Fueltype | Drivetrain | Transmission.

(** One listing, as the caller of [process_trim] sees it.  The columns the
    pipeline never reads or writes are left out.  Every cell is text: the
    caller has cleaned the make and model columns, and the first statement of
    [process_trim] is [astype(str)], which gives the text "nan" for a missing
    trim; a missing trim is therefore given here as that text. *)
Record listing := mkListing {
  make : str;
  model : str;
  trim : str;
  bodytype : str;
  fueltype : str;
  drivetrain : str;
  transmission : str
}.

(** A row of the frame between the creation of the [trim_backup] column and
    its removal. *)
Record row := mkRow {
  cols : listing;
  trim_backup : str
}.

Definition set_trim (t : str) (l : listing) : listing :=
  mkListing (make l) (model l) t (bodytype l) (fueltype l) (drivetrain l) (transmission l).

Definition set_column (c : column) (v : str) (l : listing) : listing :=
  match c with
  | Bodytype => mkListing (make l) (model l) (trim l) v (fueltype l) (drivetrain l) (transmission l)
  | Fueltype => mkListing (make l) (model l) (trim l) (bodytype l) v (drivetrain l) (transmission l)
  | Drivetrain => mkListing (make l) (model l) (trim l) (bodytype l) (fueltype l) v (transmission l)
  | Transmission => mkListing (make l) (model l) (trim l) (bodytype l) (fueltype l) (drivetrain l) v
  end.

Definition row_trim (r : row) : str := trim (cols r).

Definition row_make (r : row) : str := make (cols r).

Definition row_set_trim (t : str) (r : row) : row := mkRow (set_trim t (cols r)) (trim_backup r).

(** The valid-trims argument of [process_trim_by_make]: [None], the text
    "auto", or a list. *)
Inductive valid_trims_arg :=
| NoValidTrims
| Auto
| ValidTrims (l : list str).

(** The arguments of one call of [process_trim_by_make] in [process_trim]. *)
Record call := mkCall {
  call_make : str;
  call_trim_correction_mapping : option (list (str * str));
  call_valid_trims : valid_trims_arg;
  call_add_unwanted_words : option (list str);
  call_add_invalid_trims : option (list str);
  call_unknown_threshold : Z
}.

(* ================================================================= *)
(** ** The rule tables, in source order *)

Module CleanTrimTables.

Definition words : list str := Eval vm_compute in
  [
    u "|"; u ","; u " - "; u " w/"; u "with"; u "avec"; u "~"; u "("
  ].

Definition characters_to_remove : str := Eval vm_compute in
  u "!" ++ u "*" ++ u "/" ++ u "+" ++ u "~" ++ u "<" ++ u ">" ++ [34%N] ++ u "®" ++ u "™" ++ [92%N] ++ u ";" ++ u "&".

Definition trim_translation_mapping : list (str * str) := Eval vm_compute in
  [
    (u "e anniversaire", u "th anniversary"); (u "vision climat", u "climate vision");
    (u "gr. remorquage", u "towing package"); (u "gr.remorquage", u "towing package");
    (u "disponibilité limited", u "limited"); (u "groupe remorquage", u "towing package");
    (u "hybride rechargeable", u "plug-in hybrid");
    (u "hybride branchable", u "plug-in hybrid"); (u "plug in", u "plug-in");
    (u "technologie", u "technology"); (u "privilège", u "privilege");
    (u "tourisme", u "touring"); (u "preffered", u "preferred");
    (u "privilégié", u "preferred"); (u "executif", u "executive");
    (u "électriques", u "electric"); (u "électrique", u "electric");
    (u "electriques", u "electric"); (u "electrique", u "electric");
    (u "automique", u "atomic"); (u "autoplot", u "autopilot"); (u "autonomie", u "autopilot");
    (u "portes", u "door"); (u "confort", u "comfort"); (u "édition", u "edition");
    (u "caligraphy", u "calligraphy"); (u "s line", u "s-line"); (u "fsport", u "f-sport");
    (u "f sport", u "f-sport"); (u "luxe", u "luxury"); (u "hybride", u "hybrid");
    (u "hayon", u "hatchback"); (u "berline", u "sedan"); (u "coupé", u "coupe");
    (u "cabriolet", u "convertible"); (u "décapotable", u "convertible");
    (u "limitée", u "limited"); (u "limité", u "limited"); (u "sélect", u "select");
    (u "allongé", u "crew cab 143.5"); (u "prem plus", u "premium plus");
    (u "platine", u "platinum")
  ].

Definition complex_words_to_remove : list str := Eval vm_compute in
  [
    u "( 2 ans inclus)"; u "$500 finance incentive"; u "0.99%"; u "4.49%"; u "3.99%";
    u "2.99%"; u "3.39%"; u "4.49%"; u "5.19%"; u "1.99%"; u "5.53%"; u "gr.electric";
    u "magstoit.ouvrantsieges.chauff"; u "magssieges.chauffbluetooth";
    u "navicuirtoit.ouvrant"; u "gr.electrique"; u "magscam.reculapple."; u "b. h";
    u "taux à partir de"; u "à partir de"; u "18po-mags"; u "o.a."; u "like-new"; u "5.99";
    u "drivr.asst"; u "gr.electrique"; u "magscam.reculapple."; u "gr-electric"; u "4-dr";
    u "5-dr"; u "b. h"; u "h- r"; u "1 an"; u "o.a.c."; u "o.a."; u "b h"; u "®"; u "à"; u "b&"
  ].

Definition simple_words_to_remove : list str := Eval vm_compute in
  [
    u "ask us how we can find you a similar vehicle"; u "premjamais accidentégarantie";
    u "10ans200000km"; u "7 ans 160km"; u "10ans 200000km"; u "160 000km";
    u "compatible apple carplay et android auto"; u "drives great"; u "runs great";
    u "sport utility vehicle"; u "sport utility"; u "great deal"; u "buy now";
    u "hurry before it sells out"; u "buy now before it sells out";
    u "advanced driving assistant"; u "groupe electrique complet";
    u "en attente dftapprobation"; u "as isyou certifyyou save"; u "all credits";
    u "financement disponible"; u "gr-électrique -ouvrant"; u "we finance"; u "we approve";
    u "all credit"; u "heated steering wheel"; u "5 years 160,000km wrt";
    u "disponibilité limited"; u "compatible et android"; u "disponibilité limitée";
    u "disponibilité limitéd"; u "full service history"; u "seul"; u "un"; u "gr-électrique";
    u "sièges volant chauff"; u "demarreur a distance"; u "come and test drive";
    u "excellent condition"; u "convenience package"; u "ambient light drive"; u "trades";
    u "welcome"; u "1 seul propriétaire"; u "spring sale event on now"; u "spring sale";
    u "traction intégrale"; u "sulev south africa"; u "garantie prolongée";
    u "vitres électriques"; u "aide à la conduite"; u "entièrement équipé";
    u "warranty included"; u "5 years 160,000km"; u "wireless charging"; u "jantes en alliage";
    u "sièges chauffants"; u "sieges chauffants"; u "seul proprietaire"; u "groupe électrique";
    u "camion de travail"; u "groupe electrique"; u "panoramic sunroof"; u "heads up display";
    u "air conditioning"; u "sport appearance"; u "sieges chauffant"; u "jamais accidenté";
    u "jamais accidente"; u "volant chauffant"; u "sièges chauffant"; u "4 roues motrices";
    u "7-passenger"; u "7-passagers"; u "app-connect"; u "8-pass"; u "7-pass"; u "4-door";
    u "5-door"; u "s-tronic"; u "8 pneus"; u "35th annversary edton"; u "collision alert";
    u "collision detection"; u "6-speed"; u "5 speed"; u "6 speed"; u "like new"; u "from oa";
    u "l o"; u "less than 40"; u "sliding doors"; u "4 door"; u "3 door"; u "2 door";
    u "head-up display"; u "head up display"; u "all wheel drive"; u "available as is";
    u "all-wheel drive"; u "convenience pkg"; u "awdpneus inclus"; u "siege chauffant";
    u "bas kilométrage"; u "elect cam recul"; u "caméra de recul"; u "camera de recul";
    u "bas kilometrage"; u "bas kilo"; u "ventilés"; u "groupe electric"; u "cruise control";
    u "remote starter"; u "headup display"; u "apple car play"; u "steering wheel";
    u "w-wing spoiler"; u "low kilometers"; u "low kilometres"; u "1 propriétaire";
    u "1 proprietaire"; u "sxt stow nftgo"; u "whonda sensing"; u "banc chauffant";
    u "ens commodités"; u "taux partir de"; u "panoramic roof"; u "incoming unit"; u "adv key";
    u "all service records"; u "full service records"; u "service records";
    u "services records"; u "bien entretenu"; u "systeme de"; u "driver assist"; u "5 door";
    u "18 wheels"; u "21 wheels"; u "7 seater"; u "car play"; u "groupe comfort";
    u "accident free"; u "backup camera"; u "harman kardon"; u "as-is special";
    u "keyless entry"; u "air condition"; u "apple carplay"; u "compatible et";
    u "north america"; u "ambient light"; u "adaptive crse"; u "groupe valeur";
    u "160,000km wrt"; u "no luxury tax"; u "ens commodité"; u "ens commodite";
    u "gr electrique"; u "écran tactile"; u "gr électrique"; u "---vitre elec";
    u "w-li battery"; u "clean carfax"; u "heated seats"; u "fully loaded"; u "no accidents";
    u "single owner"; u "remote start"; u "7 passengers"; u "7-seater"; u "alloy wheels";
    u "sale pending"; u "blowout sale"; u "south africa"; u "used vehicle"; u "wing spoiler";
    u "sound system"; u "sieges promo"; u "to your door"; u "toit ouvrant"; u "groupe élect";
    u "volant chauf"; u "série de bmw"; u "app connect"; u "low mileage"; u "new arrival";
    u "no accident"; u "cloth seats"; u "8 passenger"; u "8 passagers"; u "7 passenger";
    u "7 passagers"; u "7 passager"; u "lane assist"; u "lane departure"; u "ltd avail";
    u "fresh trade"; u "coming soon"; u "park assist"; u "série de bm"; u "easy trades";
    u "6 passagers"; u "sxt stowngo"; u "valeur plus"; u "angle morts"; u "gr electric";
    u "air ventilé"; u "bas millage"; u "blue tooth"; u "backup cam"; u "push start";
    u "test drive"; u "-ltd avail"; u "blind spot"; u "&#174;"; u "200 000 km"; u "comme neuf";
    u "ans inclus"; u "car fax"; u "7 ans"; u "financement a"; u "top of line";
    u "cold weather"; u "vitre electric"; u "7 sts"; u "7 ans160km"; u "vitre elec";
    u "off lease"; u "one owner"; u "w adv key"; u "ltd avail"; u "200 000km"; u "1 proprio";
    u "new tires"; u "new brakes"; u "all around"; u "as traded"; u "in hearst"; u "low kmfts";
    u "rec siège"; u "rec siege"; u "-18ftft"; u "60 mois"; u "rég adapt"; u "voiture à";
    u "cam recul"; u "18 pouces"; u "19 pouces"; u "20 pouces"; u "2 portes"; u "12m-20";
    u "3 portes"; u "4 portes"; u "5 portes"; u "6 pass"; u "8 pass"; u "7 pass"; u "low km";
    u "low kms"; u "3 year"; u "w leds"; u "1 owne"; u "just in"; u "w heat"; u "bas km";
    u "10 ans"; u "4 cyl"; u "as is"; u "4 rm"; u "a c"; u "24 months"; u "24 mths";
    u "12 months"; u "12 mths"; u "36 months"; u "must see"; u "electric"; u "elect"; u "elec";
    u "model"; u "convertible"; u "coupe"; u "1"; u "carplayandroidauto"; u "bluetoothcamera";
    u "carplayandroid"; u "androidauto"; u "certification"; u "entertainment";
    u "climatisation"; u "personnalisée"; u "transmission"; u "automatique"; u "certifiable";
    u "grade"; u "lanewatch"; u "launch"; u "économique"; u "economique"; u "compatible";
    u "suspension"; u "you"; u "certify"; u "save"; u "version"; u "led"; u "voiture";
    u "8-passenger"; u "touchscreen"; u "convenience"; u "climatiseur"; u "financement";
    u "sieges"; u "promo"; u "siéges"; u "bancs"; u "banc"; u "toyota"; u "panoramique";
    u "7passagers"; u "commodités"; u "régulateur"; u "navigation"; u "commodites"; u "pneus";
    u "inclus"; u "proprietaire"; u "propriétaire"; u "panocaméra"; u "hatchback";
    u "bluetooth"; u "available"; u "automatic"; u "blindspot"; u "tiptronic"; u "démarreur";
    u "excellent"; u "condition"; u "burmester"; u "familiale"; u "delivered"; u "interieur";
    u "adaptatif"; u "intégrale"; u "commodité"; u "commodite"; u "climatise"; u "certified";
    u "demarreur"; u "panoramic"; u "manuelle"; u "bluetoot"; u "warranty"; u "incoming";
    u "interior"; u "adaptive"; u "pkglexus"; u "extended"; u "wireless"; u "ensemble";
    u "vdpurlen"; u "ventilated"; u "noire"; u "reduced"; u "accident"; u "approval";
    u "delivery"; u "arrivage"; u "rapporte"; u "dfthiver"; u "distance"; u "steering";
    u "garantie"; u "certifie"; u "certifié"; u "inspecté"; u "amélioré"; u "panoroof";
    u "moonroof"; u "2portes"; u "berline"; u "upgrade"; u "sunroof"; u "1-owner"; u "massage";
    u "leather"; u "android"; u "edition"; u "reserve"; u "keyless"; u "carplay"; u "spoiler";
    u "special"; u "arrived"; u "climatisé"; u "arrival"; u "financing"; u "finance";
    u "navigat"; u "vitesse"; u "located"; u "pending"; u "spécial"; u "complet"; u "ouvrant";
    u "réserve"; u "reverse"; u "ventilé"; u "alertes"; u "alerte"; u "alert"; u "diesel";
    u "carfax"; u "loaded"; u "alloys"; u "cruise"; u "globale"; u "ready"; u "brake";
    u "rotors"; u "prem"; u "seat"; u "winter"; u "tires"; u "drivr"; u "bluethoot"; u "brand";
    u "lift"; u "wheel"; u "tire"; u "regul"; u "white"; u "360cam"; u "safety"; u "backup";
    u "remote"; u "recent"; u "modèle"; u "credit"; u "chauff"; u "jamais"; u "heated";
    u "heat"; u "rec"; u "angles"; u "volant"; u "landed"; u "minuit"; u "manual"; u "recule";
    u "manuel"; u "caméra"; u "camera"; u "vitres"; u "sièges"; u "siège"; u "sedan";
    u "hayon"; u "cloth"; u "hatch"; u "6pass"; u "7pass"; u "as-is"; u "local"; u "400hp";
    u "567hp"; u "650hp"; u "237hp"; u "audio"; u "comes"; u "from"; u "trade"; u "sound";
    u "adapt"; u "apple"; u "power"; u "clean"; u "owner"; u "aucun"; u "owned"; u "hurry";
    u "seats"; u "chauf"; u "group"; u "hiver"; u "other"; u "elect"; u "recul"; u "vendu";
    u "siege"; u "écran"; u "camer"; u "boîte"; u "6spd"; u "auto"; u "bose"; u "roof";
    u "500km"; u "500k"; u "with"; u "mint"; u "rare"; u "4cyl"; u "very"; u "wing"; u "crse";
    u "rear"; u "just"; u "sold"; u "only"; u "mois"; u "avec"; u "deal"; u "sale"; u "tres";
    u "deux"; u "leds"; u "pan"; u "1ère"; u "jbl"; u "this"; u "new"; u "front"; u "brakes";
    u "lexus"; u "cooled"; u "18po"; u "10ans"; u "7ans"; u "chau"; u "taux"; u "fixe";
    u "dispo"; u "easy"; u "clim"; u "2016"; u "2018"; u "2013"; u "2017"; u "2012"; u "2019";
    u "2020"; u "2022"; u "2021"; u "2014"; u "2015"; u "2023"; u "2024"; u "and"; u "2011";
    u "2010"; u "vent"; u "navi"; u "cuir"; u "mags"; u "toit"; u "sortie"; u "voie"; u "pano";
    u "one"; u "awd"; u "4wd"; u "4x4"; u "rwd"; u "fwd"; u "2wd"; u "2rm"; u "4rm"; u "4dr";
    u "2dr"; u "3dr"; u "5dr"; u "8sp"; u "7sp"; u "sdn"; u "cpe"; u "suv"; u "usb"; u "aux";
    u "cvt"; u "hud"; u "pkg"; u "air"; u "6sp"; u "pre"; u "amp"; u "oac"; u "6mt"; u "mag";
    u "360"; u "at4"; u "aut"; u "man"; u "dsg"; u "nav"; u "gps"; u "dvd"; u "cam"; u "cpo";
    u "wow"; u "woww"; u "htd"; u "4d"; u "hb"; u "oa"; u "ac"; u "ca"; u "ba"; u "mt"; u "ti";
    u "ta"; u "bm"; u "at"; u "gr"; u "w-"; u "w"
  ].

End CleanTrimTables.

Module ValidateTrimTables.

Definition invalid_trims : list str := Eval vm_compute in
  [
    u "nan"; u "-"; u "&"; u "|"; u "."; u "low"; u "no"; u "w"; u "*"; nil; u "#"; u "%";
    u "("; u "sedan"; u "cpe"; u "premium package"; u "manual"; u "wgn"; u "360"; u "air";
    u "&"; u "bm"; u "bt"; u "mt"; u "i"; u "premium essential"; u "prem pkg"; u "1 owner";
    u "one owner"; u "1"; u "2"; u "3"; u "4"; u "5"; u "h"; u "accident free";
    u "headup display"; u "premium"; u "clean"; u "system"; u "lo"; u "-free"; u "et"; u "en";
    u "doors"; u "car"; u "pre"; u "vehicle"; u "sun"; u "range"; u "bluetooth";
    u "sky view roof"; u "leather"; u "loaded"; u "incoming"; u "at"; u "and";
    u "- premium essential"; u "- premium enhanced"; u ". 19"; u ","; u ".5 gs"; u ".5 gx";
    u "- t6"; u "hatchback"; u "série de bm"
  ].

Definition words_to_check : list str := Eval vm_compute in
  [
    u "low kilometers"; u "low kilometres"; u "familiale"; u "manuelle"; u "certified";
    u "delivered"; u "excellent"; u "automatique"; u "apple"; u "local"; u "camera";
    u "nouvel"; u "backup"; u "extra"; u "pano"; u "panoramic"; u "remote"; u "rear";
    u "recent"; u "incoming"; u "modèle"; u "nav"; u "commodité"; u "just"; u "arrived";
    u "arrival"; u "sold"; u "ensemble"; u "vdpurlen"; u "édition"; u "cuir"; u "navi";
    u "panoroof"; u "toit"; u "only"; u "power"; u "ac"; u "carfax"; u "clean"; u "owner";
    u "accident"; u "finance"; u "financement"; u "mois"; u "commodités"; u "certification";
    u "credit"; u "approval"; u "avec"; u "aucun"; u "bluetooth"; u "headup"; u "owned";
    u "delivery"; u "deal"; u "hurry"; u "chauff"; u "arrivage"; u "navigat"; u "jamais";
    u "heated"; u "seats"; u "moonroof"; u "angles"; u "leather"; u "rapporte"; u "garantie";
    u "recul"; u "vitesse"; u "interieur"; u "located"; u "touchscreen"; u "sale";
    u "dfthiver"; u "volant"; u "chauf"; u "ans inclus"; u ".rec"; u "morts"; u "#"; u "%"
  ].

End ValidateTrimTables.

(** The updates of [extract_info_from_trim]. *)
Definition update_list : list (column * str * str) := Eval vm_compute in
  [
    (Bodytype, u "sedan", u "sedan"); (Bodytype, u "coupe", u "coupe");
    (Bodytype, u "hatchback", u "hatchback"); (Bodytype, u "hatch", u "hatchback");
    (Bodytype, u "hayon", u "hatchback"); (Bodytype, u "2 portes", u "coupe");
    (Bodytype, u "convertible", u "convertible"); (Bodytype, u "cabriolet", u "cabriolet");
    (Fueltype, u "diesel", u "diesel"); (Fueltype, u "bluetec", u "diesel");
    (Fueltype, u "tdi", u "diesel"); (Fueltype, u "hybrid", u "hybrid");
    (Fueltype, u "hybride", u "hybrid"); (Fueltype, u "hybride branchable", u "hybrid");
    (Fueltype, u "vehicule electrique", u "electric");
    (Fueltype, u "electric motor", u "electric"); (Drivetrain, u "4 roues motrices", u "AWD");
    (Drivetrain, u "all wheel drive", u "AWD"); (Drivetrain, u "quattro", u "AWD");
    (Drivetrain, u "4 matic", u "AWD"); (Drivetrain, u "4matic", u "AWD");
    (Drivetrain, u "awd", u "AWD"); (Drivetrain, u "4wd", u "AWD");
    (Drivetrain, u "dual motor", u "AWD"); (Drivetrain, u "4x4", u "AWD");
    (Drivetrain, u "all4", u "AWD"); (Drivetrain, u "2wd", u "FWD");
    (Drivetrain, u "2rm", u "FWD"); (Drivetrain, u "traction intégrale", u "AWD");
    (Drivetrain, u "traction integrale", u "AWD"); (Drivetrain, u "xdrive", u "AWD");
    (Drivetrain, u "quattro", u "AWD"); (Drivetrain, u "4motion", u "AWD");
    (Drivetrain, u "rwd", u "RWD"); (Drivetrain, u "fwd", u "FWD");
    (Transmission, u "cvt", u "auto"); (Transmission, u "ivt", u "auto");
    (Transmission, u "dct", u "auto"); (Transmission, u "pdk", u "auto");
    (Transmission, u "dsg", u "auto"); (Transmission, u "ivt", u "auto");
    (Transmission, u "s-tronic", u "auto"); (Transmission, u "tiptronic", u "auto");
    (Transmission, u "6mt", u "manual"); (Transmission, u "manuelle", u "manual");
    (Transmission, u "manual", u "manual"); (Transmission, u "manuel", u "manual")
  ].

Module MakeRules.

Definition bmw_trim_correction_mapping : list (str * str) := Eval vm_compute in
  [
    (u "competition coupe m", u "competition m coupe"); (u "m-sport", u "m sport");
    (u "msport", u "m sport"); (u "m competition", u "competition m");
    (u "m-competition", u "competition m"); (u "conv", u "convertible")
  ].

Definition invalid_bmw_trims : list str := Eval vm_compute in
  [
    u "bmw"; u "prem"
  ].

Definition words_to_remove_bmw : list str := Eval vm_compute in
  [
    u "xdrive"
  ].

Definition toyota_trim_correction_mapping : list (str * str) := Eval vm_compute in
  [
    (u "limited pkg", u "limited"); (u "limited hybrid", u "hybrid limited");
    (u "xle hybrid", u "hybrid xle"); (u "xle hybride", u "hybrid xle");
    (u "le hybrid", u "hybrid le"); (u "xse hybrid", u "hybrid xse");
    (u "trd off-road", u "trd off road"); (u "hybride", u "hybrid"); (u "se 6m", u "se");
    (u "se model", u "se"); (u "-e", u "hybrid"); (u "tech", u "technology")
  ].

Definition invalid_toyota_trims : list str := Eval vm_compute in
  [
    u "wgn"; u "wgn v6"
  ].

Definition audi_trim_correction_mapping : list (str * str) := Eval vm_compute in
  [
    (u "progressiv 2.0 tfsi", u "2.0 tfsi progressiv");
    (u "technik 3.0 tfsi", u "3.0 tfsi technik");
    (u "progressiv 3.0 tfsi", u "3.0 tfsi progressiv");
    (u "progressiv 2.0 tfsi", u "2.0 tfsi progressiv");
    (u "technik 2.0 tfsi", u "2.0 tfsi technik"); (u "komfort 2.0 tfsi", u "2.0 tfsi komfort");
    (u "komfort 2.0 tfsi", u "2.0 tfsi komfort"); (u "2.0t qtro", u "2.0t");
    (u "progressive", u "progressiv"); (u "conv", u "convertible")
  ].

Definition invalid_audi_trims : list str := Eval vm_compute in
  [
    u "progressivfinancement a 5.99 60 mois"; u "komfort gr"
  ].

Definition words_to_remove_audi : list str := Eval vm_compute in
  [
    u "tiptronic"; u "s tronic"; u "quattro"
  ].

Definition invalid_honda_trims : list str := Eval vm_compute in
  [
    u "lxgarantie 10ans200000km"; u "2 portes"
  ].

Definition words_to_remove_honda : list str := Eval vm_compute in
  [
    u "garantie 10 ans 200 000 km"; u "garantie 10 ans200 000 km"; u "navicuirtoit.ouvrant";
    u "garantie 10 ans"; u "ouvrant2 cameras"; u "honda"; u "ivt"; u "dct"
  ].

Definition ford_trim_correction_mapping : list (str * str) := Eval vm_compute in
  [
    (u "xltsport", u "xlt sport");
    (u "xlt cabine supercrew 4rm caisse de 6", u "xlt supercrew 6.5ft box");
    (u "xlt cabine supercrew caisse de 6", u "xlt supercrew 6.5ft box");
    (u "lariat cabine supercrew caisse de 6", u "lariat supercrew 6.5ft box");
    (u "lariat cabine supercrew caisse de 5", u "lariat supercrew 5.5ft box");
    (u "xlt cabine supercrew caisse de 5", u "xlt supercrew 5.5ft box");
    (u "xlt supercrew 5.5-ft", u "xlt supercrew 5.5ft box"); (u "eco", u "ecoboost");
    (u "150 lightning-lariat cabine supercrew caisse de 5", u "150 lightning-lariat");
    (u "150 lightning-xlt cabine supercrew caisse de 5", u "150 lightning-xlt supercrew 5.5ft box");
    (u "150-lariat cabine supercrew caisse de 5", u "150-lariat supercrew 5.5ft box");
    (u "150-lariat cabine supercrew caisse de 6", u "150-lariat");
    (u "150-xlt cabine supercrew caisse de 5", u "supercab 145 xlt");
    (u "150-xlt cabine supercrew caisse de 6", u "150-xlt supercab 6.5ft box");
    (u "xlt cabine supercrew caisse de 5 pi", u "xlt supercrew 5.5ft box");
    (u "conv", u "convertible"); (u "conv v6", u "convertible v6");
    (u "conv v6 premium", u "convertible v6 premium"); (u "conv gt", u "convertible gt")
  ].

Definition valid_ford_trims : list str := Eval vm_compute in
  [
    u "se"; u "xlt"; u "sel"; u "titanium"; u "lariat"; u "limited"; u "st"; u "gt premium";
    u "sport"; u "platinum"; u "xl"; u "gt"; u "big bend"; u "ecoboost"; u "titanium hybrid";
    u "xlt supercrew 5.5"; u "ecoboost premium"; u "outer banks"; u "ses"; u "raptor";
    u "badlands"; u "xlt sport"; u "king ranch"; u "limited max"; u "se hatchback"
  ].

Definition words_to_remove_porsche : list str := Eval vm_compute in
  [
    u "pdk"; u "coupe"
  ].

Definition chevrolet_trim_correction_mapping : list (str * str) := Eval vm_compute in
  [
    (u "silverado custom", u "custom"); (u "reg cab", u "regular cab");
    (u "custom crew", u "custom crew cab"); (u "dbl crew", u "double cab");
    (u "crew lt", u "crew cab lt"); (u "cre", u "crew cab"); (u "conv", u "convertible")
  ].

Definition chrysler_trim_correction_mapping : list (str * str) := Eval vm_compute in
  [
    (u "touring l plus", u "touring-l plus"); (u "touring l", u "touring-l");
    (u "tourisme", u "touring"); (u "300 s", u "s"); (u "300 touring", u "touring");
    (u "300 c", u "c"); (u "stow nftgo", u "stow n go"); (u "stow’n go", u "stow n go");
    (u "sxt stow nftgo", u "sxt stow n go")
  ].

Definition dodge_trim_correction_mapping : list (str * str) := Eval vm_compute in
  [
    (u "canada value pkg", u "canada value package"); (u "cvp", u "canada value package");
    (u "canada value", u "canada value package"); (u "cvpsxt", u "cvp sxt");
    (u "groupe valeur canada", u "canada value package");
    (u "groupe valeur canada", u "canada value package");
    (u "35th anniversary edition", u "35th anniversary");
    (u "30th anniversary edition", u "30th anniversary");
    (u "sxt stow’n go", u "sxt stow n go"); (u "sxt stow n'go", u "sxt stow n go");
    (u "sxt stow & go", u "sxt stow n go"); (u "sxt stow&go", u "sxt stow n go");
    (u "sxt stowftn go", u "sxt stow n go"); (u "se stow go", u "se stow n go");
    (u "sxt stow go", u "sxt stow n go"); (u "stow go", u "stow n go"); (u "gtawd", u "gt");
    (u "r-t", u "rt"); (u "crew", u "crew cab")
  ].

Definition words_to_remove_dodge : list str := Eval vm_compute in
  [
    u "wgn"; u "cam. de"; u "i"
  ].

Definition hyundai_trim_correction_mapping : list (str * str) := Eval vm_compute in
  [
    (u "essentiel", u "essential"); (u "cvp", u "canada value package");
    (u "pref", u "preferred"); (u "prefered", u "preferred"); (u "preffered", u "preferred");
    (u "man l", u "l"); (u "man gl", u "gl"); (u "man gls", u "gls");
    (u "preferred 2.0l", u "2.0l preferred"); (u "preferred 2.0t", u "2.0t preferred");
    (u "preferred 2.4", u "2.4l preferred"); (u "lux", u "luxury");
    (u "preferred electric", u "preferred ev")
  ].

Definition words_to_remove_hyundai : list str := Eval vm_compute in
  [
    u "ivt"; u "dct"
  ].

Definition landrover_trim_correction_mapping : list (str * str) := Eval vm_compute in
  [
    (u "hse lux", u "hse luxury"); (u "lux", u "luxury")
  ].

Definition tesla_trim_correction_mapping : list (str * str) := Eval vm_compute in
  [
    (u "rwd", u "standard range"); (u "standard plus", u "standard range plus");
    (u "long range i awd", u "long range dual motor");
    (u "long range dual motor awd", u "long range dual motor");
    (u "long range awd full self drive", u "long range dual motor autopilot");
    (u "long range full self drive", u "long range autopilot");
    (u "long range battery", u "long range");
    (u "standard range plus full self drive", u "standard range plus autopilot");
    (u "standard range plus pilot", u "standard range plus autopilot");
    (u "longue autonomie ti", u "long range autopilot");
    (u "longue autonomie", u "long range autopilot");
    (u "autonomie standard plus", u "standard range plus autopilot");
    (u "autonomie standard plus pa", u "standard range plus autopilot");
    (u "standard range plus autopi", u "standard range plus autopilot");
    (u "long range 500km autonomie 500k", u "long range autopilot");
    (u "performance full self drive", u "performance autopilot");
    (u "long range ltd avail", u "long range -ltd avail");
    (u "standard range ltd avail", u "standard range -ltd avail");
    (u "standard", u "standard range"); (u "dual motor long range", u "long range dual motor");
    (u "dual motor standard range", u "standard range dual motor");
    (u "long range autonome", u "long range autopilot");
    (u "autonome standard plus", u "standard range plus");
    (u "autonome standard plus pa", u "standard range plus");
    (u "longue autonome", u "long range autopilot");
    (u "longue autonome t", u "long range autopilot"); (u "sr", u "standard range");
    (u "pilot", u "autopilot"); (u "dual motor", u "long range dual motor");
    (u "de performance", u "performance dual motor");
    (u "standard range plus w autopilot", u "standard range plus autopilot");
    (u "long range autonomie", u "long range autopilot"); (u "base", u "standard range");
    (u "long range dual motors", u "long range dual motor");
    (u "long range pilot", u "long range autopilot");
    (u "autopilot standard plus", u "standard range plus autopilot");
    (u "autopilot standard plus pa", u "standard range plus autopilot");
    (u "longue autopilot", u "long range autopilot")
  ].

Definition invalid_tesla_trims : list str := Eval vm_compute in
  [
    u "model 3"; u "model s"; u "model y"; u "x"; u "s"; u "3"; u "360"; u "electric";
    u "elect"; u "lo"
  ].

Definition words_to_remove_tesla : list str := Eval vm_compute in
  [
    u "i"; u "over 30 teslas in stock"; u "and ready"; u "wow"; u "sky view"; u "glass";
    u "glassroof"; u "ti"; u "de"; u "electric"
  ].

Definition words_to_remove_nissan : list str := Eval vm_compute in
  [
    u "chauffantsbluetooth"; u "svmagcamérabancs"; u "svawdmagcamérabancs";
    u "électriquecamérabluetooth"; u "awdmagcamérabancs"; u "acgr"; u "awdtoit";
    u "360gpscuir"; u "slawdcamera 360cuirtoit panomags"; u "bluetoothregul.vitesseac"
  ].

Definition words_to_remove_kia : list str := Eval vm_compute in
  [
    u "jamais accidentégarantie 10 ans200 000km"; u "jamais accidentégarantie 10 ans200 000km";
    u "apple car playgarantie 10ans200 000km"; u "garantie 10 ans"; u "ivt"; u "at"; u "man";
    u "air"; u "bm"; u "ba"; u "gr"
  ].

Definition ram_trim_correction_mapping : list (str * str) := Eval vm_compute in
  [
    (u "crew", u "crew cab"); (u "crewcab", u " crew cab"); (u "cre", u "crew cab");
    (u "cabine quad", u "quad cab 140.5 st");
    ((u "quad cab 140.5" ++ [34%N] ++ u " st"), u "quad cab 140.5 st");
    (u "laramie crew", u "laramie crew cab");
    (u "rebel crew 5ft7inch box", u "rebel crew 5ft7 box"); (u "1500", u "base");
    (u "bighorn", u "big horn"); (u "crew 140.5inch big horn", u "crew 140.5 big horn");
    (u "crew 140.5inch sport", u "crew 140.5 sport");
    (u "crew 140.5inch st", u "crew 140.5 st");
    (u "express crew 5ft7inch box", u "express crew 5ft7 box");
    (u "express cabine dftéquipe caisse de 5 pi 7 po", u "express crew 5ft7 box");
    (u "express crew bte std . night edi", u "express night");
    (u "longhorn limited", u "limited longhorn"); (u "ltd", u "limited"); (u "reg", u "base");
    (u "regular", u "base")
  ].

Definition subaru_trim_correction_mapping : list (str * str) := Eval vm_compute in
  [
    (u "2.5i w-touring pkg", u "2.5i touring"); (u "2.5i touring package", u "2.5i touring");
    (u "3.6r limited package", u "3.6r limited"); (u "tourisme", u "touring");
    (u "2.5i tourisme", u "2.5i touring")
  ].

Definition words_to_remove_subaru : list str := Eval vm_compute in
  [
    u "bm"; u "man"; u "at"; u "mag"; u "man"; u "super"; u "weyesight"; u "w-eyesight";
    u "eyesight"; u "w-"
  ].

Definition mini_trim_correction_mapping : list (str * str) := Eval vm_compute in
  [
    (u "jcw", u "john cooper works"); (u "jc", u "john cooper works"); (u "cooper s", u "s");
    (u "s model", u "s"); (u "cooper", u "base"); (u "hardtop", u "base");
    (u "cooper se", u "se"); (u "cooper s all4", u "s"); (u "all4 s", u "s");
    (u "cooper", u "base"); (u "3 door", u "base"); (u "3-door", u "base");
    (u "5 door", u "base"); (u "5-door", u "base"); (u "5-door", u "base");
    (u "classic", u "base classic line"); (u "base classic", u "base classic line");
    (u "base premier", u "base premier line"); (u "premier", u "base premier line");
    (u "premier", u "base premier line")
  ].

Definition words_to_remove_mini : list str := Eval vm_compute in
  [
    u "super"; u "all4"
  ].

Definition cadillac_trim_correction_mapping : list (str * str) := Eval vm_compute in
  [
    (u "luxury 2.0t", u "2.0t luxury"); (u "luxury 2.0l", u "2.0l luxury");
    (u "luxe", u "luxury")
  ].

Definition words_to_remove_cadillac : list str := Eval vm_compute in
  [
    u "collection"
  ].

Definition infiniti_trim_correction_mapping : list (str * str) := Eval vm_compute in
  [
    (u "technology", u "tech"); (u "technologie", u "tech"); (u "sport tech", u "sport tech");
    (u "sport-tech", u "sport tech"); (u "premium-tech", u "premium tech");
    (u "premium tech", u "premium tech"); (u "essentiel", u "essential")
  ].

Definition words_to_remove_infiniti : list str := Eval vm_compute in
  [
    u "proassist"
  ].

Definition invalid_infiniti_trims : list str := Eval vm_compute in
  [
    u "qx60"; u "sun"; u "ti"; u "i"; u "utility"; u "safety"
  ].

Definition mercedes_trim_correction_mapping : list (str * str) := Eval vm_compute in
  [
    (u "c 300", u "c300"); (u "c 300 4 matic", u "c300"); (u "c 300 coupe", u "c300 coupe");
    (u "c 300 wagon", u "c300 wagon"); (u "c 300 amg", u "c300 amg");
    (u "c 450 amg", u "c450 amg"); (u "c 400", u "c400"); (u "c 350", u "c350");
    (u "c 250", u "c250"); (u "amg c 43", u "c43 amg"); (u "c 43 amg", u "c43 amg");
    (u "c 63 amg", u "c63 amg"); (u "glc 300", u "glc300");
    (u "glc 300 premium", u "glc300 premium"); (u "glc 300 coupe", u "glc300 coupe");
    (u "glc 300 amg", u "glc300 amg"); (u "glc 350e", u "glc350e");
    (u "amg glc 43", u "amg glc 43"); (u "gle 400", u "gle400"); (u "gle 450", u "gle450");
    (u "gle 350", u "gle350"); (u "gle 350d", u "gle350d"); (u "cla 250", u "cla250");
    (u "cla 250 amg", u "cla250 amg"); (u "cla 250 coupe", u "cla250 coupe");
    (u "gla 250", u "gla250"); (u "gla 250 4 matic", u "gla250");
    (u "gla 45 amg", u "gla45 amg"); (u "e 300", u "e300"); (u "e 400", u "e400");
    (u "e 350", u "e350"); (u "e 250 bluetec", u "e250 bluetec"); (u "e 550", u "e550");
    (u "e 450", u "e450"); (u "e 400 coupe", u "e400 coupe"); (u "e 53 amg", u "e53 amg");
    (u "a 250", u "a250"); (u "a 250 premium", u "a250 premium"); (u "a 220", u "a220");
    (u "b 250 routière sport", u "b250 sports tourer");
    (u "b 250 sports tourer", u "b250 sports tourer"); (u "b 250", u "b250");
    (u "s 550", u "s550"); (u "s 550 lwb", u "s550 lwb"); (u "s 560", u "s560");
    (u "s 580", u "s580"); (u "amg s 63", u "s63 amg");
    (u "glk 250 bluetec", u "glk250 bluetec"); (u "glk 350", u "glk350");
    (u "gls 450", u "gls450"); (u "gls 550", u "gls550");
    (u "ml 350 bluetec", u "ml350 bluetec"); (u "ml 350", u "ml350"); (u "g 550", u "g550");
    (u "c 300", u "c300"); (u "c 300 sport", u "c300 sport"); (u "c 43 amg", u "c43 amg");
    (u "c 43 amg premium", u "c43 amg premium"); (u "cla 45 amg", u "cla45 amg");
    (u "cls 550", u "cls550"); (u "e 400", u "e400"); (u "g 63 amg", u "g63 amg");
    (u "gl 350 bluetec", u "gl350 bluetec"); (u "glb 250", u "glb250");
    (u "glc 43 amg", u "glc43 amg"); (u "gle 450 amg", u "gle450 amg");
    (u "gle 53", u "gle53"); (u "gls 450 amg", u "gls450 amg"); (u "ml 63 amg", u "ml63 amg");
    (u "amg g 63", u "g63 amg"); (u "amg a 35", u "amg a35"); (u "amg c 43", u "amg c43");
    (u "amg c 43 coupe", u "amg c43 coupe"); (u "amg c43", u "amg c43");
    (u "amg cls 53", u "amg cls53"); (u "amg cls 53 coupe", u "amg cls53 coupe");
    (u "amg cls 63 s", u "amg cls63 s"); (u "amg e 43", u "amg e43");
    (u "amg e 53", u "amg e53"); (u "amg gla 35", u "amg gla35");
    (u "amg gla 45", u "amg gla45"); (u "amg glc 43", u "amg glc43");
    (u "amg glc 43 coupe", u "amg glc43 coupe"); (u "amg glc 63 s", u "amg glc63 s");
    (u "amg gle 43", u "amg gle43"); (u "amg gle 43 coupe", u "amg gle43 coupe");
    (u "amg gle 53", u "amg gle53"); (u "amg gle 63 s", u "amg gle63 s");
    (u "amg gls 63", u "amg gls63")
  ].

Definition words_to_remove_mercedes_benz : list str := Eval vm_compute in
  [
    u "4matic"; u "4 matic"
  ].

Definition gmc_trim_correction_mapping : list (str * str) := Eval vm_compute in
  [
    (u "reg", u "regular"); (u "cre", u "crew cab")
  ].

Definition words_to_remove_volkswagen : list str := Eval vm_compute in
  [
    u "w heat sts"; u "b. spo"; u "4 motion"; u "4motion"
  ].

Definition mazda_trim_correction_mapping : list (str * str) := Eval vm_compute in
  [
    (u "gt wturbo", u "gt turbo"); (u "gt w-turbo", u "gt turbo"); (u "gs-sky", u "gs");
    (u "sport gs-sky", u "sport gs"); (u "gt-sky", u "gt"); (u "gx-sky", u "gx");
    (u "gtawd", u "gt"); (u "conv gt", u "gt convertible")
  ].

Definition words_to_remove_mazda : list str := Eval vm_compute in
  [
    u "air"; u "at"; u "sky"
  ].

Definition words_to_remove_mitsubishi : list str := Eval vm_compute in
  [
    u "s-awc"; u "awc"
  ].

Definition words_to_remove_lexus : list str := Eval vm_compute in
  [
    u "series"
  ].

Definition calls : list call :=
  [ mkCall (u "bmw") (Some bmw_trim_correction_mapping) Auto (Some words_to_remove_bmw) (Some invalid_bmw_trims) 4;
    mkCall (u "toyota") (Some toyota_trim_correction_mapping) NoValidTrims None (Some invalid_toyota_trims) 4;
    mkCall (u "audi") (Some audi_trim_correction_mapping) NoValidTrims (Some words_to_remove_audi) (Some invalid_audi_trims) 4;
    mkCall (u "honda") None NoValidTrims (Some words_to_remove_honda) (Some invalid_honda_trims) 4;
    mkCall (u "ford") (Some ford_trim_correction_mapping) (ValidTrims valid_ford_trims) None None 4;
    mkCall (u "porsche") None NoValidTrims (Some words_to_remove_porsche) None 4;
    mkCall (u "chevrolet") (Some chevrolet_trim_correction_mapping) NoValidTrims (Some words_to_remove_porsche) None 4;
    mkCall (u "chrysler") (Some chrysler_trim_correction_mapping) Auto None None 4;
    mkCall (u "dodge") (Some dodge_trim_correction_mapping) Auto (Some words_to_remove_dodge) None 4;
    mkCall (u "hyundai") (Some hyundai_trim_correction_mapping) Auto (Some words_to_remove_hyundai) None 4;
    mkCall (u "land rover") (Some landrover_trim_correction_mapping) Auto None None 4;
    mkCall (u "tesla") (Some tesla_trim_correction_mapping) Auto (Some words_to_remove_tesla) (Some invalid_tesla_trims) 4;
    mkCall (u "nissan") None Auto (Some words_to_remove_nissan) None 4;
    mkCall (u "kia") None Auto (Some words_to_remove_kia) None 4;
    mkCall (u "ram") (Some ram_trim_correction_mapping) Auto None None 4;
    mkCall (u "subaru") (Some subaru_trim_correction_mapping) Auto (Some words_to_remove_subaru) None 4;
    mkCall (u "mini") (Some mini_trim_correction_mapping) Auto (Some words_to_remove_mini) None 4;
    mkCall (u "cadillac") (Some cadillac_trim_correction_mapping) Auto (Some words_to_remove_cadillac) None 4;
    mkCall (u "infiniti") (Some infiniti_trim_correction_mapping) Auto (Some words_to_remove_infiniti) (Some invalid_infiniti_trims) 4;
    mkCall (u "mercedes-benz") (Some mercedes_trim_correction_mapping) Auto (Some words_to_remove_mercedes_benz) None 4;
    mkCall (u "gmc") (Some gmc_trim_correction_mapping) Auto None None 4;
    mkCall (u "volkswagen") None Auto (Some words_to_remove_volkswagen) None 4;
    mkCall (u "mazda") (Some mazda_trim_correction_mapping) Auto (Some words_to_remove_mazda) None 4;
    mkCall (u "mitsubishi") None Auto (Some words_to_remove_mitsubishi) None 4;
    mkCall (u "lexus") None Auto (Some words_to_remove_lexus) None 4;
    mkCall (u "jeep") None Auto None None 4;
    mkCall (u "lincoln") None Auto None None 4;
    mkCall (u "volvo") None Auto None None 4 ].

End MakeRules.

(* ================================================================= *)
(** ** The text normaliser *)

Fixpoint truncate_after_words (s : str) (words : list str) : str :=
  match words with
  | [] => s
  | word :: rest =>
    if contains word s then strip (before word s)
    else truncate_after_words s rest
  end.

Definition translate_string (s : str) (translations : list (str * str)) : str :=
  sub (alt translations) s.

Definition remove_characters (chars : str) (s : str) : str :=
  fold_left (fun t char => replace [char] [32] t) chars s.

Definition remove_complex_words (ws : list str) (s : str) : str :=
  fold_left (fun t word => replace word [] t) ws s.

Definition strip_tail (s : str) : str :=
  rstrip (u " &") (rstrip (u " w-") (rstrip (u " w") (rstrip (u ".") (rstrip (u "-") s)))).

(** Steps up to the translation: case, truncation, punctuation, spaces. *)
Definition clean_prepare (trim : pyobj) : str :=
  let trim := lower (py_str trim) in
  let trim := truncate_after_words trim CleanTrimTables.words in
  let trim := remove_characters CleanTrimTables.characters_to_remove trim in
  let trim := replace (u "'") (u "ft") trim in
  let trim := remove_extra_spaces trim in
  strip trim.

(** Removal of the unwanted words. *)
Definition clean_words (add_unwanted_words : option (list str)) (trim : str) : str :=
  let add_unwanted_words :=
    match add_unwanted_words with
    | None => []
    | Some l => l
    end in
  let simple_words_to_remove := CleanTrimTables.simple_words_to_remove ++ add_unwanted_words in
  let trim := remove_complex_words CleanTrimTables.complex_words_to_remove trim in
  sub (bounded_words simple_words_to_remove) trim.

(** The final operations. *)
Definition clean_finish (trim : str) : str :=
  let trim := remove_extra_spaces trim in
  let trim := strip trim in
  let trim := remove_duplicate_words trim in
  let trim := strip_tail trim in
  let trim := remove_extra_spaces trim in
  strip trim.

Definition clean_trim (trim : pyobj) (add_unwanted_words : option (list str)) : str :=
  let trim := clean_prepare trim in
  let trim := translate_string trim CleanTrimTables.trim_translation_mapping in
  let trim := clean_words add_unwanted_words trim in
  clean_finish trim.

(* ================================================================= *)
(** ** The validator *)

(** [pattern.search(input_string)] for the alternation of the red-flag
    words. *)
Definition check_redflag_words_in_string (input_string : str) : bool :=
  existsb (fun word => contains word input_string) ValidateTrimTables.words_to_check.

Definition unknown : str := Eval vm_compute in u "unknown".

Definition validate_trim (trim : str) (add_invalid_trims : option (list str)) : str :=
  let add_invalid_trims :=
    match add_invalid_trims with
    | None => []
    | Some l => l
    end in
  let invalid_trims := ValidateTrimTables.invalid_trims ++ add_invalid_trims in
  if mem_str trim invalid_trims then unknown
  else if check_redflag_words_in_string trim then unknown
  else trim.

(** [validate_trim] called with an arbitrary Python value: a value that is
    not a string is equal to no entry of the invalid list, and the regex
    search then rejects it. *)
Definition validate_trim_py (trim : pyobj) (add_invalid_trims : option (list str)) : result str :=
  match trim with
  | PyStr s => Returns (validate_trim s add_invalid_trims)
  | _ => Raises TypeError
  end.

(* ================================================================= *)
(** ** Side-channel extraction *)

(** [df['trim'].str.contains(substring, case=False, na=False)]: the
    substrings of [update_list] hold no regex operator and are lower-case. *)
Definition contains_nocase (substring text : str) : bool :=
  contains substring (lower text).

Definition apply_update (upd : column * str * str) (l : listing) : listing :=
  let '(column, substring, value) := upd in
  if contains_nocase substring (trim l) then set_column column value l else l.

Definition extract_info_from_trim (df : list listing) : list listing :=
  fold_left (fun df upd => List.map (apply_update upd) df) update_list df.

(* ================================================================= *)
(** ** The per-make processor *)

(** [df.loc[mask, ...] = ...] with [mask = df['make'] == make]. *)
Definition on_make (mk : str) (f : row -> row) (df : list row) : list row :=
  List.map (fun r => if eqb_str (row_make r) mk then f r else r) df.

(** A dict literal keeps, for a key written twice, the value written last. *)
Fixpoint dict_get (d : list (str * str)) (k : str) : option str :=
  match d with
  | [] => None
  | (k', v) :: rest =>
    match dict_get rest k with
    | Some v' => Some v'
    | None => if eqb_str k k' then Some v else None
    end
  end.

(** [Series.replace(mapping)]: a cell equal to a key becomes its value. *)
Definition replace_cell (mapping : list (str * str)) (t : str) : str :=
  match dict_get mapping t with
  | Some v => v
  | None => t
  end.

Fixpoint count_str (x : str) (l : list str) : nat :=
  match l with
  | [] => O
  | y :: l' => if eqb_str x y then S (count_str x l') else count_str x l'
  end.

(** The distinct values of a column, in order of first appearance. *)
Fixpoint distinct (seen : list str) (l : list str) : list str :=
  match l with
  | [] => []
  | x :: l' => if mem_str x seen then distinct seen l' else x :: distinct (x :: seen) l'
  end.

(** Insertion in a list sorted by decreasing key, before the first element
    whose key is not larger. *)
Fixpoint insert_desc (A : Type) (key : A -> nat) (x : A) (l : list A) : list A :=
  match l with
  | [] => [x]
  | y :: l' => if (key y <=? key x)%nat then x :: l else y :: insert_desc key x l'
  end.

(** Sorting by decreasing key; equal keys keep their order.  ([sort_values]
    leaves the order of equal keys to the sorting algorithm; the statements
    below rely on the order of the keys only.) *)
Fixpoint sort_desc (A : Type) (key : A -> nat) (l : list A) : list A :=
  match l with
  | [] => []
  | x :: l' => insert_desc key x (sort_desc key l')
  end.

(** [Series.value_counts()]: each distinct value with its number of
    occurrences, most frequent first. *)
Definition value_counts (l : list str) : list (str * nat) :=
  sort_desc snd (List.map (fun x => (x, count_str x l)) (distinct [] l)).

(** The counts at or above the threshold, without the label "unknown"
    ([Index.drop]; the test [if 'unknown' in ...] that follows it in the
    source can then no longer succeed), without the labels of one or two
    characters, longest label first. *)
Definition get_sorted_trims_above_threshold (df : list row) (make : str) (threshold : Z)
  : list str :=
  let make_data := filter (fun r => eqb_str (row_make r) make) df in
  let trim_counts := value_counts (List.map row_trim make_data) in
  let trims_above_threshold :=
    filter (fun t => negb (eqb_str t unknown))
           (List.map fst (filter (fun vc => (threshold <=? Z.of_nat (snd vc))%Z) trim_counts)) in
  let valid_trims := filter (fun t => (2 <? length t)%nat) trims_above_threshold in
  sort_desc (@length N) valid_trims.

(** [next(...)] gives the first valid trim found in the backup, and
    [if found_trim] lets only a non-empty one through. *)
Definition update_unknown_trim (r : row) (valid_trims : list str) : row :=
  if negb (eqb_str (row_trim r) unknown) then r
  else
    match find (fun trim => contains trim (trim_backup r)) valid_trims with
    | Some ((_ :: _) as found_trim) => row_set_trim found_trim r
    | _ => r
    end.

(** The first three assignments of [process_trim_by_make]: the rows of the
    make after cleaning, correction ([if trim_correction_mapping] lets only
    a non-empty dict through) and validation. *)
Definition normalise_make (df : list row) (make : str)
           (trim_correction_mapping : option (list (str * str)))
           (add_unwanted_words add_invalid_trims : option (list str)) : list row :=
  let df := on_make make
              (fun r => row_set_trim (clean_trim (PyStr (row_trim r)) add_unwanted_words) r) df in
  let df :=
    match trim_correction_mapping with
    | Some ((_ :: _) as mapping) =>
      on_make make (fun r => row_set_trim (replace_cell mapping (row_trim r)) r) df
    | _ => df
    end in
  on_make make (fun r => row_set_trim (validate_trim (row_trim r) add_invalid_trims) r) df.

Definition process_trim_by_make (df : list row) (make : str)
           (trim_correction_mapping : option (list (str * str)))
           (valid_trims : valid_trims_arg)
           (add_unwanted_words add_invalid_trims : option (list str))
           (unknown_threshold : Z) : list row :=
  let df := normalise_make df make trim_correction_mapping add_unwanted_words add_invalid_trims in
  match valid_trims with
  | Auto =>
    let valid_trims := get_sorted_trims_above_threshold df make unknown_threshold in
    on_make make (fun r => update_unknown_trim r valid_trims) df
  | ValidTrims ((_ :: _) as valid_trims) =>
    on_make make (fun r => update_unknown_trim r valid_trims) df
  | _ => df
  end.

(* ================================================================= *)
(** ** The driver *)

Definition run_call (df : list row) (c : call) : list row :=
  process_trim_by_make df (call_make c) (call_trim_correction_mapping c) (call_valid_trims c)
                       (call_add_unwanted_words c) (call_add_invalid_trims c)
                       (call_unknown_threshold c).

(** The trims that occur at least [min_occurrences] times in the column. *)
Definition popular (min_occurrences : Z) (df : list listing) (t : str) : bool :=
  (min_occurrences <=? Z.of_nat (count_str t (List.map trim df)))%Z.

Definition suppress_rare (min_occurrences : Z) (df : list listing) : list listing :=
  List.map (fun l => if popular min_occurrences df (trim l) then l else set_trim unknown l) df.

(** The two assignments under [if combine_with_modelname]. *)
Definition combine (df : list listing) : list listing :=
  let df := List.map (fun l => set_trim (model l ++ u "-" ++ trim l) l) df in
  List.map (fun l => if eqb_str (trim l) unknown
                     then set_trim (model l ++ u "-unknown") l else l) df.

(** The statements of [process_trim] up to the removal of the backup column:
    lower-casing of the trim column, side-channel extraction, the backup, and
    the calls of [process_trim_by_make] in source order. *)
Definition process_makes (df : list listing) : list listing :=
  let df := List.map (fun l => set_trim (lower (trim l)) l) df in
  let df := extract_info_from_trim df in
  let df := List.map (fun l => mkRow l (trim l)) df in
  let df := fold_left run_call MakeRules.calls df in
  List.map cols df.

(** The rest of [process_trim].  [fillna] finds nothing to fill, all cells
    being text. *)
Definition process_trim (df : list listing) (min_occurrences : Z) (combine_with_modelname : bool)
  : list listing :=
  let df := process_makes df in
  let df := suppress_rare min_occurrences df in
  if combine_with_modelname then combine df else df.

(* ================================================================= *)
(** ** Predicates of the statements *)

(** No upper-case letter. *)
Definition is_lower (s : str) : bool := forallb (fun c => negb (isupper c)) s.

(** Every white-space character is one ' ' followed by another character. *)
Fixpoint single_spaced (s : str) : bool :=
  match s with
  | [] => true
  | c :: s' =>
    (if isspace c
     then (c =? 32) && match s' with
                       | [] => false
                       | d :: _ => negb (isspace d)
                       end
     else true) && single_spaced s'
  end.

(** No leading, trailing or repeated white space. *)
Definition no_extra_whitespace (s : str) : bool :=
  match s with
  | [] => true
  | c :: _ => negb (isspace c)
  end && single_spaced s.

(** The first word occurs again later in the text. *)
Definition repeats_leading_word (s : str) : bool :=
  match split_ws s with
  | [] => false
  | w :: rest => mem_str w rest
  end.

(** [s.endswith(suffix)]. *)
Definition ends_with (suffix s : str) : bool := starts_with (rev suffix) (rev s).

(** The pattern of the matcher matches somewhere in the text. *)
Fixpoint matches_somewhere (m : matcher) (prev : option N) (s : str) : bool :=
  match m prev s with
  | Some (S _, _) => true
  | _ => false
  end ||
  match s with
  | [] => false
  | c :: s' => matches_somewhere m (Some c) s'
  end.

Fixpoint distinct_words (ws : list str) : bool :=
  match ws with
  | [] => true
  | w :: rest => negb (mem_str w rest) && distinct_words rest
  end.

(** A cleaned text on which a second cleaning finds nothing to do: no
    truncation word, no translation key, no complex phrase, no unwanted word
    between word boundaries, no word twice, no strippable last character. *)
Definition settled (y : str) : bool :=
  forallb (fun word => negb (contains word y)) CleanTrimTables.words
  && forallb (fun kv => negb (contains (fst kv) y)) CleanTrimTables.trim_translation_mapping
  && forallb (fun word => negb (contains word y)) CleanTrimTables.complex_words_to_remove
  && negb (matches_somewhere (bounded_words CleanTrimTables.simple_words_to_remove) None y)
  && distinct_words (split_ws y)
  && negb (mem_char (last y 0) (u "-. w&")).

(** The plain concatenation of model and trim. *)
Definition combine_plain (l : listing) : listing := set_trim (model l ++ u "-" ++ trim l) l.


(* ----------------------------------------------------------------- *)
(** *** Sample tables *)

Definition sample (mk md t : string) : listing := mkListing (u mk) (u md) (u t) [] [] [] [].

Definition civic_and_accord : list listing :=
  [ sample "honda" "civic" "LX"; sample "honda" "civic" "LX"; sample "honda" "civic" "LX";
    sample "honda" "accord" "LX"; sample "honda" "accord" "LX" ].

Definition five_civics : list listing :=
  [ sample "honda" "civic" "LX"; sample "honda" "civic" "LX"; sample "honda" "civic" "LX";
    sample "honda" "civic" "LX"; sample "honda" "civic" "LX" ].

Definition mixed_lot : list listing :=
  repeat (sample "bmw" "z4" "Conv") 5
  ++ repeat (sample "honda" "civic" "Sport Sport-") 5
  ++ repeat (sample "jaguar" "f-pace" " R-Sport  AWD") 5.

Definition backfill_lot : list row :=
  List.map (fun l => mkRow l (trim l))
    [ sample "jeep" "wrangler" "sahara"; sample "jeep" "wrangler" "sahara";
      sample "jeep" "wrangler" "sahara"; sample "jeep" "wrangler" "sahara";
      sample "jeep" "wrangler" "sahara certified"; sample "kia" "rio" "lx" ].

Definition unknown_lot : list listing :=
  [ sample "honda" "civic" "unknown"; sample "jaguar" "xe" "unknown" ].

(** A call of [process_trim_by_make] under which a row whose trim and backup
    are the sentinel stays as it is: cleaning and correction keep the
    sentinel and no entry of a literal allowlist occurs in it. *)
Definition call_keeps_unknown (c : call) : bool :=
  eqb_str (clean_trim (PyStr unknown) (call_add_unwanted_words c)) unknown
  && match call_trim_correction_mapping c with
     | Some mapping => eqb_str (replace_cell mapping unknown) unknown
     | None => true
     end
  && match call_valid_trims c with
     | ValidTrims l => negb (existsb (fun t => contains t unknown) l)
     | _ => true
     end.

(** White space as [remove_extra_spaces] leaves it: single ' ' characters,
    none of them followed by another white-space character. *)
Fixpoint collapsed (s : str) : bool :=
  match s with
  | [] => true
  | c :: s' =>
    (if isspace c
     then (c =? 32) && match s' with
                       | [] => true
                       | d :: _ => negb (isspace d)
                       end
     else true) && collapsed s'
  end.

(** The characters of a text that [clean_prepare] has gone over: no
    upper-case letter, no character of [characters_to_remove], no
    apostrophe. *)
Definition plain_char (c : N) : bool :=
  negb (isupper c) && negb (mem_char c CleanTrimTables.characters_to_remove)
  && negb (c =? 39).

(** A call whose correction values and literal allowlist are lower-case. *)
Definition call_is_lower (c : call) : bool :=
  match call_trim_correction_mapping c with
  | Some mapping => forallb (fun kv => is_lower (snd kv)) mapping
  | None => true
  end
  && match call_valid_trims c with
     | ValidTrims l => forallb is_lower l
     | _ => true
     end.

(* ================================================================= *)
(** ** The helpers that [clean_trim] does not call *)

(** [s.split(sep)] for a separator of one character: the fields between the
    separators, the empty ones included; the list is never empty. *)
Fixpoint split_char (sep : N) (s : str) : list str :=
  match s with
  | [] => [[]]
  | c :: s' =>
    if c =? sep then [] :: split_char sep s'
    else match split_char sep s' with
         | w :: ws => (c :: w) :: ws
         | [] => [[c]]
         end
  end.

(** The loop of [remove_second_occurrence] over the words, with its flag. *)
Fixpoint blank_repeats (first_word : str) (first_occurrence : bool) (words : list str)
  : list str :=
  match words with
  | [] => []
  | word :: rest =>
    if eqb_str word first_word
    then if first_occurrence
         then word :: blank_repeats first_word false rest
         else [] :: blank_repeats first_word false rest
    else word :: blank_repeats first_word first_occurrence rest
  end.

Definition remove_second_occurrence (s : str) : str :=
  let words := split_char 32 s in
  let first_word := hd [] words in
  join [32] (blank_repeats first_word true words).

(** [mapping] is a dict from text to text. *)
Definition correct_string (input_str : str) (mapping : list (str * str)) : str :=
  let lower_input_str := lower input_str in
  match dict_get mapping lower_input_str with
  | Some v => v
  | None => input_str
  end.

(* ================================================================= *)
(** ** Further predicates and sample data *)

(** A word as [str.split()] produces it: not empty, no white space. *)
Definition is_token (w : str) : bool :=
  match w with
  | [] => false
  | _ => forallb (fun c => negb (isspace c)) w
  end.

(** A field as [s.split(' ')] produces it: no space character. *)
Definition is_field (w : str) : bool := forallb (fun c => negb (c =? 32)) w.

(** The fields after the first one, the repeats of the first one blanked. *)
Definition blank_later (words : list str) : list str :=
  match words with
  | [] => []
  | first_word :: rest =>
    first_word :: List.map (fun word => if eqb_str word first_word then [] else word) rest
  end.

Definition get_column (c : column) (l : listing) : str :=
  match c with
  | Bodytype => bodytype l
  | Fueltype => fueltype l
  | Drivetrain => drivetrain l
  | Transmission => transmission l
  end.

Definition column_eqb (a b : column) : bool :=
  match a, b with
  | Bodytype, Bodytype | Fueltype, Fueltype
  | Drivetrain, Drivetrain | Transmission, Transmission => true
  | _, _ => false
  end.

(** The rule that decides a column: the last one of the list, for this
    column, whose substring occurs in the trim. *)
Definition rule_applies (c : column) (t : str) (upd : column * str * str) : bool :=
  let '(column, substring, _) := upd in
  column_eqb c column && contains_nocase substring t.

Definition last_rule (rules : list (column * str * str)) (c : column) (t : str)
  : option (column * str * str) :=
  find (rule_applies c t) (rev rules).

(** The makes for which [process_trim] calls [process_trim_by_make]. *)
Definition processed_makes : list str := List.map call_make MakeRules.calls.


(** The value a column ends with: that of the rule that decides it, the old
    value when no rule for the column applies. *)
Definition decided (c : column) (l : listing) : str :=
  match last_rule update_list c (trim l) with
  | Some (_, _, value) => value
  | None => get_column c l
  end.

Definition extract_row (l : listing) : listing :=
  mkListing (make l) (model l) (trim l)
            (decided Bodytype l) (decided Fueltype l) (decided Drivetrain l)
            (decided Transmission l).

(* ================================================================= *)
(** ** Two steps of [scripts/preprocessing.py] that run before [process_trim] *)







(* ================================================================= *)
(** ** Basic facts about text *)

Unset Implicit Arguments.

Lemma eqb_str_eq (a b : str) : eqb_str a b = true <-> a = b.
Proof.
  revert b; induction a as [|x a IH]; intros [|y b]; simpl; split; intro H;
    try reflexivity; try discriminate.
  - apply andb_true_iff in H as [Hx Hab].
    apply N.eqb_eq in Hx. apply IH in Hab. now subst.
  - injection H as -> ->. rewrite N.eqb_refl. simpl. now apply IH.
Qed.

Lemma eqb_str_refl (a : str) : eqb_str a a = true.
Proof. now apply eqb_str_eq. Qed.

Lemma eqb_str_neq (a b : str) : eqb_str a b = false <-> a <> b.
Proof.
  split.
  - intros H E. apply eqb_str_eq in E. congruence.
  - intro H. destruct (eqb_str a b) eqn:E; [|reflexivity].
    apply eqb_str_eq in E. contradiction.
Qed.

Lemma eqb_str_sym (a b : str) : eqb_str a b = eqb_str b a.
Proof.
  destruct (eqb_str a b) eqn:E.
  - apply eqb_str_eq in E. subst. symmetry. apply eqb_str_refl.
  - symmetry. apply eqb_str_neq. apply eqb_str_neq in E. congruence.
Qed.

Lemma mem_str_In (x : str) (l : list str) : mem_str x l = true <-> In x l.
Proof.
  unfold mem_str. rewrite existsb_exists. split.
  - intros (y & Hy & E). apply eqb_str_eq in E. now subst.
  - intro H. exists x. split; [assumption | apply eqb_str_refl].
Qed.

Lemma mem_str_app (x : str) (l1 l2 : list str) :
  mem_str x (l1 ++ l2) = mem_str x l1 || mem_str x l2.
Proof. unfold mem_str. apply existsb_app. Qed.

Lemma set_trim_same (l : listing) : set_trim (trim l) l = l.
Proof. now destruct l. Qed.

Lemma trim_set_trim (t : str) (l : listing) : trim (set_trim t l) = t.
Proof. reflexivity. Qed.

Lemma row_set_trim_same (r : row) : row_set_trim (row_trim r) r = r.
Proof. destruct r as [l b]. unfold row_set_trim, row_trim. simpl. now rewrite set_trim_same. Qed.

(* ================================================================= *)
(** ** The validator *)

Lemma redflag_spec (t : str) :
  check_redflag_words_in_string t = true <->
  exists word, In word ValidateTrimTables.words_to_check /\ contains word t = true.
Proof. unfold check_redflag_words_in_string. apply existsb_exists. Qed.

Lemma unknown_not_invalid : mem_str unknown ValidateTrimTables.invalid_trims = false.
Proof. vm_compute. reflexivity. Qed.

Lemma unknown_no_redflag : check_redflag_words_in_string unknown = false.
Proof. vm_compute. reflexivity. Qed.

Lemma validate_unknown (add_invalid_trims : option (list str)) :
  validate_trim unknown add_invalid_trims = unknown.
Proof.
  unfold validate_trim.
  destruct (mem_str unknown _); [reflexivity|].
  now rewrite unknown_no_redflag.
Qed.

Lemma rejected_spec (t : str) (extra_invalid : list str) :
  mem_str t (ValidateTrimTables.invalid_trims ++ extra_invalid)
  || check_redflag_words_in_string t = true <->
  (In t (ValidateTrimTables.invalid_trims ++ extra_invalid) \/
   exists word, In word ValidateTrimTables.words_to_check /\ contains word t = true).
Proof. now rewrite orb_true_iff, mem_str_In, redflag_spec. Qed.

(** C6 (as amended).  [validate_trim] answers with the sentinel when the
    whole text is an entry of the fixed invalid list or of the extra list, or
    when some red-flag word occurs in it; on every other text it answers with
    the text itself.  The answer is thus the sentinel exactly when the text
    is rejected or is itself the sentinel.  Leaving the extra list out is
    giving the empty one. *)
Theorem validate_trim_contract (t : str) (extra_invalid : list str) :
  let rejected :=
    In t (ValidateTrimTables.invalid_trims ++ extra_invalid) \/
    exists word, In word ValidateTrimTables.words_to_check /\ contains word t = true in
  (rejected -> validate_trim t (Some extra_invalid) = unknown) /\
  (~ rejected -> validate_trim t (Some extra_invalid) = t) /\
  (validate_trim t (Some extra_invalid) = unknown <-> rejected \/ t = unknown) /\
  validate_trim t None = validate_trim t (Some []).
Proof.
  cbv zeta. rewrite <- rejected_spec. unfold validate_trim.
  destruct (mem_str t (ValidateTrimTables.invalid_trims ++ extra_invalid)) eqn:Hm;
    destruct (check_redflag_words_in_string t) eqn:Hr; cbn [orb].
  - split; [reflexivity|]. split; [intro H; now contradiction H|].
    split; [tauto | reflexivity].
  - split; [reflexivity|]. split; [intro H; now contradiction H|].
    split; [tauto | reflexivity].
  - split; [reflexivity|]. split; [intro H; now contradiction H|].
    split; [tauto | reflexivity].
  - split; [discriminate|]. split; [reflexivity|].
    split; [|reflexivity]. split; [now right | intros [H|H]; [discriminate | exact H]].
Qed.

Lemma validate_trim_contract_witness :
  validate_trim (u "premium") (Some [u "bmw"]) = unknown /\
  validate_trim (u "rear seats") (Some [u "bmw"]) = unknown /\
  validate_trim (u "limited") (Some [u "bmw"]) = u "limited".
Proof.
  split; [|split].
  - apply (proj1 (validate_trim_contract (u "premium") [u "bmw"])).
    left. apply mem_str_In. vm_compute. reflexivity.
  - apply (proj1 (validate_trim_contract (u "rear seats") [u "bmw"])).
    right. apply redflag_spec. vm_compute. reflexivity.
  - apply (proj1 (proj2 (validate_trim_contract (u "limited") [u "bmw"]))).
    intros [H|H].
    + apply mem_str_In in H. vm_compute in H. discriminate.
    + apply redflag_spec in H. vm_compute in H. discriminate.
Defined.

(** C6 (as stated) fails on the sentinel itself: it is returned for the
    text "unknown", which is no entry of the invalid list and holds no
    red-flag word. *)
Lemma validate_trim_sentinel_counterexample :
  ~ (validate_trim unknown (Some []) = unknown <->
     (In unknown (ValidateTrimTables.invalid_trims ++ []) \/
      exists word, In word ValidateTrimTables.words_to_check
                   /\ contains word unknown = true)).
Proof.
  rewrite <- rejected_spec. intros [H _]. specialize (H (validate_unknown (Some []))).
  rewrite app_nil_r, unknown_not_invalid, unknown_no_redflag in H. discriminate.
Qed.

(** C10. The sentinel is a fixed point of validation whatever the extra
    list is; it is no entry of the built-in invalid list and holds no
    red-flag word, so without an extra entry it passes through unchanged. *)
Theorem validate_trim_unknown_fixed :
  (forall add_invalid_trims, validate_trim unknown add_invalid_trims = unknown) /\
  mem_str unknown ValidateTrimTables.invalid_trims = false /\
  check_redflag_words_in_string unknown = false.
Proof.
  split; [exact validate_unknown|]. split.
  - exact unknown_not_invalid.
  - exact unknown_no_redflag.
Qed.

(* ================================================================= *)
(** ** The combination with the model name *)

Lemma dash_text_not_unknown (a b : str) : eqb_str (a ++ u "-" ++ b) unknown = false.
Proof.
  apply eqb_str_neq. intro E.
  assert (H : In 45 unknown).
  { rewrite <- E. apply in_or_app. right. left. reflexivity. }
  unfold unknown in H. simpl in H.
  repeat (destruct H as [H|H]; [discriminate|]). exact H.
Qed.

Lemma combine_is_plain (df : list listing) : combine df = List.map combine_plain df.
Proof.
  unfold combine. rewrite map_map. apply map_ext. intro l.
  rewrite trim_set_trim, dash_text_not_unknown. reflexivity.
Qed.

Lemma process_trim_uncombined (df : list listing) (min_occurrences : Z) :
  process_trim df min_occurrences false = suppress_rare min_occurrences (process_makes df).
Proof. reflexivity. Qed.

Lemma process_trim_combined (df : list listing) (min_occurrences : Z) :
  process_trim df min_occurrences true
  = List.map combine_plain (suppress_rare min_occurrences (process_makes df)).
Proof. unfold process_trim. apply combine_is_plain. Qed.

(** C8. The two assignments of the combination step amount to the first
    one alone: the guard for a trim equal to the sentinel selects no row,
    because every combined trim holds a dash. *)
Theorem combine_guard_is_noop (df : list listing) (min_occurrences : Z) :
  combine df = List.map combine_plain df /\
  process_trim df min_occurrences true
  = List.map combine_plain (process_trim df min_occurrences false).
Proof.
  split.
  - apply combine_is_plain.
  - rewrite process_trim_combined, process_trim_uncombined. reflexivity.
Qed.

(* ================================================================= *)
(** ** The frame of the per-make processor *)

Section OnMake.

Variable mk : str.
Variable f : row -> row.

Lemma on_make_length (df : list row) : length (on_make mk f df) = length df.
Proof. unfold on_make. apply length_map. Qed.

Lemma on_make_other (df : list row) (i : nat) (r : row) :
  nth_error df i = Some r -> row_make r <> mk -> nth_error (on_make mk f df) i = Some r.
Proof.
  intros Hi Hr. unfold on_make. rewrite nth_error_map, Hi. simpl.
  apply eqb_str_neq in Hr. now rewrite Hr.
Qed.

Lemma on_make_absent (df : list row) :
  (forall r, In r df -> row_make r <> mk) -> on_make mk f df = df.
Proof.
  intro H. unfold on_make. rewrite <- (map_id df) at 2.
  apply map_ext_in. intros r Hr. apply H in Hr. apply eqb_str_neq in Hr.
  now rewrite Hr.
Qed.

End OnMake.

Lemma normalise_make_length df mk mapping words invalid :
  length (normalise_make df mk mapping words invalid) = length df.
Proof.
  unfold normalise_make. rewrite on_make_length.
  destruct mapping as [[|kv mapping]|]; rewrite ?on_make_length; reflexivity.
Qed.

Lemma normalise_make_other df mk mapping words invalid i r :
  nth_error df i = Some r -> row_make r <> mk ->
  nth_error (normalise_make df mk mapping words invalid) i = Some r.
Proof.
  intros Hi Hr. unfold normalise_make.
  apply on_make_other; [|assumption].
  destruct mapping as [[|kv mapping]|]; repeat (apply on_make_other; [|assumption]);
    assumption.
Qed.

Lemma normalise_make_absent df mk mapping words invalid :
  (forall r, In r df -> row_make r <> mk) ->
  normalise_make df mk mapping words invalid = df.
Proof.
  intro H. unfold normalise_make.
  destruct mapping as [[|kv mapping]|];
    repeat (rewrite (on_make_absent mk _ df H)); reflexivity.
Qed.

(** C9. [process_trim_by_make] keeps the number of rows, returns every row
    of another make as it was, and returns the whole table as it was when no
    row has the make. *)
Theorem process_trim_by_make_frame df mk mapping valid words invalid threshold :
  let out := process_trim_by_make df mk mapping valid words invalid threshold in
  length out = length df /\
  (forall i r, nth_error df i = Some r -> row_make r <> mk -> nth_error out i = Some r) /\
  ((forall r, In r df -> row_make r <> mk) -> out = df).
Proof.
  cbv zeta. unfold process_trim_by_make. split; [|split].
  - destruct valid as [| |[|v l]]; rewrite ?on_make_length; apply normalise_make_length.
  - intros i r Hi Hr.
    assert (Hn : nth_error (normalise_make df mk mapping words invalid) i = Some r)
      by (apply normalise_make_other; assumption).
    destruct valid as [| |[|v l]]; try assumption; apply on_make_other; assumption.
  - intro H. rewrite normalise_make_absent by assumption.
    destruct valid as [| |[|v l]]; try reflexivity; apply on_make_absent; assumption.
Qed.

Lemma process_trim_by_make_frame_witness :
  nth_error (process_trim_by_make backfill_lot (u "jeep") None Auto None None 4) 5
  = nth_error backfill_lot 5 /\
  process_trim_by_make backfill_lot (u "volvo") None Auto None None 4 = backfill_lot.
Proof.
  split.
  - apply (process_trim_by_make_frame backfill_lot (u "jeep") None Auto None None 4).
    + reflexivity.
    + vm_compute. discriminate.
  - apply (process_trim_by_make_frame backfill_lot (u "volvo") None Auto None None 4).
    intros r Hr. vm_compute in Hr.
    repeat (destruct Hr as [Hr|Hr]; [subst r; vm_compute; discriminate|]).
    contradiction.
Defined.

(* ================================================================= *)
(** ** Counting and sorting *)

Lemma count_str_In (x : str) (l : list str) : In x l <-> (0 < count_str x l)%nat.
Proof.
  induction l as [|y l IH]; simpl.
  - split; [contradiction | lia].
  - destruct (eqb_str x y) eqn:E.
    + apply eqb_str_eq in E. subst. split; [lia | now left].
    + apply eqb_str_neq in E. rewrite <- IH. split.
      * intros [H|H]; [congruence | assumption].
      * now right.
Qed.

Lemma distinct_In (l seen : list str) (x : str) :
  In x (distinct seen l) <-> In x l /\ ~ In x seen.
Proof.
  revert seen. induction l as [|y l IH]; intro seen; simpl.
  - tauto.
  - destruct (mem_str y seen) eqn:E.
    + apply mem_str_In in E. rewrite IH. split.
      * intros [H1 H2]. auto.
      * intros [[H1|H1] H2]; [subst; contradiction | auto].
    + assert (Hy : ~ In y seen) by (rewrite <- mem_str_In; congruence).
      simpl. rewrite IH. simpl. split.
      * intros [H|[H1 H2]]; [subst; auto | split; [auto | tauto]].
      * intros [[H1|H1] H2]; [now left|].
        destruct (list_eq_dec N.eq_dec y x) as [->|Hne]; [now left | right; tauto].
Qed.


Section SortDesc.

Variable A : Type.
Variable key : A -> nat.

Abbreviation desc := (fun a b : A => (key b <= key a)%nat).

Lemma insert_desc_perm (x : A) (l : list A) : Permutation (x :: l) (insert_desc key x l).
Proof.
  induction l as [|y l IH]; simpl.
  - apply Permutation_refl.
  - destruct (key y <=? key x)%nat.
    + apply Permutation_refl.
    + eapply Permutation_trans; [apply perm_swap|]. now apply perm_skip.
Qed.

Lemma sort_desc_perm (l : list A) : Permutation l (sort_desc key l).
Proof.
  induction l as [|x l IH]; simpl.
  - apply perm_nil.
  - eapply Permutation_trans; [|apply insert_desc_perm]. now apply perm_skip.
Qed.



Lemma sort_desc_In (l : list A) (x : A) : In x (sort_desc key l) <-> In x l.
Proof.
  split; apply Permutation_in; [apply Permutation_sym|]; apply sort_desc_perm.
Qed.

End SortDesc.

Lemma value_counts_In (l : list str) (t : str) (n : nat) :
  In (t, n) (value_counts l) <-> In t l /\ n = count_str t l.
Proof.
  unfold value_counts. rewrite sort_desc_In, in_map_iff. split.
  - intros (x & E & Hx). injection E as -> <-.
    apply distinct_In in Hx. tauto.
  - intros [Ht ->]. exists t. split; [reflexivity|].
    apply distinct_In. simpl. tauto.
Qed.



(* ================================================================= *)
(** ** The derived allowlist and the backfill *)

Section Allowlist.

Variable df : list row.
Variable make : str.
Variable threshold : Z.

Abbreviation make_trims :=
  (List.map row_trim (filter (fun r => eqb_str (row_make r) make) df)).

Lemma allowlist_In (t : str) :
  In t (get_sorted_trims_above_threshold df make threshold) <->
  In t make_trims /\ (threshold <= Z.of_nat (count_str t make_trims))%Z /\
  t <> unknown /\ (2 < length t)%nat.
Proof.
  unfold get_sorted_trims_above_threshold.
  rewrite sort_desc_In, filter_In, filter_In, in_map_iff.
  rewrite Nat.ltb_lt, negb_true_iff, eqb_str_neq. split.
  - intros [[((t' & n) & E & H) Hu] Hl]. simpl in E. subst t'.
    apply filter_In in H as [H Hn]. simpl in Hn. apply Z.leb_le in Hn.
    apply value_counts_In in H as [H ->]. tauto.
  - intros (H & Hn & Hu & Hl). split; [split|]; try assumption.
    exists (t, count_str t make_trims). split; [reflexivity|].
    apply filter_In. split; [now apply value_counts_In|].
    simpl. now apply Z.leb_le.
Qed.




End Allowlist.



(* ================================================================= *)
(** ** Rare-value suppression *)

Section Suppress.

Variable min_occurrences : Z.
Variable df : list listing.

Abbreviation keep :=
  (fun l : listing => if popular min_occurrences df (trim l) then l else set_trim unknown l).

Lemma count_kept (t : str) (rows : list listing) :
  popular min_occurrences df t = true ->
  (count_str t (List.map trim rows) <= count_str t (List.map trim (List.map keep rows)))%nat.
Proof.
  intro Hp. induction rows as [|x rows IH]; simpl; [lia|].
  destruct (eqb_str t (trim x)) eqn:E.
  - apply eqb_str_eq in E. subst t. rewrite Hp, eqb_str_refl. lia.
  - destruct (eqb_str t (trim (keep x))); lia.
Qed.

Lemma suppress_rare_floor (l : listing) :
  In l (suppress_rare min_occurrences df) ->
  trim l = unknown \/
  (min_occurrences
   <= Z.of_nat (count_str (trim l) (List.map trim (suppress_rare min_occurrences df))))%Z.
Proof.
  unfold suppress_rare. intro H. apply in_map_iff in H as (x & <- & Hx).
  destruct (popular min_occurrences df (trim x)) eqn:Hp; [right | now left].
  pose proof (count_kept (trim x) df Hp) as Hc.
  unfold popular in Hp. apply Z.leb_le in Hp. lia.
Qed.

End Suppress.

Lemma count_combined (t : str) (rows : list listing) :
  length (filter (fun l' => eqb_str (trim l') (model l' ++ u "-" ++ t))
                 (List.map combine_plain rows))
  = count_str t (List.map trim rows).
Proof.
  induction rows as [|x rows IH]; [reflexivity|].
  cbn [List.map filter count_str].
  change (trim (combine_plain x)) with (model x ++ u "-" ++ trim x).
  change (model (combine_plain x)) with (model x).
  assert (E : eqb_str (model x ++ u "-" ++ trim x) (model x ++ u "-" ++ t)
              = eqb_str t (trim x)).
  { destruct (eqb_str t (trim x)) eqn:E.
    - apply eqb_str_eq in E. subst. apply eqb_str_refl.
    - apply eqb_str_neq. apply eqb_str_neq in E. intro H. apply E.
      apply app_inv_head in H. apply app_inv_head in H. congruence. }
  rewrite E. destruct (eqb_str t (trim x)); cbn [length]; now rewrite IH.
Qed.

(** C1 (as amended).  The floor holds for the trims as they stand before the
    combination with the model name.  Without combination, every trim of the
    returned table is the sentinel or occurs at least [min_occurrences] times
    in it.  With combination, every trim is the row's model, a dash and a
    text that is the sentinel or that follows the model of at least
    [min_occurrences] rows. *)
Theorem frequency_floor_before_combination (df : list listing) (min_occurrences : Z) :
  (forall l, In l (process_trim df min_occurrences false) ->
     trim l = unknown \/
     (min_occurrences
      <= Z.of_nat (count_str (trim l)
                             (List.map trim (process_trim df min_occurrences false))))%Z) /\
  (forall l, In l (process_trim df min_occurrences true) ->
     exists t, trim l = model l ++ u "-" ++ t /\
       (t = unknown \/
        (min_occurrences
         <= Z.of_nat (length (filter (fun l' => eqb_str (trim l') (model l' ++ u "-" ++ t))
                                     (process_trim df min_occurrences true))))%Z)).
Proof.
  rewrite process_trim_combined, process_trim_uncombined.
  generalize (process_makes df). intro rows. split.
  - intros l Hl. apply suppress_rare_floor. exact Hl.
  - intros l Hl. apply in_map_iff in Hl as (x & <- & Hx).
    exists (trim x). split; [reflexivity|].
    rewrite count_combined. apply suppress_rare_floor. exact Hx.
Qed.

Lemma frequency_floor_before_combination_witness :
  exists t, u "civic-lx" = u "civic" ++ u "-" ++ t /\
    (t = unknown \/
     (5 <= Z.of_nat (length (filter (fun l' => eqb_str (trim l') (model l' ++ u "-" ++ t))
                                    (process_trim civic_and_accord 5 true))))%Z).
Proof.
  assert (H : In (mkListing (u "honda") (u "civic") (u "civic-lx") [] [] [] [])
                 (process_trim civic_and_accord 5 true)).
  { vm_compute. left. reflexivity. }
  exact (proj2 (frequency_floor_before_combination civic_and_accord 5) _ H).
Defined.

(** C1 (as stated) fails: of five Honda rows with the trim LX, three Civic
    and two Accord, the default call returns the trim "civic-lx" three times
    and "accord-lx" twice, neither of which ends in "-unknown". *)
Lemma frequency_floor_counterexample :
  let out := List.map trim (process_trim civic_and_accord 5 true) in
  ~ (forall v, In v out -> ends_with (u "-unknown") v = false ->
               (5 <= Z.of_nat (count_str v out))%Z).
Proof.
  cbv zeta. intro H. specialize (H (u "civic-lx")).
  assert (Hin : In (u "civic-lx") (List.map trim (process_trim civic_and_accord 5 true))).
  { vm_compute. left. reflexivity. }
  assert (He : ends_with (u "-unknown") (u "civic-lx") = false) by (vm_compute; reflexivity).
  specialize (H Hin He). vm_compute in H. apply H. reflexivity.
Qed.

(* ================================================================= *)
(** ** A second run *)

(** C4 (as stated) fails: five Honda Civic rows with the trim LX come back
    from the default call with the trim "civic-lx", and from a second default
    call with the trim "civic-civic-lx". *)
Lemma second_run_counterexample :
  process_trim (process_trim five_civics 5 true) 5 true <> process_trim five_civics 5 true.
Proof.
  intro H. apply (f_equal (List.map trim)) in H. vm_compute in H. discriminate.
Qed.

Lemma lower_unknown : lower unknown = unknown.
Proof. reflexivity. Qed.

Lemma on_make_id (mk : str) (f : row -> row) (df : list row) :
  (forall r, In r df -> f r = r) -> on_make mk f df = df.
Proof.
  intro H. unfold on_make. rewrite <- (map_id df) at 2.
  apply map_ext_in. intros r Hr. rewrite (H r Hr). now destruct (eqb_str _ _).
Qed.

Lemma extract_info_unknown (df : list listing) :
  (forall l, In l df -> trim l = unknown) -> extract_info_from_trim df = df.
Proof.
  intro H. unfold extract_info_from_trim.
  assert (Hu : forallb (fun upd : column * str * str =>
                          negb (contains_nocase (snd (fst upd)) unknown)) update_list = true)
    by (vm_compute; reflexivity).
  induction update_list as [|[[c s] v] ups IH]; [reflexivity|].
  simpl in Hu. apply andb_true_iff in Hu as [Hs Hu]. apply negb_true_iff in Hs.
  cbn [fold_left].
  replace (List.map (apply_update (c, s, v)) df) with df; [now apply IH|].
  rewrite <- (map_id df) at 1. apply map_ext_in. intros l Hl.
  unfold apply_update. now rewrite (H l Hl), Hs.
Qed.

Section UnknownRows.

(** Rows whose trim and backup are both the sentinel. *)
Variable df : list row.
Hypothesis all_unknown : forall r, In r df -> row_trim r = unknown /\ trim_backup r = unknown.

Lemma unknown_rows_allowlist (make : str) (threshold : Z) :
  get_sorted_trims_above_threshold df make threshold = [].
Proof.
  destruct (get_sorted_trims_above_threshold df make threshold) as [|t l] eqn:E;
    [reflexivity|].
  assert (H : In t (get_sorted_trims_above_threshold df make threshold))
    by (rewrite E; now left).
  apply allowlist_In in H as (H & _ & Hu & _).
  apply in_map_iff in H as (r & <- & Hr). apply filter_In in Hr as [Hr _].
  apply all_unknown in Hr as [Hr _]. contradiction.
Qed.

Lemma unknown_rows_call (c : call) : call_keeps_unknown c = true -> run_call df c = df.
Proof.
  unfold call_keeps_unknown, run_call, process_trim_by_make.
  destruct c as [mk mapping valid words invalid threshold]. cbn [call_make
    call_trim_correction_mapping call_valid_trims call_add_unwanted_words
    call_add_invalid_trims call_unknown_threshold].
  intro H. apply andb_true_iff in H as [H Hv]. apply andb_true_iff in H as [Hc Hm].
  apply eqb_str_eq in Hc.
  assert (Hn : normalise_make df mk mapping words invalid = df).
  { unfold normalise_make.
    rewrite (on_make_id mk _ df).
    2:{ intros r Hr. destruct (all_unknown r Hr) as [Ht _].
        rewrite Ht, Hc, <- Ht. apply row_set_trim_same. }
    assert (Hmap : match mapping with
                   | Some ((_ :: _) as mapping) =>
                     on_make mk (fun r => row_set_trim (replace_cell mapping (row_trim r)) r) df
                   | _ => df
                   end = df).
    { destruct mapping as [[|kv mapping]|]; try reflexivity.
      apply eqb_str_eq in Hm. apply on_make_id. intros r Hr.
      destruct (all_unknown r Hr) as [Ht _].
      rewrite Ht, Hm, <- Ht. apply row_set_trim_same. }
    rewrite Hmap. apply on_make_id. intros r Hr.
    destruct (all_unknown r Hr) as [Ht _].
    rewrite Ht, validate_unknown, <- Ht. apply row_set_trim_same. }
  rewrite Hn. destruct valid as [| |[|v l]]; try reflexivity.
  - rewrite unknown_rows_allowlist. apply on_make_id. intros r Hr.
    unfold update_unknown_trim. now destruct (negb _).
  - apply on_make_id. intros r Hr. destruct (all_unknown r Hr) as [Ht Hb].
    unfold update_unknown_trim. rewrite Ht, Hb. cbn [negb eqb_str_refl].
    rewrite eqb_str_refl. cbn [negb].
    apply negb_true_iff in Hv.
    destruct (find (fun trim => contains trim unknown) (v :: l)) as [t|] eqn:E;
      [|reflexivity].
    apply find_some in E as [E1 E2].
    assert (existsb (fun t => contains t unknown) (v :: l) = true)
      by (apply existsb_exists; eauto).
    congruence.
Qed.

End UnknownRows.

Lemma calls_keep_unknown : forallb call_keeps_unknown MakeRules.calls = true.
Proof. vm_compute. reflexivity. Qed.

Lemma unknown_rows_calls (calls : list call) (df : list row) :
  forallb call_keeps_unknown calls = true ->
  (forall r, In r df -> row_trim r = unknown /\ trim_backup r = unknown) ->
  fold_left run_call calls df = df.
Proof.
  intros Hc Hdf. rewrite forallb_forall in Hc.
  induction calls as [|c calls IH]; [reflexivity|].
  cbn [fold_left]. rewrite (unknown_rows_call df Hdf c (Hc c (or_introl eq_refl))).
  apply IH. intros c' Hc'. apply Hc. right. exact Hc'.
Qed.

Lemma process_makes_unknown (df : list listing) :
  (forall l, In l df -> trim l = unknown) -> process_makes df = df.
Proof.
  intro H. unfold process_makes.
  assert (E1 : List.map (fun l => set_trim (lower (trim l)) l) df = df).
  { rewrite <- (map_id df) at 2. apply map_ext_in. intros l Hl.
    rewrite (H l Hl), lower_unknown, <- (H l Hl). apply set_trim_same. }
  rewrite E1, (extract_info_unknown df H).
  rewrite unknown_rows_calls.
  - rewrite map_map. simpl. apply map_id.
  - apply calls_keep_unknown.
  - intros r Hr. apply in_map_iff in Hr as (l & <- & Hl).
    unfold row_trim. simpl. split; now apply H.
Qed.

(** C4 (as amended).  A table whose trims are all the sentinel comes back
    unchanged from [process_trim] without the combination with the model
    name, whatever [min_occurrences] is. *)
Theorem process_trim_unknown_table_fixed (df : list listing) (min_occurrences : Z) :
  (forall l, In l df -> trim l = unknown) ->
  process_trim df min_occurrences false = df.
Proof.
  intro H. rewrite process_trim_uncombined, (process_makes_unknown df H).
  unfold suppress_rare. transitivity (List.map (fun l : listing => l) df); [|apply map_id].
  apply map_ext_in. intros l Hl.
  destruct (popular _ _ _); [reflexivity|].
  rewrite <- (H l Hl). apply set_trim_same.
Qed.

Lemma process_trim_unknown_table_fixed_witness :
  process_trim unknown_lot 5 false = unknown_lot.
Proof.
  apply (process_trim_unknown_table_fixed unknown_lot 5).
  intros l Hl. unfold unknown_lot in Hl. cbn [In] in Hl.
  destruct Hl as [<-|[<-|[]]]; reflexivity.
Defined.

(* ================================================================= *)
(** ** Values that are not text *)

Lemma clean_trim_of_str (o1 o2 : pyobj) (w : option (list str)) :
  py_str o1 = py_str o2 -> clean_trim o1 w = clean_trim o2 w.
Proof. unfold clean_trim, clean_prepare. now intros ->. Qed.

(** C5 (as stated) fails: [str(None)] is "None", so [clean_trim(None)] is
    "none" and not the "nan" of [clean_trim("nan")]; and [validate_trim(None)]
    raises the TypeError of the regex search. *)
Lemma none_is_not_nan_counterexample :
  clean_trim PyNone None <> clean_trim (PyStr (u "nan")) None /\
  validate_trim_py PyNone None = Raises TypeError.
Proof.
  split; [|reflexivity]. intro H. vm_compute in H. discriminate.
Qed.

(** C5 (as amended).  [clean_trim] returns a text for every value, since it
    coerces its argument with [str]; [validate_trim] returns for every text,
    the empty one and digits included, and raises TypeError for a value that
    is not text.  [clean_trim(None)] is "none", which the validator lets
    through; it is the float NaN that is cleaned like "nan", which the
    validator turns into the sentinel. *)
Theorem totality_on_text :
  (forall o w, exists s, clean_trim o w = s) /\
  (forall s extra, validate_trim_py (PyStr s) extra = Returns (validate_trim s extra)) /\
  (forall extra, validate_trim_py PyNone extra = Raises TypeError
                 /\ validate_trim_py PyNaN extra = Raises TypeError
                 /\ forall z, validate_trim_py (PyInt z) extra = Raises TypeError) /\
  clean_trim (PyStr []) None = [] /\
  validate_trim [] None = unknown /\
  clean_trim (PyInt 2019) None = [] /\
  clean_trim (PyStr (u "350")) None = u "350" /\
  validate_trim (u "350") None = u "350" /\
  clean_trim PyNone None = u "none" /\
  validate_trim (u "none") None = u "none" /\
  (forall w, clean_trim PyNaN w = clean_trim (PyStr (u "nan")) w) /\
  clean_trim (PyStr (u "nan")) None = u "nan" /\
  validate_trim (u "nan") None = unknown.
Proof.
  split; [intros o w; eexists; reflexivity|].
  split; [reflexivity|].
  split; [intro extra; repeat split|].
  do 7 (split; [vm_compute; reflexivity|]).
  split; [intro w; now apply clean_trim_of_str|].
  split; vm_compute; reflexivity.
Qed.

(* ================================================================= *)
(** ** What the steps of the normaliser keep *)

Lemma split_ws_space (c : N) (s : str) : isspace c = true -> split_ws (c :: s) = split_ws s.
Proof. intro H. simpl. now rewrite H. Qed.

Lemma split_ws_last (c : N) : isspace c = false -> split_ws [c] = [[c]].
Proof. intro H. simpl. now rewrite H. Qed.

Lemma split_ws_word_end (c d : N) (s : str) :
  isspace c = false -> isspace d = true -> split_ws (c :: d :: s) = [c] :: split_ws s.
Proof. intros Hc Hd. simpl. now rewrite Hc, Hd. Qed.

Lemma split_ws_word (c d : N) (s : str) :
  isspace c = false -> isspace d = false ->
  exists w ws, split_ws (d :: s) = w :: ws /\ split_ws (c :: d :: s) = (c :: w) :: ws.
Proof.
  intros Hc Hd.
  assert (Hne : exists w ws, split_ws (d :: s) = w :: ws).
  { simpl. rewrite Hd. destruct s as [|e s']; [eauto|].
    destruct (isspace e); [eauto|]. destruct (split_ws (e :: s')); eauto. }
  destruct Hne as (w & ws & E). exists w, ws. split; [exact E|].
  change (split_ws (c :: d :: s))
    with (if isspace c then split_ws (d :: s)
          else if isspace d then [c] :: split_ws (d :: s)
               else match split_ws (d :: s) with
                    | w :: ws => (c :: w) :: ws
                    | [] => [[c]]
                    end).
  now rewrite Hc, Hd, E.
Qed.

Lemma join_two (sep w w' : str) (l : list str) :
  join sep (w :: w' :: l) = w ++ sep ++ join sep (w' :: l).
Proof. reflexivity. Qed.

Section Preserved.

Variable P : N -> Prop.

Lemma before_Forall (sep s : str) : Forall P s -> Forall P (before sep s).
Proof.
  induction 1 as [|c s Hc Hs IH]; simpl.
  - destruct (starts_with sep []); constructor.
  - destruct (starts_with sep (c :: s)); [constructor | now constructor].
Qed.

Lemma lstrip_by_Forall (f : N -> bool) (s : str) : Forall P s -> Forall P (lstrip_by f s).
Proof.
  induction 1 as [|c s Hc Hs IH]; simpl; [constructor|].
  destruct (f c); [assumption | now constructor].
Qed.

Lemma rstrip_by_Forall (f : N -> bool) (s : str) : Forall P s -> Forall P (rstrip_by f s).
Proof.
  induction 1 as [|c s Hc Hs IH]; simpl; [constructor|].
  destruct (rstrip_by f s) as [|d r].
  - destruct (f c); [constructor | now repeat constructor].
  - now constructor.
Qed.

Lemma strip_Forall (s : str) : Forall P s -> Forall P (strip s).
Proof. intro H. unfold strip. now apply rstrip_by_Forall, lstrip_by_Forall. Qed.

Lemma truncate_Forall (ws : list str) (s : str) :
  Forall P s -> Forall P (truncate_after_words s ws).
Proof.
  intro H. induction ws as [|w ws IH]; simpl; [assumption|].
  destruct (contains w s); [now apply strip_Forall, before_Forall | assumption].
Qed.

Lemma sub_from_Forall (m : matcher) :
  (forall prev s k r, m prev s = Some (k, r) -> Forall P r) ->
  forall s prev skip, Forall P s -> Forall P (sub_from m prev skip s).
Proof.
  intros Hm s. induction s as [|c s IH]; intros prev skip Hs; simpl; [constructor|].
  apply Forall_cons_iff in Hs as [Hc Hs].
  destruct skip as [|k]; [|now apply IH].
  destruct (m prev (c :: s)) as [[[|k] r]|] eqn:E.
  - constructor; [assumption | now apply IH].
  - apply Forall_app. split; [eapply Hm; eassumption | now apply IH].
  - constructor; [assumption | now apply IH].
Qed.

Lemma lit_Forall (old new : str) :
  Forall P new -> forall prev s k r, lit old new prev s = Some (k, r) -> Forall P r.
Proof.
  intros Hn prev s k r. unfold lit.
  destruct (starts_with old s); [|discriminate]. now intros [= _ <-].
Qed.

Lemma alt_Forall (tr : list (str * str)) :
  (forall k v, In (k, v) tr -> Forall P v) ->
  forall prev s n r, alt tr prev s = Some (n, r) -> Forall P r.
Proof.
  induction tr as [|[k v] tr IH]; intros Htr prev s n r E; [discriminate|].
  cbn [alt] in E. destruct k as [|c k].
  - eapply IH; [|exact E]. intros k' v' H. eapply Htr. right. exact H.
  - destruct (starts_with (c :: k) s).
    + injection E as _ <-. eapply Htr. left. reflexivity.
    + eapply IH; [|exact E]. intros k' v' H. eapply Htr. right. exact H.
Qed.

Lemma first_word_Forall (ws : list str) (prev : option N) (s : str) (n : nat) (r : str) :
  first_word ws prev s = Some (n, r) -> Forall P r.
Proof.
  induction ws as [|w ws IH]; [discriminate|]. cbn [first_word].
  destruct w as [|c w]; [exact IH|].
  destruct (_ && _); [|exact IH]. intros [= _ <-]. constructor.
Qed.

Lemma bounded_words_Forall (ws : list str) (prev : option N) (s : str) (n : nat) (r : str) :
  bounded_words ws prev s = Some (n, r) -> Forall P r.
Proof.
  unfold bounded_words. destruct (boundary _ _); [|discriminate]. apply first_word_Forall.
Qed.

Lemma replace_Forall (old new s : str) :
  Forall P new -> Forall P s -> Forall P (replace old new s).
Proof.
  intros Hn Hs. unfold replace. destruct old as [|c old].
  - apply Forall_app. split; [assumption|].
    induction Hs as [|d s Hd Hs IH]; simpl; [constructor|].
    constructor; [assumption|]. apply Forall_app. now split.
  - unfold sub. apply sub_from_Forall; [|assumption]. now apply lit_Forall.
Qed.

Lemma remove_complex_words_Forall (ws : list str) (s : str) :
  Forall P s -> Forall P (remove_complex_words ws s).
Proof.
  unfold remove_complex_words. revert s.
  induction ws as [|w ws IH]; intros s Hs; cbn [fold_left]; [assumption|].
  apply IH. apply replace_Forall; [constructor | assumption].
Qed.

Lemma translate_Forall (tr : list (str * str)) (s : str) :
  (forall k v, In (k, v) tr -> Forall P v) ->
  Forall P s -> Forall P (translate_string s tr).
Proof.
  intros Htr Hs. unfold translate_string, sub.
  apply sub_from_Forall; [|assumption]. now apply alt_Forall.
Qed.

Lemma clean_words_Forall (w : option (list str)) (s : str) :
  Forall P s -> Forall P (clean_words w s).
Proof.
  intro Hs. unfold clean_words, sub. apply sub_from_Forall.
  - intros prev t k r. apply bounded_words_Forall.
  - now apply remove_complex_words_Forall.
Qed.

Lemma strip_tail_Forall (s : str) : Forall P s -> Forall P (strip_tail s).
Proof.
  intro Hs. unfold strip_tail, rstrip. now repeat apply rstrip_by_Forall.
Qed.

Lemma split_ws_Forall (s : str) : Forall P s -> Forall (Forall P) (split_ws s).
Proof.
  induction 1 as [|c s Hc Hs IH]; [constructor|].
  destruct (isspace c) eqn:Ec; [now rewrite split_ws_space|].
  destruct s as [|d s']; [rewrite split_ws_last by assumption; now repeat constructor|].
  destruct (isspace d) eqn:Ed.
  - rewrite split_ws_word_end by assumption.
    rewrite split_ws_space in IH by assumption.
    constructor; [now repeat constructor | assumption].
  - destruct (@split_ws_word c d s' Ec Ed) as (w & ws & E1 & E2).
    rewrite E2. rewrite E1 in IH. apply Forall_cons_iff in IH as [Hw Hws].
    constructor; [now constructor | assumption].
Qed.

Lemma dedup_words_Forall (Q : str -> Prop) (ws seen : list str) :
  Forall Q ws -> Forall Q (dedup_words seen ws).
Proof.
  intro H. revert seen. induction H as [|w ws Hw Hws IH]; intro seen; simpl; [constructor|].
  destruct (mem_str w seen); [apply IH | constructor; [assumption | apply IH]].
Qed.

Lemma join_Forall (sep : str) (l : list str) :
  Forall P sep -> Forall (Forall P) l -> Forall P (join sep l).
Proof.
  intros Hsep Hl. induction Hl as [|w l Hw Hl IH]; [constructor|].
  destruct l as [|w' l]; [exact Hw|].
  rewrite join_two. apply Forall_app. split; [assumption|].
  apply Forall_app. now split.
Qed.

Hypothesis P_space : P 32.

Lemma collapse_Forall (s : str) (b : bool) : Forall P s -> Forall P (collapse_from b s).
Proof.
  intro Hs. revert b. induction Hs as [|c s Hc Hs IH]; intro b; simpl; [constructor|].
  destruct (isspace c).
  - destruct b; [apply IH | constructor; [exact P_space | apply IH]].
  - constructor; [assumption | apply IH].
Qed.

Lemma remove_characters_Forall (chars s : str) :
  Forall P s -> Forall P (remove_characters chars s).
Proof.
  unfold remove_characters. revert s.
  induction chars as [|c chars IH]; intros s Hs; cbn [fold_left]; [assumption|].
  apply IH. apply replace_Forall; [now constructor | assumption].
Qed.

Lemma remove_duplicate_words_Forall (s : str) :
  Forall P s -> Forall P (remove_duplicate_words s).
Proof.
  intro Hs. unfold remove_duplicate_words. apply join_Forall; [now constructor|].
  now apply dedup_words_Forall, split_ws_Forall.
Qed.

Lemma clean_finish_Forall (s : str) : Forall P s -> Forall P (clean_finish s).
Proof.
  intro Hs. unfold clean_finish, remove_extra_spaces.
  apply strip_Forall, collapse_Forall, strip_tail_Forall, remove_duplicate_words_Forall.
  now apply strip_Forall, collapse_Forall.
Qed.

End Preserved.

(* ================================================================= *)
(** ** The characters of a cleaned text *)

Lemma isupper_spec (c : N) :
  isupper c = true <-> (65 <= c <= 90 \/ 192 <= c <= 214 \/ 216 <= c <= 222).
Proof.
  unfold isupper. rewrite !orb_true_iff, !andb_true_iff, !N.leb_le. tauto.
Qed.

Lemma lower_char_not_upper (c : N) : isupper (lower_char c) = false.
Proof.
  destruct (isupper (lower_char c)) eqn:E; [|reflexivity].
  apply isupper_spec in E. unfold lower_char in E.
  destruct (isupper c) eqn:E2.
  - apply isupper_spec in E2. lia.
  - apply isupper_spec in E. congruence.
Qed.

Lemma lower_char_fixed (c : N) : isupper c = false -> lower_char c = c.
Proof. unfold lower_char. now intros ->. Qed.

Lemma lower_not_upper (s : str) : Forall (fun c => isupper c = false) (lower s).
Proof.
  unfold lower. apply Forall_forall. intros c Hc.
  apply in_map_iff in Hc as (d & <- & _). apply lower_char_not_upper.
Qed.

Lemma is_lower_Forall (s : str) : is_lower s = true <-> Forall (fun c => isupper c = false) s.
Proof.
  unfold is_lower. rewrite forallb_forall, Forall_forall.
  split; intros H c Hc; specialize (H c Hc); now apply negb_true_iff.
Qed.

Lemma lower_fixed (s : str) : is_lower s = true -> lower s = s.
Proof.
  rewrite is_lower_Forall. unfold lower. induction 1 as [|c s Hc Hs IH]; simpl; [reflexivity|].
  now rewrite IH, lower_char_fixed.
Qed.

Lemma replace_char (c : N) (new s : str) :
  replace [c] new s = flat_map (fun d => if d =? c then new else [d]) s.
Proof.
  unfold replace, sub. generalize (@None N) as prev.
  induction s as [|d s IH]; intro prev; [reflexivity|].
  cbn [sub_from flat_map]. unfold lit at 1. cbn [starts_with length].
  rewrite andb_true_r, (N.eqb_sym c d).
  destruct (d =? c); [now rewrite IH | cbn [app]; now rewrite IH].
Qed.

Lemma replace_char_absent (c : N) (new s : str) :
  Forall (fun d => (d =? c) = false) new ->
  Forall (fun d => (d =? c) = false) (replace [c] new s).
Proof.
  intro Hn. rewrite replace_char. apply Forall_flat_map, Forall_forall. intros d _.
  destruct (d =? c) eqn:E; [assumption | now repeat constructor].
Qed.

Lemma remove_characters_absent (chars : str) :
  mem_char 32 chars = false ->
  forall s, Forall (fun d => mem_char d chars = false) (remove_characters chars s).
Proof.
  induction chars as [|c chars IH]; intros H32 s.
  - apply Forall_forall. reflexivity.
  - cbn [mem_char existsb] in H32. apply orb_false_iff in H32 as [Hc H32].
    change (remove_characters (c :: chars) s)
      with (remove_characters chars (replace [c] [32] s)).
    assert (H1 : Forall (fun d => (d =? c) = false)
                        (remove_characters chars (replace [c] [32] s))).
    { apply remove_characters_Forall; [exact Hc|].
      apply replace_char_absent. now repeat constructor. }
    specialize (IH H32 (replace [c] [32] s)).
    apply Forall_forall. intros d Hd.
    rewrite Forall_forall in H1, IH.
    cbn [mem_char existsb]. fold (mem_char d chars).
    now rewrite (H1 d Hd), (IH d Hd).
Qed.

Abbreviation plain := (fun c : N => plain_char c = true).

Lemma plain_char_spec (c : N) :
  plain_char c = true <->
  isupper c = false /\ mem_char c CleanTrimTables.characters_to_remove = false
  /\ (c =? 39) = false.
Proof.
  unfold plain_char. rewrite !andb_true_iff, !negb_true_iff. tauto.
Qed.

Lemma clean_prepare_plain (o : pyobj) : Forall plain (clean_prepare o).
Proof.
  unfold clean_prepare, remove_extra_spaces.
  apply strip_Forall, collapse_Forall; [reflexivity|].
  set (s2 := truncate_after_words (lower (py_str o)) CleanTrimTables.words).
  assert (U2 : Forall (fun c => isupper c = false) s2)
    by apply truncate_Forall, lower_not_upper.
  set (s3 := remove_characters CleanTrimTables.characters_to_remove s2).
  assert (U3 : Forall (fun c => isupper c = false) s3)
    by (apply remove_characters_Forall; [reflexivity | exact U2]).
  assert (C3 : Forall (fun d => mem_char d CleanTrimTables.characters_to_remove = false) s3)
    by (apply remove_characters_absent; reflexivity).
  change (u "'") with [39].
  assert (U4 : Forall (fun c => isupper c = false) (replace [39] (u "ft") s3))
    by (apply replace_Forall; [now repeat constructor | exact U3]).
  assert (C4 : Forall (fun d => mem_char d CleanTrimTables.characters_to_remove = false)
                      (replace [39] (u "ft") s3))
    by (apply replace_Forall; [now repeat constructor | exact C3]).
  assert (A4 : Forall (fun d => (d =? 39) = false) (replace [39] (u "ft") s3))
    by (apply replace_char_absent; now repeat constructor).
  rewrite Forall_forall in *. intros c Hc. apply plain_char_spec. auto.
Qed.

Lemma translation_values_plain (k v : str) :
  In (k, v) CleanTrimTables.trim_translation_mapping -> Forall plain v.
Proof.
  assert (H : forallb (fun kv => forallb plain_char (snd kv))
                      CleanTrimTables.trim_translation_mapping = true)
    by (vm_compute; reflexivity).
  rewrite forallb_forall in H. intro Hin. specialize (H _ Hin).
  cbn [snd] in H. rewrite forallb_forall in H. now apply Forall_forall.
Qed.

Lemma clean_trim_plain (o : pyobj) (w : option (list str)) : Forall plain (clean_trim o w).
Proof.
  unfold clean_trim.
  apply clean_finish_Forall; [reflexivity|].
  apply clean_words_Forall, translate_Forall; [exact translation_values_plain|].
  apply clean_prepare_plain.
Qed.

Lemma plain_is_lower (s : str) : Forall plain s -> is_lower s = true.
Proof.
  intro H. apply is_lower_Forall. eapply Forall_impl; [|exact H].
  intros c Hc. now apply plain_char_spec in Hc.
Qed.

Lemma clean_trim_is_lower (o : pyobj) (w : option (list str)) : is_lower (clean_trim o w) = true.
Proof. apply plain_is_lower, clean_trim_plain. Qed.

(* ================================================================= *)
(** ** White space *)

Abbreviation starts_clean s :=
  (match s with
   | [] => true
   | d :: _ => negb (isspace d)
   end).

Lemma collapse_collapsed (s : str) (b : bool) :
  collapsed (collapse_from b s) = true /\
  (b = true -> starts_clean (collapse_from b s) = true).
Proof.
  revert b. induction s as [|c s IH]; intro b; [now split|].
  cbn [collapse_from]. destruct (isspace c) eqn:Ec.
  - destruct b.
    + apply IH.
    + destruct (IH true) as [H1 H2]. split; [|discriminate].
      cbn [collapsed]. rewrite H1. cbn [isspace]. change (isspace 32) with true.
      cbn iota. rewrite N.eqb_refl, andb_true_r. cbn [andb]. now apply H2.
  - destruct (IH false) as [H1 _]. split.
    + cbn [collapsed]. now rewrite Ec, H1.
    + intros _. now rewrite Ec.
Qed.

Lemma lstrip_collapsed (s : str) :
  collapsed s = true ->
  collapsed (lstrip_by isspace s) = true /\ starts_clean (lstrip_by isspace s) = true.
Proof.
  induction s as [|c s IH]; intro H; [now split|].
  cbn [lstrip_by]. destruct (isspace c) eqn:Ec.
  - apply IH. cbn [collapsed] in H. now apply andb_true_iff in H as [_ H].
  - split; [exact H | now rewrite Ec].
Qed.

Lemma rstrip_by_head (f : N -> bool) (s : str) (d : N) (r : str) :
  rstrip_by f s = d :: r -> exists s', s = d :: s'.
Proof.
  destruct s as [|c s]; [discriminate|]. cbn [rstrip_by].
  destruct (rstrip_by f s); [destruct (f c)|]; intros [= <- _]; eauto.
Qed.

Lemma rstrip_single_spaced (s : str) :
  collapsed s = true -> single_spaced (rstrip_by isspace s) = true.
Proof.
  induction s as [|c s IH]; intro H; [reflexivity|].
  cbn [collapsed] in H. apply andb_true_iff in H as [Hc Hs]. specialize (IH Hs).
  cbn [rstrip_by]. destruct (rstrip_by isspace s) as [|d r] eqn:E.
  - destruct (isspace c) eqn:Ec; [reflexivity|]. cbn [single_spaced]. now rewrite Ec.
  - cbn [single_spaced] in *. rewrite IH, andb_true_r.
    destruct (isspace c); [|reflexivity].
    apply rstrip_by_head in E as (s' & ->). exact Hc.
Qed.

Lemma strip_spaced (s : str) :
  collapsed s = true -> no_extra_whitespace (strip s) = true.
Proof.
  intro H. apply lstrip_collapsed in H as [H1 H2].
  unfold no_extra_whitespace, strip. rewrite (rstrip_single_spaced _ H1), andb_true_r.
  destruct (rstrip_by isspace (lstrip_by isspace s)) as [|d r] eqn:E; [reflexivity|].
  apply rstrip_by_head in E as (s' & E). now rewrite E in H2.
Qed.

Lemma clean_trim_spaced (o : pyobj) (w : option (list str)) :
  no_extra_whitespace (clean_trim o w) = true.
Proof.
  unfold clean_trim, clean_finish. apply strip_spaced.
  unfold remove_extra_spaces. apply collapse_collapsed.
Qed.

(** The converse direction: a text without extra white space is left as it
    is by the white-space steps. *)

Lemma single_spaced_collapsed (s : str) : single_spaced s = true -> collapsed s = true.
Proof.
  induction s as [|c s IH]; [reflexivity|]. cbn [single_spaced collapsed].
  intro H. apply andb_true_iff in H as [Hc Hs]. rewrite (IH Hs), andb_true_r.
  destruct (isspace c); [|reflexivity].
  apply andb_true_iff in Hc as [-> Hd]. destruct s; [discriminate | exact Hd].
Qed.

Lemma collapse_fixed (s : str) (b : bool) :
  collapsed s = true -> b = false \/ starts_clean s = true -> collapse_from b s = s.
Proof.
  revert b. induction s as [|c s IH]; intros b H Hb; [reflexivity|].
  cbn [collapsed] in H. apply andb_true_iff in H as [Hc Hs].
  cbn [collapse_from]. destruct (isspace c) eqn:Ec.
  - destruct Hb as [->|Hb]; [|discriminate].
    apply andb_true_iff in Hc as [Hc Hd]. apply N.eqb_eq in Hc. subst c.
    f_equal. apply IH; [exact Hs | now right].
  - f_equal. apply IH; [exact Hs | now left].
Qed.

Lemma rstrip_by_fixed (f : N -> bool) (s : str) :
  f (last s 0) = false -> rstrip_by f s = s.
Proof.
  induction s as [|c s IH]; intro H; [reflexivity|].
  cbn [rstrip_by]. destruct s as [|d s].
  - cbn [rstrip_by]. cbn [last] in H. now rewrite H.
  - rewrite IH by exact H. reflexivity.
Qed.

Lemma single_spaced_last (s : str) :
  single_spaced s = true -> isspace (last s 0) = false.
Proof.
  induction s as [|c s IH]; intro H; [reflexivity|].
  cbn [single_spaced] in H. apply andb_true_iff in H as [Hc Hs].
  destruct s as [|d s].
  - cbn [last]. destruct (isspace c); [|reflexivity].
    now apply andb_true_iff in Hc as [_ Hc].
  - now apply IH.
Qed.

Lemma strip_fixed (s : str) : no_extra_whitespace s = true -> strip s = s.
Proof.
  unfold no_extra_whitespace, strip. intro H. apply andb_true_iff in H as [Hh Hs].
  assert (E : lstrip_by isspace s = s).
  { destruct s as [|c s]; [reflexivity|]. cbn [lstrip_by].
    apply negb_true_iff in Hh. now rewrite Hh. }
  rewrite E. apply rstrip_by_fixed. now apply single_spaced_last.
Qed.

Lemma remove_extra_spaces_fixed (s : str) :
  no_extra_whitespace s = true -> remove_extra_spaces s = s.
Proof.
  unfold no_extra_whitespace, remove_extra_spaces. intro H.
  apply andb_true_iff in H as [_ Hs].
  apply collapse_fixed; [now apply single_spaced_collapsed | now left].
Qed.

Lemma join_cons_head (sep : str) (c : N) (w : str) (ws : list str) :
  join sep ((c :: w) :: ws) = c :: join sep (w :: ws).
Proof. destruct ws; reflexivity. Qed.

Lemma join_split_ws (s : str) :
  single_spaced s = true ->
  join [32] (split_ws s)
  = match s with
    | [] => []
    | c :: s' => if isspace c then s' else s
    end.
Proof.
  induction s as [|c s IH]; intro H; [reflexivity|].
  cbn [single_spaced] in H. apply andb_true_iff in H as [Hc Hs]. specialize (IH Hs).
  destruct (isspace c) eqn:Ec.
  - rewrite split_ws_space by exact Ec.
    apply andb_true_iff in Hc as [_ Hd]. destruct s as [|d s]; [discriminate|].
    apply negb_true_iff in Hd. now rewrite Hd in IH.
  - destruct s as [|d s]; [now rewrite split_ws_last|].
    destruct (isspace d) eqn:Ed.
    + rewrite split_ws_word_end by assumption.
      rewrite split_ws_space in IH by exact Ed.
      cbn [single_spaced] in Hs. rewrite Ed in Hs.
      apply andb_true_iff in Hs as [Hd _]. apply andb_true_iff in Hd as [Hd He].
      apply N.eqb_eq in Hd. subst d.
      destruct s as [|e s]; [discriminate|].
      destruct (split_ws (e :: s)) as [|w ws]; [discriminate|].
      rewrite join_two, IH. reflexivity.
    + destruct (@split_ws_word c d s Ec Ed) as (w & ws & E1 & E2).
      rewrite E2, join_cons_head. rewrite E1 in IH. now rewrite IH.
Qed.

Lemma dedup_words_fixed (ws seen : list str) :
  distinct_words ws = true -> (forall w, In w ws -> ~ In w seen) ->
  dedup_words seen ws = ws.
Proof.
  revert seen. induction ws as [|w ws IH]; intros seen Hd Hs; [reflexivity|].
  cbn [distinct_words] in Hd. apply andb_true_iff in Hd as [Hw Hd].
  apply negb_true_iff in Hw.
  cbn [dedup_words].
  assert (Hm : mem_str w seen = false).
  { destruct (mem_str w seen) eqn:E; [|reflexivity].
    apply mem_str_In in E. exfalso. apply (Hs w); [now left | exact E]. }
  rewrite Hm. f_equal. apply IH; [exact Hd|].
  intros w' Hw' [->|Hin].
  - apply mem_str_In in Hw'. congruence.
  - apply (Hs w'); [now right | exact Hin].
Qed.

Lemma remove_duplicate_words_fixed (s : str) :
  no_extra_whitespace s = true -> distinct_words (split_ws s) = true ->
  remove_duplicate_words s = s.
Proof.
  intros H Hd. unfold remove_duplicate_words.
  rewrite dedup_words_fixed by (auto; intros w _ []).
  unfold no_extra_whitespace in H. apply andb_true_iff in H as [Hh Hs].
  rewrite join_split_ws by exact Hs.
  destruct s as [|c s]; [reflexivity|].
  apply negb_true_iff in Hh. now rewrite Hh.
Qed.

(* ================================================================= *)
(** ** Texts on which no pattern matches *)

Lemma contains_cons (p : str) (c : N) (s : str) :
  contains p (c :: s) = starts_with p (c :: s) || contains p s.
Proof. reflexivity. Qed.

Lemma contains_tail (p : str) (c : N) (s : str) :
  contains p (c :: s) = false -> contains p s = false.
Proof. rewrite contains_cons. intro H. now apply orb_false_iff in H. Qed.

Lemma contains_start (p s : str) : contains p s = false -> starts_with p s = false.
Proof.
  destruct s as [|c s]; cbn [contains]; intro H; now apply orb_false_iff in H.
Qed.

Lemma sub_from_fixed (m : matcher) (s : str) (prev : option N) :
  matches_somewhere m prev s = false -> sub_from m prev 0 s = s.
Proof.
  revert prev. induction s as [|c s IH]; intros prev H; [reflexivity|].
  cbn [matches_somewhere] in H. apply orb_false_iff in H as [H1 H2].
  cbn [sub_from].
  destruct (m prev (c :: s)) as [[[|k] r]|]; try discriminate; f_equal; now apply IH.
Qed.

Lemma lit_never (old new s : str) (prev : option N) :
  contains old s = false -> matches_somewhere (lit old new) prev s = false.
Proof.
  revert prev. induction s as [|c s IH]; intros prev H.
  - cbn [matches_somewhere]. unfold lit. now rewrite (contains_start _ _ H).
  - cbn [matches_somewhere]. unfold lit at 1. rewrite (contains_start _ _ H).
    cbn [orb]. apply IH. now apply contains_tail in H.
Qed.

Lemma replace_fixed (old new s : str) : contains old s = false -> replace old new s = s.
Proof.
  intro H. unfold replace. destruct old as [|c old].
  - destruct s; discriminate.
  - unfold sub. now apply sub_from_fixed, lit_never.
Qed.

Lemma alt_some (tr : list (str * str)) (prev : option N) (s : str) (n : nat) (v : str) :
  alt tr prev s = Some (n, v) -> exists k, In (k, v) tr /\ starts_with k s = true.
Proof.
  induction tr as [|[k v'] tr IH]; [discriminate|]. cbn [alt].
  assert (Hrest : alt tr prev s = Some (n, v) ->
                  exists k0, In (k0, v) ((k, v') :: tr) /\ starts_with k0 s = true).
  { intro E. destruct (IH E) as (k0 & Hin & Hs). exists k0. split; [now right | exact Hs]. }
  destruct k as [|c k]; [exact Hrest|].
  destruct (starts_with (c :: k) s) eqn:E; [|exact Hrest].
  intros [= _ <-]. exists (c :: k). split; [now left | exact E].
Qed.

Lemma alt_never (tr : list (str * str)) (s : str) (prev : option N) :
  forallb (fun kv => negb (contains (fst kv) s)) tr = true ->
  matches_somewhere (alt tr) prev s = false.
Proof.
  revert prev. induction s as [|c s IH]; intros prev H.
  - cbn [matches_somewhere]. destruct (alt tr prev []) as [[[|n] v]|] eqn:E; try reflexivity.
    apply alt_some in E as (k & Hin & Hs). rewrite forallb_forall in H.
    specialize (H _ Hin). cbn [fst] in H. apply negb_true_iff, contains_start in H. congruence.
  - cbn [matches_somewhere]. apply orb_false_iff. split.
    + destruct (alt tr prev (c :: s)) as [[[|n] v]|] eqn:E; try reflexivity.
      apply alt_some in E as (k & Hin & Hs). rewrite forallb_forall in H.
      specialize (H _ Hin). cbn [fst] in H. apply negb_true_iff, contains_start in H.
      congruence.
    + apply IH. rewrite forallb_forall in *. intros kv Hin. specialize (H kv Hin).
      apply negb_true_iff in H. apply negb_true_iff. now apply contains_tail in H.
Qed.

Lemma truncate_fixed (ws : list str) (s : str) :
  forallb (fun w => negb (contains w s)) ws = true -> truncate_after_words s ws = s.
Proof.
  induction ws as [|w ws IH]; [reflexivity|]. cbn [forallb truncate_after_words].
  intro H. apply andb_true_iff in H as [Hw H]. apply negb_true_iff in Hw.
  rewrite Hw. now apply IH.
Qed.

Lemma contains_char (c : N) (s : str) :
  Forall (fun d => (d =? c) = false) s -> contains [c] s = false.
Proof.
  induction 1 as [|d s Hd Hs IH]; [reflexivity|].
  rewrite contains_cons, IH. cbn [starts_with]. now rewrite N.eqb_sym, Hd.
Qed.

Lemma remove_characters_fixed (chars s : str) :
  Forall (fun d => mem_char d chars = false) s -> remove_characters chars s = s.
Proof.
  induction chars as [|c chars IH]; intro H; [reflexivity|].
  change (remove_characters (c :: chars) s)
    with (remove_characters chars (replace [c] [32] s)).
  assert (Hc : Forall (fun d => (d =? c) = false) s /\
               Forall (fun d => mem_char d chars = false) s).
  { split; eapply Forall_impl; try exact H; intros d Hd;
      cbn [mem_char existsb] in Hd; apply orb_false_iff in Hd; tauto. }
  destruct Hc as [Hc Hcs].
  rewrite replace_fixed by now apply contains_char. now apply IH.
Qed.

Lemma remove_complex_words_fixed (ws : list str) (s : str) :
  forallb (fun w => negb (contains w s)) ws = true -> remove_complex_words ws s = s.
Proof.
  unfold remove_complex_words.
  induction ws as [|w ws IH]; [reflexivity|]. cbn [forallb fold_left].
  intro H. apply andb_true_iff in H as [Hw H]. apply negb_true_iff in Hw.
  rewrite replace_fixed by exact Hw. now apply IH.
Qed.

Lemma strip_tail_fixed (s : str) :
  mem_char (last s 0) (u "-. w&") = false -> strip_tail s = s.
Proof.
  change (u "-. w&") with [45; 46; 32; 119; 38].
  cbn [mem_char existsb]. intro H.
  repeat (apply orb_false_iff in H; destruct H as [? H]).
  unfold strip_tail, rstrip.
  change (u "-") with [45]. change (u ".") with [46]. change (u " w") with [32; 119].
  change (u " w-") with [32; 119; 45]. change (u " &") with [32; 38].
  assert (E : forall chars, mem_char (last s 0) chars = false ->
                            rstrip_by (fun c => mem_char c chars) s = s)
    by (intros chars Hc; now apply rstrip_by_fixed).
  rewrite !E; [reflexivity| | | | |]; cbn [mem_char existsb];
    repeat match goal with Hc : (_ =? _) = false |- _ => rewrite Hc; clear Hc end;
    reflexivity.
Qed.

Lemma clean_trim_fixed (y : str) :
  Forall plain y -> no_extra_whitespace y = true -> settled y = true ->
  clean_trim (PyStr y) None = y.
Proof.
  intros Hp Hw Hs. unfold settled in Hs.
  do 5 (apply andb_true_iff in Hs; destruct Hs as [Hs ?]).
  assert (E1 : clean_prepare (PyStr y) = y).
  { unfold clean_prepare. cbn [py_str].
    rewrite lower_fixed by now apply plain_is_lower.
    rewrite truncate_fixed by exact Hs.
    rewrite remove_characters_fixed
      by (eapply Forall_impl; [|exact Hp]; intros c Hc; now apply plain_char_spec in Hc).
    change (u "'") with [39].
    rewrite replace_fixed
      by (apply contains_char; eapply Forall_impl; [|exact Hp];
          intros c Hc; now apply plain_char_spec in Hc).
    rewrite remove_extra_spaces_fixed by exact Hw. now apply strip_fixed. }
  assert (E2 : translate_string y CleanTrimTables.trim_translation_mapping = y).
  { unfold translate_string, sub. now apply sub_from_fixed, alt_never. }
  assert (E3 : clean_words None y = y).
  { unfold clean_words. rewrite app_nil_r.
    rewrite remove_complex_words_fixed by assumption.
    unfold sub. apply sub_from_fixed. now apply negb_true_iff. }
  assert (E4 : clean_finish y = y).
  { unfold clean_finish.
    rewrite (@remove_extra_spaces_fixed y Hw), (@strip_fixed y Hw).
    rewrite remove_duplicate_words_fixed by assumption.
    rewrite strip_tail_fixed by now apply negb_true_iff.
    rewrite (@remove_extra_spaces_fixed y Hw). now apply strip_fixed. }
  unfold clean_trim. now rewrite E1, E2, E3, E4.
Qed.

(** C3 (as stated) fails: "4 new door" is cleaned to "4 door", which is
    itself an unwanted phrase and is cleaned to the empty text. *)
Lemma clean_trim_not_idempotent_counterexample :
  clean_trim (PyStr (u "4 new door")) None = u "4 door" /\
  clean_trim (PyStr (u "4 door")) None = [] /\
  clean_trim (PyStr (clean_trim (PyStr (u "4 new door")) None)) None
  <> clean_trim (PyStr (u "4 new door")) None.
Proof.
  split; [vm_compute; reflexivity|]. split; [vm_compute; reflexivity|].
  intro H. vm_compute in H. discriminate.
Qed.

(** C3 (as amended).  Cleaning a cleaned text changes nothing further when
    the cleaned text is settled: it holds no truncation word, no translation
    key, no complex phrase, no unwanted word between word boundaries, no
    word twice and no strippable last character.  The statement is for
    [latin1] text, the range of the case and word tables. *)
Theorem clean_trim_idempotent_when_settled (x : str) :
  latin1 x ->
  settled (clean_trim (PyStr x) None) = true ->
  clean_trim (PyStr (clean_trim (PyStr x) None)) None = clean_trim (PyStr x) None.
Proof.
  intros _ H. apply clean_trim_fixed.
  - apply clean_trim_plain.
  - apply clean_trim_spaced.
  - exact H.
Qed.

Lemma clean_trim_idempotent_when_settled_witness :
  clean_trim (PyStr (clean_trim (PyStr (u "Limited")) None)) None
  = clean_trim (PyStr (u "Limited")) None.
Proof.
  apply (@clean_trim_idempotent_when_settled (u "Limited")).
  - vm_compute. reflexivity.
  - vm_compute. reflexivity.
Defined.

(* ================================================================= *)
(** ** Lower case through the pipeline *)

Lemma is_lower_app (a b : str) : is_lower (a ++ b) = is_lower a && is_lower b.
Proof. unfold is_lower. apply forallb_app. Qed.

Lemma is_lower_lower (s : str) : is_lower (lower s) = true.
Proof. apply is_lower_Forall, lower_not_upper. Qed.

Lemma dict_get_In (d : list (str * str)) (k v : str) :
  dict_get d k = Some v -> exists k', In (k', v) d.
Proof.
  induction d as [|[k' v'] d IH]; [discriminate|]. cbn [dict_get].
  destruct (dict_get d k) as [v0|].
  - intros [= <-]. destruct IH as (k0 & H); [reflexivity|]. exists k0. now right.
  - destruct (eqb_str k k'); [|discriminate]. intros [= <-]. exists k'. now left.
Qed.

Lemma validate_trim_cases (t : str) (extra : option (list str)) :
  validate_trim t extra = unknown \/ validate_trim t extra = t.
Proof.
  unfold validate_trim. destruct (mem_str t _); [now left|].
  destruct (check_redflag_words_in_string t); [now left | now right].
Qed.

Section LowerCase.

(** A property of the model column, which the pipeline never writes. *)
Variable M : str -> Prop.

Abbreviation good := (fun l : listing => is_lower (trim l) = true /\ M (model l)).
Abbreviation good_row := (fun r : row => good (cols r)).

Lemma good_set_trim (t : str) (l : listing) : is_lower t = true -> good l -> good (set_trim t l).
Proof. intros Ht [_ Hm]. split; [exact Ht | exact Hm]. Qed.

Lemma good_apply_update (upd : column * str * str) (l : listing) :
  good l -> good (apply_update upd l).
Proof.
  destruct upd as [[c s] v]. unfold apply_update.
  destruct (contains_nocase s (trim l)); [|trivial]. now destruct c.
Qed.

Lemma good_extract_info (df : list listing) :
  Forall good df -> Forall good (extract_info_from_trim df).
Proof.
  unfold extract_info_from_trim. revert df.
  induction update_list as [|upd ups IH]; intros df H; cbn [fold_left]; [exact H|].
  apply IH. apply Forall_map. eapply Forall_impl; [|exact H].
  intro l. apply good_apply_update.
Qed.

Lemma on_make_good (mk : str) (f : row -> row) (df : list row) :
  (forall r, In r df -> good_row r -> good_row (f r)) ->
  Forall good_row df -> Forall good_row (on_make mk f df).
Proof.
  intros Hf H. unfold on_make. apply Forall_map.
  rewrite Forall_forall in *. intros r Hr.
  destruct (eqb_str (row_make r) mk); [apply Hf|]; auto.
Qed.

Lemma good_row_set_trim (t : str) (r : row) :
  is_lower t = true -> good_row r -> good_row (row_set_trim t r).
Proof. intros Ht H. unfold row_set_trim. cbn [cols]. now apply good_set_trim. Qed.

Lemma update_unknown_trim_good (r : row) (valid_trims : list str) :
  (forall t, In t valid_trims -> is_lower t = true) ->
  good_row r -> good_row (update_unknown_trim r valid_trims).
Proof.
  intros Hv H. unfold update_unknown_trim.
  destruct (negb _); [exact H|].
  destruct (find _ valid_trims) as [[|c t]|] eqn:E; try exact H.
  apply find_some in E as [E _]. now apply good_row_set_trim; [apply Hv|].
Qed.

Lemma normalise_make_good df mk mapping words invalid :
  match mapping with
  | Some m => forallb (fun kv => is_lower (snd kv)) m = true
  | None => True
  end ->
  Forall good_row df -> Forall good_row (normalise_make df mk mapping words invalid).
Proof.
  intros Hm H. unfold normalise_make.
  apply on_make_good.
  - intros r _ Hr. destruct (validate_trim_cases (row_trim r) invalid) as [-> | ->].
    + now apply good_row_set_trim.
    + rewrite row_set_trim_same. exact Hr.
  - assert (H1 : Forall good_row
                   (on_make mk (fun r => row_set_trim
                                           (clean_trim (PyStr (row_trim r)) words) r) df)).
    { apply on_make_good; [|exact H]. intros r _ Hr.
      apply good_row_set_trim; [apply clean_trim_is_lower | exact Hr]. }
    destruct mapping as [[|kv m]|]; try exact H1.
    apply on_make_good; [|exact H1]. intros r _ Hr.
    unfold replace_cell. destruct (dict_get (kv :: m) (row_trim r)) as [v|] eqn:E.
    + apply good_row_set_trim; [|exact Hr].
      apply dict_get_In in E as (k' & Hin). rewrite forallb_forall in Hm.
      exact (Hm _ Hin).
    + rewrite row_set_trim_same. exact Hr.
Qed.

Lemma run_call_good (c : call) (df : list row) :
  call_is_lower c = true -> Forall good_row df -> Forall good_row (run_call df c).
Proof.
  unfold call_is_lower, run_call, process_trim_by_make.
  destruct c as [mk mapping valid words invalid threshold]. cbn [call_make
    call_trim_correction_mapping call_valid_trims call_add_unwanted_words
    call_add_invalid_trims call_unknown_threshold].
  intros Hc H. apply andb_true_iff in Hc as [Hm Hv].
  assert (Hn : Forall good_row (normalise_make df mk mapping words invalid)).
  { apply normalise_make_good; [|exact H]. destruct mapping; [exact Hm | exact I]. }
  destruct valid as [| |[|v l]]; try exact Hn.
  - apply on_make_good; [|exact Hn]. intros r _ Hr.
    apply update_unknown_trim_good; [|exact Hr].
    intros t Ht. apply allowlist_In in Ht as [Ht _].
    apply in_map_iff in Ht as (r' & <- & Hr'). apply filter_In in Hr' as [Hr' _].
    rewrite Forall_forall in Hn. now apply Hn in Hr'.
  - apply on_make_good; [|exact Hn]. intros r _ Hr.
    apply update_unknown_trim_good; [|exact Hr].
    intros t Ht. rewrite forallb_forall in Hv. now apply Hv.
Qed.

Lemma run_calls_good (calls : list call) (df : list row) :
  forallb call_is_lower calls = true ->
  Forall good_row df -> Forall good_row (fold_left run_call calls df).
Proof.
  intro Hc. rewrite forallb_forall in Hc. revert df.
  induction calls as [|c calls IH]; intros df H; [exact H|].
  cbn [fold_left]. apply IH.
  - intros c' Hc'. apply Hc. right. exact Hc'.
  - apply run_call_good; [apply Hc; left; reflexivity | exact H].
Qed.

Lemma process_makes_good (df : list listing) :
  Forall (fun l => M (model l)) df -> Forall good (process_makes df).
Proof.
  intro H. unfold process_makes.
  assert (H1 : Forall good (List.map (fun l => set_trim (lower (trim l)) l) df)).
  { apply Forall_map. eapply Forall_impl; [|exact H]. intros l Hl.
    split; [apply is_lower_lower | exact Hl]. }
  apply good_extract_info in H1.
  assert (H2 : Forall good_row
                 (List.map (fun l => mkRow l (trim l))
                           (extract_info_from_trim
                              (List.map (fun l => set_trim (lower (trim l)) l) df))))
    by (apply Forall_map; exact H1).
  apply (run_calls_good MakeRules.calls) in H2; [|vm_compute; reflexivity].
  apply Forall_map. exact H2.
Qed.

Lemma suppress_rare_good (min_occurrences : Z) (df : list listing) :
  Forall good df -> Forall good (suppress_rare min_occurrences df).
Proof.
  intro H. unfold suppress_rare. apply Forall_map.
  eapply Forall_impl; [|exact H]. intros l Hl.
  destruct (popular _ _ _); [exact Hl | now apply good_set_trim].
Qed.

End LowerCase.

Lemma process_trim_lower_uncombined (df : list listing) (min_occurrences : Z) (l : listing) :
  In l (process_trim df min_occurrences false) -> is_lower (trim l) = true.
Proof.
  rewrite process_trim_uncombined. intro H.
  assert (G : Forall (fun l => is_lower (trim l) = true /\ True)
                     (suppress_rare min_occurrences (process_makes df))).
  { apply (@suppress_rare_good (fun _ : str => True)).
    apply (@process_makes_good (fun _ : str => True)).
    apply Forall_forall. intros; exact I. }
  rewrite Forall_forall in G. exact (proj1 (G l H)).
Qed.

Lemma process_trim_lower_combined (df : list listing) (min_occurrences : Z) (l : listing) :
  (forall l', In l' df -> is_lower (model l') = true) ->
  In l (process_trim df min_occurrences true) -> is_lower (trim l) = true.
Proof.
  rewrite process_trim_combined. intros Hm H.
  assert (G : Forall (fun l => is_lower (trim l) = true /\ is_lower (model l) = true)
                     (suppress_rare min_occurrences (process_makes df))).
  { apply (@suppress_rare_good (fun m : str => is_lower m = true)).
    apply (@process_makes_good (fun m : str => is_lower m = true)).
    apply Forall_forall. exact Hm. }
  rewrite Forall_forall in G. apply in_map_iff in H as (x & <- & Hx).
  apply G in Hx as [Ht Hmx]. unfold combine_plain. rewrite trim_set_trim.
  rewrite !is_lower_app, Ht, Hmx. reflexivity.
Qed.

(** C2 (as stated) fails.  Of five BMW rows with the trim "Conv", five Honda
    rows with "Sport Sport-" and five Jaguar rows with " R-Sport  AWD", the
    default call returns "z4-convertible" (the correction map brings back
    the unwanted word "convertible") and "f-pace- r-sport  awd" (no call
    cleans the make jaguar); without the combination the Honda rows come
    back as "sport sport" (the word is repeated once the dash is
    stripped). *)
Lemma trims_not_normalised_counterexample :
  mem_str (u "z4-convertible") (List.map trim (process_trim mixed_lot 5 true)) = true /\
  mem_str (u "convertible") CleanTrimTables.simple_words_to_remove = true /\
  contains (u "convertible") (u "z4-convertible") = true /\
  mem_str (u "f-pace- r-sport  awd") (List.map trim (process_trim mixed_lot 5 true)) = true /\
  no_extra_whitespace (u "f-pace- r-sport  awd") = false /\
  mem_str (u "sport sport") (List.map trim (process_trim mixed_lot 5 false)) = true /\
  repeats_leading_word (u "sport sport") = true.
Proof. repeat split; vm_compute; reflexivity. Qed.

(** C2 (as amended).  After the pipeline every trim is lower-case: always
    without the combination, and with it when the models are lower-case.
    The text returned by [clean_trim] is lower-case and has no leading,
    trailing or repeated white space.  The statement is for [latin1] text,
    the range of the case and word tables. *)
Theorem trims_lowercase_cleaned_text_spaced :
  (forall df min_occurrences,
      (forall l, In l df -> latin1 (trim l)) ->
      forall l, In l (process_trim df min_occurrences false) -> is_lower (trim l) = true) /\
  (forall df min_occurrences,
      (forall l, In l df -> latin1 (trim l) /\ latin1 (model l) /\ is_lower (model l) = true) ->
      forall l, In l (process_trim df min_occurrences true) -> is_lower (trim l) = true) /\
  (forall o w, latin1 (py_str o) ->
               is_lower (clean_trim o w) = true /\ no_extra_whitespace (clean_trim o w) = true).
Proof.
  split; [|split].
  - intros df m _ l. apply process_trim_lower_uncombined.
  - intros df m H l. apply process_trim_lower_combined. intros l' Hl'. now apply H.
  - intros o w _. split; [apply clean_trim_is_lower | apply clean_trim_spaced].
Qed.

Lemma trims_lowercase_cleaned_text_spaced_witness :
  (forall l, In l (process_trim mixed_lot 5 true) -> is_lower (trim l) = true) /\
  no_extra_whitespace (clean_trim (PyStr (u " R-Sport  AWD")) None) = true.
Proof.
  destruct trims_lowercase_cleaned_text_spaced as (_ & H2 & H3). split.
  - apply (H2 mixed_lot 5%Z). intros l Hl. unfold mixed_lot in Hl. cbn [repeat app In] in Hl.
    repeat (destruct Hl as [<-|Hl]; [repeat split; vm_compute; reflexivity|]).
    contradiction.
  - apply (H3 (PyStr (u " R-Sport  AWD")) None). vm_compute. reflexivity.
Defined.

(* ================================================================= *)
(** ** The space and word helpers *)

Lemma split_ws_cons_word (c : N) (s : str) :
  isspace c = false ->
  split_ws (c :: s)
  = match s with
    | [] => [[c]]
    | d :: _ =>
      if isspace d then [c] :: split_ws s
      else match split_ws s with
           | w :: ws => (c :: w) :: ws
           | [] => [[c]]
           end
    end.
Proof.
  intros Ec. cbn [split_ws]. rewrite Ec. destruct s; reflexivity.
Qed.




Lemma is_token_cons (c : N) (w : str) :
  is_token (c :: w) = true <-> isspace c = false /\ (w = [] \/ is_token w = true).
Proof.
  cbn [is_token forallb]. rewrite andb_true_iff, negb_true_iff. split.
  - intros [Hc Hw]. split; [exact Hc|]. destruct w as [|d w]; [left; reflexivity|right; exact Hw].
  - intros [Hc [->|Hw]]; split; try exact Hc; [reflexivity|].
    destruct w; [discriminate|exact Hw].
Qed.

Lemma split_ws_tokens (s : str) : Forall (fun w => is_token w = true) (split_ws s).
Proof.
  induction s as [|c s IH]; [constructor|].
  destruct (isspace c) eqn:Ec; [rewrite (split_ws_space c s Ec); exact IH|].
  rewrite (split_ws_cons_word c s Ec).
  assert (H1 : is_token [c] = true) by (apply is_token_cons; split; [exact Ec|left; reflexivity]).
  destruct s as [|d s']; [constructor; [exact H1|constructor]|].
  destruct (isspace d); [constructor; [exact H1|exact IH]|].
  destruct (split_ws (d :: s')) as [|w ws]; [constructor; [exact H1|constructor]|].
  inversion IH as [|? ? Hw Hws]; subst. constructor; [|exact Hws].
  apply is_token_cons. split; [exact Ec|right; exact Hw].
Qed.

Lemma split_ws_token_app (w rest : str) :
  is_token w = true -> split_ws (w ++ 32 :: rest) = w :: split_ws rest.
Proof.
  induction w as [|c w IH]; [discriminate|]. intros H.
  apply is_token_cons in H. destruct H as [Ec Hw].
  rewrite <- app_comm_cons. rewrite (split_ws_cons_word c _ Ec).
  destruct w as [|d w'].
  - cbn [app]. change (isspace 32) with true. cbv iota.
    rewrite (split_ws_space 32 rest eq_refl). reflexivity.
  - destruct Hw as [Hw|Hw]; [discriminate|].
    rewrite (IH Hw). rewrite <- app_comm_cons.
    apply is_token_cons in Hw. rewrite (proj1 Hw). reflexivity.
Qed.

Lemma split_ws_token (w : str) : is_token w = true -> split_ws w = [w].
Proof.
  induction w as [|c w IH]; [discriminate|]. intros H.
  apply is_token_cons in H. destruct H as [Ec Hw].
  rewrite (split_ws_cons_word c _ Ec).
  destruct w as [|d w']; [reflexivity|].
  destruct Hw as [Hw|Hw]; [discriminate|].
  rewrite (IH Hw). apply is_token_cons in Hw. rewrite (proj1 Hw). reflexivity.
Qed.

Lemma split_ws_join (ws : list str) :
  Forall (fun w => is_token w = true) ws -> split_ws (join [32] ws) = ws.
Proof.
  induction ws as [|w ws IH]; [reflexivity|]. intros H.
  inversion H as [|? ? Hw Hws]; subst.
  destruct ws as [|w' ws']; [exact (split_ws_token w Hw)|].
  rewrite join_two. change ([32] ++ join [32] (w' :: ws')) with (32 :: join [32] (w' :: ws')).
  rewrite (split_ws_token_app w _ Hw). rewrite (IH Hws). reflexivity.
Qed.

Lemma dedup_words_In (ws seen : list str) (w : str) :
  In w (dedup_words seen ws) <-> In w ws /\ ~ In w seen.
Proof.
  revert seen. induction ws as [|x ws IH]; intros seen; cbn [dedup_words In].
  - tauto.
  - destruct (mem_str x seen) eqn:E.
    + apply mem_str_In in E. rewrite IH. split.
      * intros [H1 H2]. split; [right; exact H1|exact H2].
      * intros [[->|H1] H2]; [contradiction|split; assumption].
    + assert (Hx : ~ In x seen).
      { intros Hin. apply mem_str_In in Hin. rewrite Hin in E. discriminate. }
      cbn [In]. rewrite IH. cbn [In]. split.
      * intros [->|[H1 H2]]; [split; [left; reflexivity|exact Hx]|].
        split; [right; exact H1|]. intros H3. apply H2. right. exact H3.
      * intros [[->|H1] H2]; [left; reflexivity|].
        destruct (list_eq_dec N.eq_dec x w) as [->|Hne]; [left; reflexivity|].
        right. split; [exact H1|]. intros [H3|H3]; [exact (Hne H3)|exact (H2 H3)].
Qed.

Lemma dedup_words_distinct (ws seen : list str) : distinct_words (dedup_words seen ws) = true.
Proof.
  revert seen. induction ws as [|x ws IH]; intros seen; cbn [dedup_words]; [reflexivity|].
  destruct (mem_str x seen); [apply IH|].
  cbn [distinct_words]. rewrite IH, andb_true_r. apply negb_true_iff.
  destruct (mem_str x (dedup_words (x :: seen) ws)) eqn:E; [|reflexivity].
  apply mem_str_In in E. apply dedup_words_In in E. destruct E as [_ E].
  exfalso. apply E. left. reflexivity.
Qed.

Lemma distinct_words_NoDup (ws : list str) : distinct_words ws = true -> NoDup ws.
Proof.
  induction ws as [|x ws IH]; [constructor|]. cbn [distinct_words].
  rewrite andb_true_iff, negb_true_iff. intros [H1 H2]. constructor; [|exact (IH H2)].
  intros Hin. apply mem_str_In in Hin. rewrite Hin in H1. discriminate.
Qed.

Lemma dedup_words_hd (ws : list str) : hd_error (dedup_words [] ws) = hd_error ws.
Proof. destruct ws; reflexivity. Qed.

Lemma split_ws_dedup (s : str) :
  split_ws (remove_duplicate_words s) = dedup_words [] (split_ws s).
Proof.
  unfold remove_duplicate_words. apply split_ws_join.
  apply dedup_words_Forall. apply split_ws_tokens.
Qed.

(** X2.  [remove_duplicate_words] keeps the first occurrence of every word
    and drops the later ones: the words of the result are pairwise
    different, they are exactly the words that occur in the input, the first
    word stays first, and a second pass changes nothing. *)
Theorem remove_duplicate_words_keeps_first (s : str) :
  split_ws (remove_duplicate_words s) = dedup_words [] (split_ws s)
  /\ NoDup (split_ws (remove_duplicate_words s))
  /\ (forall w, In w (split_ws (remove_duplicate_words s)) <-> In w (split_ws s))
  /\ hd_error (split_ws (remove_duplicate_words s)) = hd_error (split_ws s)
  /\ remove_duplicate_words (remove_duplicate_words s) = remove_duplicate_words s.
Proof.
  rewrite split_ws_dedup. repeat split.
  - apply distinct_words_NoDup. apply dedup_words_distinct.
  - intros H. apply dedup_words_In in H. exact (proj1 H).
  - intros H. apply dedup_words_In. split; [exact H|intros []].
  - apply dedup_words_hd.
  - unfold remove_duplicate_words at 1. rewrite split_ws_dedup.
    rewrite dedup_words_fixed; [reflexivity|apply dedup_words_distinct|intros w _ []].
Qed.

(* ================================================================= *)
(** ** [remove_second_occurrence] and [correct_string] *)

Lemma split_char_cons (s : str) : exists w ws, split_char 32 s = w :: ws.
Proof.
  destruct s as [|c s]; [exists [], []; reflexivity|].
  cbn [split_char]. destruct (c =? 32); [eexists; eexists; reflexivity|].
  destruct (split_char 32 s); eexists; eexists; reflexivity.
Qed.

Lemma split_char_fields (s : str) : Forall (fun w => is_field w = true) (split_char 32 s).
Proof.
  induction s as [|c s IH]; [repeat constructor|].
  cbn [split_char]. destruct (c =? 32) eqn:Ec; [constructor; [reflexivity|exact IH]|].
  destruct (split_char 32 s) as [|w ws].
  - constructor; [|constructor]. unfold is_field. cbn [forallb]. rewrite Ec. reflexivity.
  - inversion IH as [|? ? Hw Hws]; subst. constructor; [|exact Hws].
    unfold is_field in *. cbn [forallb]. rewrite Ec, Hw. reflexivity.
Qed.

Lemma join_split_char (s : str) : join [32] (split_char 32 s) = s.
Proof.
  induction s as [|c s IH]; [reflexivity|].
  cbn [split_char]. destruct (split_char_cons s) as (w & ws & E). rewrite E in *.
  destruct (c =? 32) eqn:Ec.
  - apply N.eqb_eq in Ec. subst c. rewrite join_two, IH. reflexivity.
  - rewrite join_cons_head, IH. reflexivity.
Qed.

Lemma split_char_field_app (w rest : str) :
  is_field w = true -> split_char 32 (w ++ 32 :: rest) = w :: split_char 32 rest.
Proof.
  unfold is_field. induction w as [|c w IH]; intros H; [reflexivity|].
  cbn [forallb] in H. apply andb_true_iff in H. destruct H as [Hc Hw].
  apply negb_true_iff in Hc. rewrite <- app_comm_cons. cbn [split_char].
  rewrite Hc, (IH Hw). reflexivity.
Qed.

Lemma split_char_field (w : str) : is_field w = true -> split_char 32 w = [w].
Proof.
  unfold is_field. induction w as [|c w IH]; intros H; [reflexivity|].
  cbn [forallb] in H. apply andb_true_iff in H. destruct H as [Hc Hw].
  apply negb_true_iff in Hc. cbn [split_char]. rewrite Hc, (IH Hw). reflexivity.
Qed.

Lemma split_char_join (w : str) (ws : list str) :
  Forall (fun w => is_field w = true) (w :: ws) ->
  split_char 32 (join [32] (w :: ws)) = w :: ws.
Proof.
  revert w. induction ws as [|w' ws IH]; intros w H; inversion H as [|? ? Hw Hws]; subst.
  - exact (split_char_field w Hw).
  - rewrite join_two. change ([32] ++ join [32] (w' :: ws)) with (32 :: join [32] (w' :: ws)).
    rewrite (split_char_field_app w _ Hw), (IH w' Hws). reflexivity.
Qed.

Lemma blank_repeats_later (first_word : str) (words : list str) :
  blank_repeats first_word false words
  = List.map (fun word => if eqb_str word first_word then [] else word) words.
Proof.
  induction words as [|w ws IH]; [reflexivity|].
  cbn [blank_repeats List.map]. rewrite IH. destruct (eqb_str w first_word); reflexivity.
Qed.

Lemma blank_repeats_first (words : list str) :
  blank_repeats (hd [] words) true words = blank_later words.
Proof.
  destruct words as [|w ws]; [reflexivity|].
  cbn [hd blank_repeats blank_later]. rewrite eqb_str_refl, blank_repeats_later. reflexivity.
Qed.

Lemma blank_later_fields (words : list str) :
  Forall (fun w => is_field w = true) words ->
  Forall (fun w => is_field w = true) (blank_later words).
Proof.
  destruct words as [|f ws]; [constructor|]. intros H.
  inversion H as [|? ? Hf Hws]; subst. cbn [blank_later]. constructor; [exact Hf|].
  clear H Hf. induction Hws as [|w ws Hw Hws IH]; [constructor|].
  cbn [List.map]. constructor; [|exact IH]. destruct (eqb_str w f); [reflexivity|exact Hw].
Qed.

Lemma split_char_blank (s : str) :
  split_char 32 (remove_second_occurrence s) = blank_later (split_char 32 s).
Proof.
  unfold remove_second_occurrence. rewrite blank_repeats_first.
  pose proof (blank_later_fields _ (split_char_fields s)) as H.
  destruct (split_char_cons s) as (w & ws & E). rewrite E in *.
  cbn [blank_later] in *. apply split_char_join. exact H.
Qed.

Lemma count_blanked (first_word : str) (ws : list str) :
  first_word <> [] ->
  count_str first_word
            (List.map (fun word => if eqb_str word first_word then [] else word) ws) = O.
Proof.
  intros Hne. induction ws as [|w ws IH]; [reflexivity|].
  cbn [List.map count_str]. rewrite IH.
  destruct (eqb_str w first_word) eqn:E.
  - destruct first_word; [contradiction|reflexivity].
  - rewrite eqb_str_sym, E. reflexivity.
Qed.

Lemma blank_later_twice (words : list str) : blank_later (blank_later words) = blank_later words.
Proof.
  destruct words as [|f ws]; [reflexivity|]. cbn [blank_later]. f_equal.
  rewrite map_map. apply map_ext. intros w.
  destruct (eqb_str w f) eqn:E; [|rewrite E; reflexivity].
  destruct (eqb_str [] f); reflexivity.
Qed.

Lemma blank_nothing (f : str) (ws : list str) :
  (f = [] \/ count_str f ws = O) ->
  List.map (fun word => if eqb_str word f then [] else word) ws = ws.
Proof.
  intros H. induction ws as [|w ws IH]; [reflexivity|]. cbn [List.map].
  destruct (eqb_str w f) eqn:E.
  - apply eqb_str_eq in E. subst w. destruct H as [->|H].
    + f_equal. apply IH. left. reflexivity.
    + cbn [count_str] in H. rewrite eqb_str_refl in H. discriminate.
  - f_equal. apply IH. destruct H as [H|H]; [left; exact H|right].
    cbn [count_str] in H. rewrite eqb_str_sym, E in H. exact H.
Qed.

(** X3.  [remove_second_occurrence] works on the fields between single
    spaces.  It keeps their number and the first field, and blanks every
    later field equal to the first one, so a non-empty first word occurs
    once in the result while the spaces around its repeats stay.  A text
    whose first field is empty (the empty text, a leading space) or does not
    occur again comes back as it is, and a second pass changes nothing. *)
Theorem remove_second_occurrence_blanks_repeats (s : str) :
  split_char 32 (remove_second_occurrence s) = blank_later (split_char 32 s)
  /\ length (split_char 32 (remove_second_occurrence s)) = length (split_char 32 s)
  /\ (hd [] (split_char 32 s) <> [] ->
      count_str (hd [] (split_char 32 s)) (split_char 32 (remove_second_occurrence s)) = 1%nat)
  /\ (hd [] (split_char 32 s) = []
      \/ count_str (hd [] (split_char 32 s)) (split_char 32 s) = 1%nat ->
      remove_second_occurrence s = s)
  /\ remove_second_occurrence (remove_second_occurrence s) = remove_second_occurrence s.
Proof.
  rewrite split_char_blank. destruct (split_char_cons s) as (f & ws & E).
  repeat split.
  - rewrite E. cbn [blank_later length]. rewrite length_map. reflexivity.
  - rewrite E. cbn [hd blank_later count_str]. intros Hne.
    rewrite eqb_str_refl, (count_blanked f ws Hne). reflexivity.
  - intros H. rewrite <- (join_split_char s) at 2.
    unfold remove_second_occurrence. rewrite blank_repeats_first. f_equal.
    rewrite E in *. cbn [hd blank_later count_str] in *. f_equal. apply blank_nothing.
    rewrite eqb_str_refl in H. destruct H as [H|H]; [left; exact H|right].
    injection H as H. exact H.
  - unfold remove_second_occurrence at 1. rewrite blank_repeats_first, split_char_blank.
    rewrite blank_later_twice. unfold remove_second_occurrence.
    rewrite blank_repeats_first. reflexivity.
Qed.

Lemma remove_second_occurrence_blanks_repeats_witness :
  count_str (hd [] (split_char 32 (u "sport awd sport")))
            (split_char 32 (remove_second_occurrence (u "sport awd sport"))) = 1%nat
  /\ remove_second_occurrence (u " sport  sport") = u " sport  sport".
Proof.
  split.
  - destruct (remove_second_occurrence_blanks_repeats (u "sport awd sport"))
      as (_ & _ & H & _).
    apply H. vm_compute. discriminate.
  - destruct (remove_second_occurrence_blanks_repeats (u " sport  sport"))
      as (_ & _ & _ & H & _).
    apply H. left. vm_compute. reflexivity.
Defined.

Lemma dict_get_found (d : list (str * str)) (k v : str) : dict_get d k = Some v -> In (k, v) d.
Proof.
  induction d as [|[k' v'] d IH]; [discriminate|]. cbn [dict_get In].
  destruct (dict_get d k) as [v0|].
  - intros H. injection H as <-. right. apply IH. reflexivity.
  - destruct (eqb_str k k') eqn:E; [|discriminate].
    intros H. injection H as <-. apply eqb_str_eq in E. subst k'. left. reflexivity.
Qed.

Lemma dict_get_missing (d : list (str * str)) (k : str) :
  dict_get d k = None <-> forall v, ~ In (k, v) d.
Proof.
  induction d as [|[k' v'] d IH]; cbn [dict_get In]; [tauto|].
  destruct (dict_get d k) as [v0|] eqn:E.
  - split; [discriminate|]. intros H. exfalso. apply (H v0). right.
    apply dict_get_found. exact E.
  - destruct (eqb_str k k') eqn:Ek.
    + apply eqb_str_eq in Ek. subst k'. split; [discriminate|].
      intros H. exfalso. apply (H v'). left. reflexivity.
    + split; [|reflexivity]. intros _ v [H|H].
      * injection H as H1 H2. subst k'. rewrite eqb_str_refl in Ek. discriminate.
      * exact (proj1 IH eq_refl v H).
Qed.

(** X4.  [correct_string] looks the lower-cased input up in the mapping.
    When that text is no key the input comes back unchanged, in its original
    case; when it is a key the result is a value the mapping holds for it,
    the same for every spelling of the input.  A mapping whose keys all hold
    an upper-case letter therefore never applies. *)
Theorem correct_string_lookup (input_str : str) (mapping : list (str * str)) :
  latin1 input_str ->
  ((forall v, ~ In (lower input_str, v) mapping) -> correct_string input_str mapping = input_str)
  /\ ((exists v, In (lower input_str, v) mapping) ->
      In (lower input_str, correct_string input_str mapping) mapping
      /\ correct_string (lower input_str) mapping = correct_string input_str mapping)
  /\ ((forall k v, In (k, v) mapping -> is_lower k = false) ->
      correct_string input_str mapping = input_str).
Proof.
  intros _. unfold correct_string.
  rewrite (lower_fixed (lower input_str) (is_lower_lower input_str)).
  destruct (dict_get mapping (lower input_str)) as [v|] eqn:E.
  - apply dict_get_found in E. split; [|split].
    + intros H. destruct (H v E).
    + intros _. split; [exact E|reflexivity].
    + intros H. apply H in E. rewrite is_lower_lower in E. discriminate.
  - split; [|split].
    + reflexivity.
    + intros [v Hv]. destruct (proj1 (dict_get_missing mapping _) E v Hv).
    + reflexivity.
Qed.

Lemma correct_string_lookup_witness :
  correct_string (u "Sport Plus") [(u "sport", u "s")] = u "Sport Plus"
  /\ In (lower (u "SPORT"), correct_string (u "SPORT") [(u "sport", u "s")]) [(u "sport", u "s")]
  /\ correct_string (u "sport") [(u "Sport", u "s")] = u "sport".
Proof.
  split; [|split].
  - destruct (correct_string_lookup (u "Sport Plus") [(u "sport", u "s")] eq_refl)
      as (H & _).
    apply H. intros v [E|[]]. vm_compute in E. discriminate.
  - destruct (correct_string_lookup (u "SPORT") [(u "sport", u "s")] eq_refl)
      as (_ & H & _).
    apply H. exists (u "s"). left. reflexivity.
  - destruct (correct_string_lookup (u "sport") [(u "Sport", u "s")] eq_refl)
      as (_ & _ & H).
    apply H. intros k v [E|[]]. injection E as <- _. reflexivity.
Defined.

(* ================================================================= *)
(** ** Side-channel extraction, rule by rule *)

Lemma extract_info_rows (rules : list (column * str * str)) (df : list listing) :
  fold_left (fun df upd => List.map (apply_update upd) df) rules df
  = List.map (fun l => fold_left (fun l upd => apply_update upd l) rules l) df.
Proof.
  revert df. induction rules as [|upd rules IH]; intros df; cbn [fold_left].
  - symmetry. apply map_id.
  - rewrite IH, map_map. reflexivity.
Qed.

Lemma apply_update_rule (c : column) (s v : str) (l : listing) :
  apply_update (c, s, v) l = if contains_nocase s (trim l) then set_column c v l else l.
Proof. reflexivity. Qed.

Lemma apply_update_keeps (upd : column * str * str) (l : listing) :
  make (apply_update upd l) = make l /\ model (apply_update upd l) = model l
  /\ trim (apply_update upd l) = trim l.
Proof.
  destruct upd as [[c s] v]. unfold apply_update.
  destruct (contains_nocase s (trim l)); [|repeat split].
  destruct c; repeat split.
Qed.

Lemma apply_updates_keep (rules : list (column * str * str)) (l : listing) :
  make (fold_left (fun l upd => apply_update upd l) rules l) = make l
  /\ model (fold_left (fun l upd => apply_update upd l) rules l) = model l
  /\ trim (fold_left (fun l upd => apply_update upd l) rules l) = trim l.
Proof.
  revert l. induction rules as [|upd rules IH]; intros l; cbn [fold_left]; [repeat split|].
  destruct (IH (apply_update upd l)) as (H1 & H2 & H3).
  destruct (apply_update_keeps upd l) as (K1 & K2 & K3).
  rewrite H1, H2, H3. repeat split; assumption.
Qed.

Lemma get_set_column (c c' : column) (v : str) (l : listing) :
  get_column c (set_column c' v l) = if column_eqb c c' then v else get_column c l.
Proof. destruct c, c'; reflexivity. Qed.

Lemma apply_updates_column (rules : list (column * str * str)) (l : listing) (c : column) :
  get_column c (fold_left (fun l upd => apply_update upd l) rules l)
  = match last_rule rules c (trim l) with
    | Some (_, _, value) => value
    | None => get_column c l
    end.
Proof.
  induction rules as [|upd rules IH] using rev_ind; [reflexivity|].
  rewrite fold_left_app. cbn [fold_left]. unfold last_rule in *.
  rewrite rev_app_distr. cbn [rev app find].
  destruct (apply_updates_keep rules l) as (_ & _ & Ht).
  destruct upd as [[c' s] v]. rewrite apply_update_rule. unfold rule_applies at 1.
  cbv beta iota. rewrite Ht.
  destruct (contains_nocase s (trim l)).
  - rewrite get_set_column, andb_true_r. destruct (column_eqb c c'); [reflexivity|exact IH].
  - rewrite andb_false_r. exact IH.
Qed.

Lemma listing_eta (l : listing) :
  l = mkListing (make l) (model l) (trim l) (bodytype l) (fueltype l) (drivetrain l)
                (transmission l).
Proof. destruct l; reflexivity. Qed.

Lemma apply_updates_row (rules : list (column * str * str)) (l : listing) :
  fold_left (fun l upd => apply_update upd l) rules l
  = mkListing (make l) (model l) (trim l)
              match last_rule rules Bodytype (trim l) with
              | Some (_, _, value) => value
              | None => bodytype l
              end
              match last_rule rules Fueltype (trim l) with
              | Some (_, _, value) => value
              | None => fueltype l
              end
              match last_rule rules Drivetrain (trim l) with
              | Some (_, _, value) => value
              | None => drivetrain l
              end
              match last_rule rules Transmission (trim l) with
              | Some (_, _, value) => value
              | None => transmission l
              end.
Proof.
  generalize (apply_updates_column rules l Bodytype).
  generalize (apply_updates_column rules l Fueltype).
  generalize (apply_updates_column rules l Drivetrain).
  generalize (apply_updates_column rules l Transmission).
  destruct (apply_updates_keep rules l) as (H1 & H2 & H3). revert H1 H2 H3.
  generalize (fold_left (fun l upd => apply_update upd l) rules l). intros l'.
  cbn [get_column]. intros <- <- <- <- <- <- <-. apply listing_eta.
Qed.

(** X5.  [extract_info_from_trim] works row by row and never touches make,
    model or trim.  Each of the four side columns ends with the value of the
    last rule of [update_list], for that column, whose substring occurs in
    the trim without regard to case; a column for which no rule applies
    keeps its value. *)
Theorem extract_info_last_rule_wins (df : list listing) :
  extract_info_from_trim df = List.map extract_row df.
Proof.
  unfold extract_info_from_trim. rewrite extract_info_rows.
  apply map_ext. intros l. unfold extract_row, decided.
  exact (apply_updates_row update_list l).
Qed.

(* ================================================================= *)
(** ** The steps of [clean_trim] on their own *)

Lemma starts_with_app (p a b : str) : starts_with p a = true -> starts_with p (a ++ b) = true.
Proof.
  revert a. induction p as [|x p IH]; intros a H; [reflexivity|].
  destruct a as [|y a]; [discriminate|]. cbn [starts_with app] in *.
  apply andb_true_iff in H. destruct H as [H1 H2]. rewrite H1, (IH a H2). reflexivity.
Qed.

Lemma contains_app_l (p a b : str) : contains p a = true -> contains p (a ++ b) = true.
Proof.
  induction a as [|c a IH]; intros H.
  - cbn [contains] in H. rewrite orb_false_r in H. destruct p; [|discriminate].
    destruct b; reflexivity.
  - rewrite <- app_comm_cons. rewrite contains_cons in *.
    apply orb_true_iff in H. destruct H as [H|H].
    + pose proof (starts_with_app p (c :: a) b H) as H'.
      change ((c :: a) ++ b) with (c :: (a ++ b)) in H'. rewrite H'. reflexivity.
    + rewrite (IH H). apply orb_true_r.
Qed.

Lemma contains_app_r (p a b : str) : contains p b = true -> contains p (a ++ b) = true.
Proof.
  intros H. induction a as [|c a IH]; [exact H|].
  rewrite <- app_comm_cons, contains_cons, IH. apply orb_true_r.
Qed.

Lemma before_prefix (sep s : str) : exists rest, s = before sep s ++ rest.
Proof.
  induction s as [|c s IH]; cbn [before].
  - exists []. destruct (starts_with sep []); reflexivity.
  - destruct (starts_with sep (c :: s)); [exists (c :: s); reflexivity|].
    destruct IH as [rest IH]. exists rest. rewrite <- app_comm_cons, <- IH. reflexivity.
Qed.

Lemma lstrip_by_suffix (f : N -> bool) (s : str) : exists pre, s = pre ++ lstrip_by f s.
Proof.
  induction s as [|c s IH]; [exists []; reflexivity|]. cbn [lstrip_by].
  destruct (f c); [|exists []; reflexivity].
  destruct IH as [pre IH]. exists (c :: pre). rewrite <- app_comm_cons, <- IH. reflexivity.
Qed.

Lemma rstrip_by_prefix (f : N -> bool) (s : str) : exists post, s = rstrip_by f s ++ post.
Proof.
  induction s as [|c s IH]; [exists []; reflexivity|]. cbn [rstrip_by].
  destruct IH as [post IH]. destruct (rstrip_by f s) as [|d r].
  - destruct (f c); [exists (c :: s); reflexivity|exists s; reflexivity].
  - exists post. rewrite <- app_comm_cons, <- IH. reflexivity.
Qed.

Lemma contains_strip (p s : str) : contains p (strip s) = true -> contains p s = true.
Proof.
  unfold strip. intros H.
  destruct (lstrip_by_suffix isspace s) as [pre E1].
  destruct (rstrip_by_prefix isspace (lstrip_by isspace s)) as [post E2].
  rewrite E1. apply contains_app_r. rewrite E2. apply contains_app_l. exact H.
Qed.

Lemma contains_before (p sep s : str) : contains p (before sep s) = true -> contains p s = true.
Proof.
  intros H. destruct (before_prefix sep s) as [rest E]. rewrite E.
  apply contains_app_l. exact H.
Qed.

Lemma contains_before_self (w s : str) : w <> [] -> contains w (before w s) = false.
Proof.
  intros Hne. induction s as [|c s IH]; cbn [before].
  - destruct w; [contradiction|]. reflexivity.
  - destruct (starts_with w (c :: s)) eqn:E.
    + destruct w; [contradiction|]. reflexivity.
    + rewrite contains_cons, IH, orb_false_r.
      destruct (starts_with w (c :: before w s)) eqn:E'; [|reflexivity].
      destruct (before_prefix w s) as [rest Hr].
      apply (starts_with_app _ _ rest) in E'. rewrite <- app_comm_cons, <- Hr in E'.
      rewrite E' in E. discriminate.
Qed.

Lemma contains_false_trans (p a b : str) :
  (contains p a = true -> contains p b = true) -> contains p b = false -> contains p a = false.
Proof.
  intros H Hb. destruct (contains p a); [|reflexivity]. rewrite (H eq_refl) in Hb. discriminate.
Qed.

Lemma truncate_skips (s : str) (pre rest : list str) :
  (forall w, In w pre -> contains w s = false) ->
  truncate_after_words s (pre ++ rest) = truncate_after_words s rest.
Proof.
  induction pre as [|w pre IH]; intros H; [reflexivity|].
  cbn [app truncate_after_words]. rewrite (H w (or_introl eq_refl)).
  apply IH. intros w' Hw'. apply H. right. exact Hw'.
Qed.

(** X6.  [truncate_after_words] cuts the text at the first word of the
    list, in list order, that occurs in it, and strips what is left.  The
    result holds neither that word nor any word listed before it (a word
    listed after it may remain).  A text that holds none of the words comes
    back as it is, unstripped. *)
Theorem truncate_after_words_first_listed (s : str) (words : list str) :
  ((forall w, In w words -> contains w s = false) -> truncate_after_words s words = s)
  /\ (forall pre word post,
         words = pre ++ word :: post -> word <> [] ->
         (forall w, In w pre -> contains w s = false) -> contains word s = true ->
         truncate_after_words s words = strip (before word s)
         /\ forall w, In w (pre ++ [word]) ->
                      contains w (truncate_after_words s words) = false).
Proof.
  split.
  - intros H. apply truncate_fixed. apply forallb_forall. intros w Hw.
    rewrite (H w Hw). reflexivity.
  - intros pre word post -> Hne Hpre Hword.
    assert (E : truncate_after_words s (pre ++ word :: post) = strip (before word s)).
    { rewrite (truncate_skips s pre (word :: post) Hpre).
      cbn [truncate_after_words]. rewrite Hword. reflexivity. }
    split; [exact E|]. rewrite E. intros w Hw. apply in_app_or in Hw.
    destruct Hw as [Hw|[<-|[]]].
    + apply (contains_false_trans w _ s); [|exact (Hpre w Hw)].
      intros H. apply contains_strip in H. apply contains_before in H. exact H.
    + apply (contains_false_trans word _ (before word s)); [apply contains_strip|].
      apply contains_before_self. exact Hne.
Qed.

Lemma truncate_after_words_first_listed_witness :
  truncate_after_words (u " lx ") CleanTrimTables.words = u " lx "
  /\ truncate_after_words (u "sport, awd | 4 door") CleanTrimTables.words
     = strip (before (u "|") (u "sport, awd | 4 door")).
Proof.
  split.
  - destruct (truncate_after_words_first_listed (u " lx ") CleanTrimTables.words) as [H _].
    apply H. intros w Hw. cbn [CleanTrimTables.words In] in Hw.
    repeat (destruct Hw as [<-|Hw]; [vm_compute; reflexivity|]). contradiction.
  - destruct (truncate_after_words_first_listed (u "sport, awd | 4 door")
                                                CleanTrimTables.words) as [_ H].
    apply (H [] (u "|") (tl CleanTrimTables.words)).
    + reflexivity.
    + vm_compute. discriminate.
    + intros w [].
    + vm_compute. reflexivity.
Defined.

Lemma sub_from_skip (m : matcher) (s : str) (prev : option N) (skip : nat) :
  (length s <= skip)%nat -> sub_from m prev skip s = [].
Proof.
  revert prev skip. induction s as [|c s IH]; intros prev skip H; [reflexivity|].
  cbn [length] in H. destruct skip as [|k]; [lia|]. cbn [sub_from]. apply IH. lia.
Qed.

Lemma starts_with_refl (k s : str) : starts_with k (k ++ s) = true.
Proof.
  induction k as [|c k IH]; [reflexivity|]. cbn [app starts_with]. rewrite N.eqb_refl. exact IH.
Qed.

Lemma alt_first (pre post : list (str * str)) (k v : str) (prev : option N) (s : str) :
  k <> [] -> (forall k' v', In (k', v') pre -> starts_with k' s = false) ->
  starts_with k s = true ->
  alt (pre ++ (k, v) :: post) prev s = Some (length k, v).
Proof.
  intros Hne Hpre Hk. induction pre as [|[k' v'] pre IH]; cbn [app alt].
  - destruct k; [contradiction|]. rewrite Hk. reflexivity.
  - assert (IH' := IH (fun a b H => Hpre a b (or_intror H))).
    destruct k' as [|c k']; [exact IH'|].
    rewrite (Hpre (c :: k') v' (or_introl eq_refl)). exact IH'.
Qed.

(** X7.  [translate_string] with a non-empty mapping without an empty key
    leaves a text in which no key occurs as it is.  A text that is itself a
    key becomes the value of that key, provided no key written earlier in
    the mapping is a prefix of the text: the alternation tries the keys in
    dict order, not the longest first. *)
Theorem translate_string_by_key (translations : list (str * str)) :
  translations <> [] -> (forall k v, In (k, v) translations -> k <> []) ->
  (forall s, (forall k v, In (k, v) translations -> contains k s = false) ->
             translate_string s translations = s)
  /\ (forall pre k v post,
         translations = pre ++ (k, v) :: post ->
         (forall k' v', In (k', v') pre -> starts_with k' k = false) ->
         translate_string k translations = v).
Proof.
  intros _ Hkeys. split.
  - intros s H. unfold translate_string, sub. apply sub_from_fixed. apply alt_never.
    apply forallb_forall. intros [k v] Hkv. cbn [fst]. rewrite (H k v Hkv). reflexivity.
  - intros pre k v post E Hpre. unfold translate_string, sub.
    assert (Hne : k <> []) by (apply (Hkeys k v); rewrite E; apply in_elt).
    rewrite E. destruct k as [|c k]; [contradiction|]. cbn [sub_from].
    rewrite (alt_first pre post (c :: k) v None (c :: k) Hne Hpre
                       (eq_trans (f_equal (starts_with (c :: k)) (eq_sym (app_nil_r (c :: k))))
                                 (starts_with_refl (c :: k) []))).
    cbn [length]. rewrite (sub_from_skip _ k (Some c) (length k) (le_n _)).
    apply app_nil_r.
Qed.

Lemma translate_string_by_key_witness :
  translate_string (u "sport") CleanTrimTables.trim_translation_mapping = u "sport"
  /\ translate_string (u "e anniversaire") CleanTrimTables.trim_translation_mapping
     = u "th anniversary".
Proof.
  assert (Hne : CleanTrimTables.trim_translation_mapping <> []) by (vm_compute; discriminate).
  assert (Hkeys : forall k v, In (k, v) CleanTrimTables.trim_translation_mapping -> k <> []).
  { intros k v Hkv.
    assert (A : forallb (fun kv => negb (eqb_str (fst kv) []))
                        CleanTrimTables.trim_translation_mapping = true)
      by (vm_compute; reflexivity).
    rewrite forallb_forall in A. specialize (A (k, v) Hkv).
    apply negb_true_iff in A. apply eqb_str_neq. exact A. }
  destruct (translate_string_by_key CleanTrimTables.trim_translation_mapping Hne Hkeys)
    as [H1 H2].
  split.
  - apply H1. intros k v Hkv.
    assert (A : forallb (fun kv => negb (contains (fst kv) (u "sport")))
                        CleanTrimTables.trim_translation_mapping = true)
      by (vm_compute; reflexivity).
    rewrite forallb_forall in A. specialize (A (k, v) Hkv). apply negb_true_iff in A. exact A.
  - apply (H2 [] (u "e anniversaire") (u "th anniversary")
              (tl CleanTrimTables.trim_translation_mapping)).
    + reflexivity.
    + intros k' v' [].
Defined.

(** X8.  Whatever the input and the extra unwanted words, the text that
    [clean_trim] returns holds no character of [characters_to_remove] and no
    apostrophe. *)
Theorem clean_trim_drops_punctuation (trim : pyobj) (add_unwanted_words : option (list str)) :
  Forall (fun c => ~ In c CleanTrimTables.characters_to_remove /\ c <> 39)
         (clean_trim trim add_unwanted_words).
Proof.
  eapply Forall_impl; [|apply clean_trim_plain]. intros c Hc.
  apply plain_char_spec in Hc. destruct Hc as (_ & H2 & H3). split.
  - intros Hin. unfold mem_char in H2.
    assert (E : existsb (N.eqb c) CleanTrimTables.characters_to_remove = true).
    { apply existsb_exists. exists c. split; [exact Hin|apply N.eqb_refl]. }
    rewrite E in H2. discriminate.
  - intros ->. discriminate.
Qed.

(* ================================================================= *)
(** ** Blank input *)

Lemma isspace_not_upper (c : N) : isspace c = true -> isupper c = false.
Proof.
  intros H. destruct (isupper c) eqn:E; [|reflexivity]. exfalso.
  apply isupper_spec in E. unfold isspace in H.
  rewrite ?orb_true_iff, ?andb_true_iff, ?N.leb_le, ?N.eqb_eq in H. lia.
Qed.

Lemma lower_blank (s : str) : forallb isspace s = true -> lower s = s.
Proof.
  intros H. apply lower_fixed. unfold is_lower. apply forallb_forall. intros c Hc.
  rewrite forallb_forall in H. rewrite (isspace_not_upper c (H c Hc)). reflexivity.
Qed.

Lemma starts_with_In (w s : str) (c : N) : starts_with w s = true -> In c w -> In c s.
Proof.
  revert s. induction w as [|x w IH]; intros s H Hc; [destruct Hc|].
  destruct s as [|y s]; [discriminate|]. cbn [starts_with] in H.
  apply andb_true_iff in H. destruct H as [H1 H2]. apply N.eqb_eq in H1. subst y.
  destruct Hc as [->|Hc]; [left; reflexivity|right; exact (IH s H2 Hc)].
Qed.

Lemma contains_In (w s : str) (c : N) : contains w s = true -> In c w -> In c s.
Proof.
  induction s as [|y s IH]; intros H Hc.
  - cbn [contains] in H. rewrite orb_false_r in H. exact (starts_with_In w [] c H Hc).
  - rewrite contains_cons in H. apply orb_true_iff in H. destruct H as [H|H].
    + exact (starts_with_In w _ c H Hc).
    + right. exact (IH H Hc).
Qed.

Lemma blank_holds_no_word (w s : str) :
  existsb (fun c => negb (isspace c)) w = true -> forallb isspace s = true ->
  contains w s = false.
Proof.
  intros Hw Hs. destruct (contains w s) eqn:E; [|reflexivity]. exfalso.
  apply existsb_exists in Hw. destruct Hw as (c & Hc & Hn).
  rewrite forallb_forall in Hs. rewrite (Hs c (contains_In w s c E Hc)) in Hn. discriminate.
Qed.

Lemma strip_blank (s : str) : forallb isspace s = true -> strip s = [].
Proof.
  intros H. unfold strip. replace (lstrip_by isspace s) with (@nil N); [reflexivity|].
  induction s as [|c s IH]; [reflexivity|]. cbn [forallb] in H.
  apply andb_true_iff in H. destruct H as [H1 H2]. cbn [lstrip_by]. rewrite H1. exact (IH H2).
Qed.

Lemma clean_prepare_blank (s : str) : forallb isspace s = true -> clean_prepare (PyStr s) = [].
Proof.
  intros H. unfold clean_prepare. cbn [py_str]. rewrite (lower_blank s H).
  rewrite truncate_fixed.
  2:{ assert (A : forallb (fun w => existsb (fun c => negb (isspace c)) w)
                          CleanTrimTables.words = true) by (vm_compute; reflexivity).
      rewrite forallb_forall in A. apply forallb_forall. intros w Hw.
      rewrite (blank_holds_no_word w s (A w Hw) H). reflexivity. }
  assert (Hs : forall c, In c s -> isspace c = true) by (apply forallb_forall; exact H).
  rewrite remove_characters_fixed.
  2:{ apply Forall_forall. intros c Hc. specialize (Hs c Hc).
      destruct (mem_char c CleanTrimTables.characters_to_remove) eqn:E; [|reflexivity].
      exfalso. unfold mem_char in E. apply existsb_exists in E. destruct E as (x & Hx & Ex).
      apply N.eqb_eq in Ex. subst x.
      assert (A : forallb (fun c => negb (isspace c)) CleanTrimTables.characters_to_remove
                  = true) by (vm_compute; reflexivity).
      rewrite forallb_forall in A. specialize (A c Hx). rewrite Hs in A. discriminate. }
  change (u "'") with [39].
  rewrite replace_fixed.
  2:{ apply contains_char. apply Forall_forall. intros c Hc. specialize (Hs c Hc).
      destruct (c =? 39) eqn:E; [|reflexivity]. apply N.eqb_eq in E. subst c. discriminate. }
  apply strip_blank. apply forallb_forall. apply Forall_forall.
  apply (collapse_Forall (fun c => isspace c = true) eq_refl).
  apply Forall_forall. exact Hs.
Qed.

Lemma replace_in_nil (old : str) : replace old [] [] = [].
Proof. destruct old; reflexivity. Qed.

Lemma remove_complex_words_nil (ws : list str) : remove_complex_words ws [] = [].
Proof.
  unfold remove_complex_words. induction ws as [|w ws IH]; [reflexivity|].
  cbn [fold_left]. rewrite replace_in_nil. exact IH.
Qed.

Lemma clean_finish_nil : clean_finish [] = [].
Proof. vm_compute. reflexivity. Qed.

(** X9.  A trim made of white space only, the empty trim included, is
    cleaned to the empty text whatever the extra unwanted words, and the
    validator turns that into "unknown" whatever the extra invalid trims. *)
Theorem blank_trim_becomes_unknown (s : str) (add_unwanted_words add_invalid_trims : option (list str)) :
  forallb isspace s = true ->
  clean_trim (PyStr s) add_unwanted_words = []
  /\ validate_trim (clean_trim (PyStr s) add_unwanted_words) add_invalid_trims = unknown.
Proof.
  intros H.
  assert (E : clean_trim (PyStr s) add_unwanted_words = []).
  { unfold clean_trim. rewrite (clean_prepare_blank s H).
    unfold translate_string, sub. cbn [sub_from].
    unfold clean_words. rewrite remove_complex_words_nil. unfold sub. cbn [sub_from].
    exact clean_finish_nil. }
  split; [exact E|]. rewrite E. unfold validate_trim. rewrite mem_str_app.
  replace (mem_str [] ValidateTrimTables.invalid_trims) with true by (vm_compute; reflexivity).
  reflexivity.
Qed.

Lemma blank_trim_becomes_unknown_witness :
  clean_trim (PyStr [32; 9; 160]) (Some [u "sport"]) = []
  /\ validate_trim (clean_trim (PyStr [32; 9; 160]) (Some [u "sport"])) None = unknown.
Proof.
  apply (blank_trim_becomes_unknown [32; 9; 160] (Some [u "sport"]) None).
  vm_compute. reflexivity.
Defined.

(** X10.  [validate_trim] is a projection: validating its own result again
    gives the same result, for every text and every list of extra invalid
    trims. *)
Theorem validate_trim_twice (trim : str) (add_invalid_trims : option (list str)) :
  validate_trim (validate_trim trim add_invalid_trims) add_invalid_trims
  = validate_trim trim add_invalid_trims.
Proof.
  destruct (validate_trim_cases trim add_invalid_trims) as [E|E].
  - rewrite E. apply validate_unknown.
  - rewrite E. exact E.
Qed.

(* ================================================================= *)
(** ** The backfill of one row *)

Lemma find_first (A : Type) (f : A -> bool) (pre : list A) (x : A) (post : list A) :
  (forall y, In y pre -> f y = false) -> f x = true -> find f (pre ++ x :: post) = Some x.
Proof.
  intros Hpre Hx. induction pre as [|y pre IH]; cbn [app find].
  - rewrite Hx. reflexivity.
  - rewrite (Hpre y (or_introl eq_refl)). apply IH. intros z Hz. apply Hpre. right. exact Hz.
Qed.

Lemma find_nothing (A : Type) (f : A -> bool) (l : list A) :
  (forall y, In y l -> f y = false) -> find f l = None.
Proof.
  intros H. induction l as [|y l IH]; [reflexivity|]. cbn [find].
  rewrite (H y (or_introl eq_refl)). apply IH. intros z Hz. apply H. right. exact Hz.
Qed.

Lemma find_in_front (A : Type) (f : A -> bool) (pre rest : list A) (y : A) :
  In y pre -> f y = true -> exists z, find f (pre ++ rest) = Some z /\ In z pre.
Proof.
  intros Hy Hf. induction pre as [|x pre IH]; [destruct Hy|]. cbn [app find].
  destruct (f x) eqn:E; [exists x; split; [reflexivity|left; reflexivity]|].
  destruct Hy as [->|Hy]; [rewrite Hf in E; discriminate|].
  destruct (IH Hy) as (z & Hz & Hin). exists z. split; [exact Hz|right; exact Hin].
Qed.

Lemma starts_with_split (p s : str) : starts_with p s = true -> exists y, s = p ++ y.
Proof.
  revert s. induction p as [|a p IH]; intros s H; [exists s; reflexivity|].
  destruct s as [|b s]; [discriminate|]. cbn [starts_with] in H.
  apply andb_true_iff in H. destruct H as [H1 H2]. apply N.eqb_eq in H1. subst b.
  destruct (IH s H2) as [y ->]. exists y. reflexivity.
Qed.

Lemma contains_split (p s : str) : contains p s = true -> exists x y, s = x ++ p ++ y.
Proof.
  induction s as [|c s IH]; intros H.
  - cbn [contains] in H. rewrite orb_false_r in H.
    destruct (starts_with_split p [] H) as [y Hy]. exists [], y. exact Hy.
  - rewrite contains_cons in H. apply orb_true_iff in H. destruct H as [H|H].
    + destruct (starts_with_split p _ H) as [y Hy]. exists [], y. exact Hy.
    + destruct (IH H) as (x & y & ->). exists (c :: x), y. reflexivity.
Qed.

Lemma contains_trans (a b c : str) :
  contains a b = true -> contains b c = true -> contains a c = true.
Proof.
  intros Hab Hbc. destruct (contains_split b c Hbc) as (x & y & ->).
  apply contains_app_r, contains_app_l. exact Hab.
Qed.

Lemma update_unknown_trim_known (r : row) (valid_trims : list str) :
  row_trim r <> unknown -> update_unknown_trim r valid_trims = r.
Proof.
  intros H. unfold update_unknown_trim. apply eqb_str_neq in H. rewrite H. reflexivity.
Qed.

Lemma update_unknown_trim_search (r : row) (valid_trims : list str) :
  row_trim r = unknown ->
  update_unknown_trim r valid_trims
  = match find (fun trim => contains trim (trim_backup r)) valid_trims with
    | Some ((_ :: _) as found_trim) => row_set_trim found_trim r
    | _ => r
    end.
Proof.
  intros H. unfold update_unknown_trim. rewrite H, eqb_str_refl. reflexivity.
Qed.

Lemma update_unknown_trim_cases (r : row) (valid_trims : list str) :
  update_unknown_trim r valid_trims = r
  \/ exists t, In t valid_trims /\ row_trim r = unknown /\ contains t (trim_backup r) = true
               /\ t <> [] /\ update_unknown_trim r valid_trims = row_set_trim t r.
Proof.
  destruct (eqb_str (row_trim r) unknown) eqn:E.
  - apply eqb_str_eq in E. rewrite (update_unknown_trim_search r valid_trims E).
    destruct (find _ valid_trims) as [[|c t]|] eqn:F; [left; reflexivity| |left; reflexivity].
    apply find_some in F. destruct F as [F1 F2]. right. exists (c :: t).
    repeat split; try assumption. discriminate.
  - left. apply update_unknown_trim_known. apply eqb_str_neq. exact E.
Qed.

(** X11.  [update_unknown_trim] leaves a row whose trim is not "unknown" as
    it is.  For an unknown row the first entry of the list, in list order,
    that occurs in the backup decides: a non-empty entry becomes the trim,
    an empty entry ends the search and leaves the row unknown, and so does a
    list of which no entry occurs in the backup. *)
Theorem update_unknown_trim_first_found (r : row) (valid_trims : list str) :
  (row_trim r <> unknown -> update_unknown_trim r valid_trims = r)
  /\ (row_trim r = unknown ->
      (forall t, In t valid_trims -> contains t (trim_backup r) = false) ->
      update_unknown_trim r valid_trims = r)
  /\ (forall pre t post,
         valid_trims = pre ++ t :: post -> row_trim r = unknown ->
         (forall t', In t' pre -> contains t' (trim_backup r) = false) ->
         contains t (trim_backup r) = true ->
         update_unknown_trim r valid_trims
         = match t with
           | [] => r
           | _ => row_set_trim t r
           end).
Proof.
  split; [apply update_unknown_trim_known|]. split.
  - intros Hr H. rewrite (update_unknown_trim_search r valid_trims Hr).
    rewrite (find_nothing _ _ valid_trims H). reflexivity.
  - intros pre t post -> Hr Hpre Ht.
    rewrite (update_unknown_trim_search r _ Hr).
    rewrite (find_first _ (fun trim => contains trim (trim_backup r)) pre t post Hpre Ht).
    destruct t; reflexivity.
Qed.

Lemma update_unknown_trim_first_found_witness :
  update_unknown_trim (mkRow (sample "ford" "f-150" "xlt") (u "xlt 4x4")) [u "4x4"]
  = mkRow (sample "ford" "f-150" "xlt") (u "xlt 4x4")
  /\ update_unknown_trim (mkRow (sample "ford" "f-150" "unknown") (u "xlt 4x4")) [u "lariat"]
     = mkRow (sample "ford" "f-150" "unknown") (u "xlt 4x4")
  /\ update_unknown_trim (mkRow (sample "ford" "f-150" "unknown") (u "xlt 4x4"))
                         [u "lariat"; []; u "xlt"]
     = mkRow (sample "ford" "f-150" "unknown") (u "xlt 4x4").
Proof.
  split; [|split].
  - destruct (update_unknown_trim_first_found
                (mkRow (sample "ford" "f-150" "xlt") (u "xlt 4x4")) [u "4x4"]) as (H & _).
    apply H. vm_compute. discriminate.
  - destruct (update_unknown_trim_first_found
                (mkRow (sample "ford" "f-150" "unknown") (u "xlt 4x4")) [u "lariat"])
      as (_ & H & _).
    apply H; [reflexivity|]. intros t [<-|[]]. vm_compute. reflexivity.
  - destruct (update_unknown_trim_first_found
                (mkRow (sample "ford" "f-150" "unknown") (u "xlt 4x4"))
                [u "lariat"; []; u "xlt"]) as (_ & _ & H).
    apply (H [u "lariat"] [] [u "xlt"]); [reflexivity|reflexivity| |reflexivity].
    intros t [<-|[]]. vm_compute. reflexivity.
Defined.

(** X12.  An entry of the list that holds an entry listed before it as a
    substring is never the one that [update_unknown_trim] writes: whenever it
    occurs in the backup, so does the earlier entry, which is found first.
    (In the list that [process_trim] passes for ford, "se" is listed before
    "sel", "ses" and "se hatchback".) *)
Theorem update_unknown_trim_shadowed (r : row) (pre : list str) (t' t : str) (post : list str) :
  row_trim r = unknown -> t <> unknown ->
  In t' pre -> contains t' t = true -> ~ In t pre ->
  row_trim (update_unknown_trim r (pre ++ t :: post)) <> t.
Proof.
  intros Hr Hu Hin Hsub Hnot.
  destruct (update_unknown_trim_cases r (pre ++ t :: post)) as [E|(x & Hx & _ & Hc & _ & E)].
  - rewrite E, Hr. intros H. apply Hu. symmetry. exact H.
  - rewrite E. unfold row_trim, row_set_trim. cbn [cols]. rewrite trim_set_trim.
    intros ->. pose proof (contains_trans t' t _ Hsub Hc) as Hc'.
    destruct (find_in_front _ (fun trim => contains trim (trim_backup r)) pre (t :: post) t'
                            Hin Hc') as (z & Hz & Hzin).
    rewrite (update_unknown_trim_search r _ Hr), Hz in E.
    destruct z as [|c z].
    + apply (f_equal row_trim) in E. unfold row_trim at 2, row_set_trim in E. cbn [cols] in E.
      rewrite trim_set_trim in E. apply Hu. rewrite <- E. exact Hr.
    + apply (f_equal row_trim) in E. unfold row_trim, row_set_trim in E. cbn [cols] in E.
      rewrite !trim_set_trim in E. apply Hnot. rewrite <- E. exact Hzin.
Qed.

Lemma update_unknown_trim_shadowed_witness :
  row_trim (update_unknown_trim (mkRow (sample "ford" "edge" "unknown") (u "sel awd certified"))
                                MakeRules.valid_ford_trims) <> u "sel".
Proof.
  apply (update_unknown_trim_shadowed
           (mkRow (sample "ford" "edge" "unknown") (u "sel awd certified"))
           [u "se"; u "xlt"] (u "se") (u "sel") (skipn 3 MakeRules.valid_ford_trims)).
  - reflexivity.
  - vm_compute. discriminate.
  - left. reflexivity.
  - vm_compute. reflexivity.
  - intros [H|[H|[]]]; vm_compute in H; discriminate.
Defined.

(* ================================================================= *)
(** ** The per-make processor, column by column *)

Lemma blank_row_set_trim (t : str) (r : row) :
  row_set_trim [] (row_set_trim t r) = row_set_trim [] r.
Proof. reflexivity. Qed.

Lemma blank_update_unknown_trim (r : row) (valid_trims : list str) :
  row_set_trim [] (update_unknown_trim r valid_trims) = row_set_trim [] r.
Proof.
  destruct (update_unknown_trim_cases r valid_trims) as [E|(t & _ & _ & _ & _ & E)];
    rewrite E; reflexivity.
Qed.

Lemma on_make_blank (mk : str) (f : row -> row) (df : list row) :
  (forall r, row_set_trim [] (f r) = row_set_trim [] r) ->
  List.map (row_set_trim []) (on_make mk f df) = List.map (row_set_trim []) df.
Proof.
  intros H. unfold on_make. rewrite map_map. apply map_ext. intros r.
  destruct (eqb_str (row_make r) mk); [apply H|reflexivity].
Qed.

Lemma normalise_make_blank df mk mapping words invalid :
  List.map (row_set_trim []) (normalise_make df mk mapping words invalid)
  = List.map (row_set_trim []) df.
Proof.
  unfold normalise_make.
  rewrite on_make_blank by (intros r; apply blank_row_set_trim).
  destruct mapping as [[|kv mapping]|].
  - apply on_make_blank. intros r. apply blank_row_set_trim.
  - rewrite on_make_blank by (intros r; apply blank_row_set_trim).
    apply on_make_blank. intros r. apply blank_row_set_trim.
  - apply on_make_blank. intros r. apply blank_row_set_trim.
Qed.

Lemma process_trim_by_make_blank df mk mapping valid words invalid threshold :
  List.map (row_set_trim []) (process_trim_by_make df mk mapping valid words invalid threshold)
  = List.map (row_set_trim []) df.
Proof.
  unfold process_trim_by_make.
  destruct valid as [| |[|v l]];
    rewrite ?on_make_blank by (intros r; apply blank_update_unknown_trim);
    apply normalise_make_blank.
Qed.

(** X13.  [process_trim_by_make] writes the trim column only: with the trim
    blanked, its result is the input table, row for row.  Row count, row
    order, make, model, the side columns and the backup are kept, for the
    rows of the make as for the others, whatever the arguments. *)
Theorem process_trim_by_make_writes_trim_only
        (df : list row) (make : str) (trim_correction_mapping : option (list (str * str)))
        (valid_trims : valid_trims_arg) (add_unwanted_words add_invalid_trims : option (list str))
        (unknown_threshold : Z) :
  List.map (row_set_trim [])
           (process_trim_by_make df make trim_correction_mapping valid_trims
                                 add_unwanted_words add_invalid_trims unknown_threshold)
  = List.map (row_set_trim []) df.
Proof.
  unfold process_trim_by_make.
  destruct valid_trims as [| |[|v l]].
  - apply normalise_make_blank.
  - rewrite on_make_blank by (intros r; apply blank_update_unknown_trim).
    apply normalise_make_blank.
  - apply normalise_make_blank.
  - rewrite on_make_blank by (intros r; apply blank_update_unknown_trim).
    apply normalise_make_blank.
Qed.

Lemma on_make_In (mk : str) (f : row -> row) (df : list row) (r : row) :
  (forall r0, row_make (f r0) = row_make r0) ->
  In r (on_make mk f df) -> row_make r = mk ->
  exists r0, In r0 df /\ row_make r0 = mk /\ r = f r0.
Proof.
  intros Hf Hin Hmk. unfold on_make in Hin. apply in_map_iff in Hin.
  destruct Hin as (r0 & E & Hr0). destruct (eqb_str (row_make r0) mk) eqn:Em.
  - exists r0. apply eqb_str_eq in Em. repeat split; [exact Hr0|exact Em|symmetry; exact E].
  - subst r. apply eqb_str_neq in Em. contradiction.
Qed.

Lemma row_make_update_unknown_trim (r : row) (valid_trims : list str) :
  row_make (update_unknown_trim r valid_trims) = row_make r.
Proof.
  destruct (update_unknown_trim_cases r valid_trims) as [E|(t & _ & _ & _ & _ & E)];
    rewrite E; reflexivity.
Qed.

Lemma validated_cases (t : str) (invalid : option (list str)) :
  validate_trim t invalid = unknown
  \/ validate_trim (validate_trim t invalid) invalid = validate_trim t invalid.
Proof.
  destruct (validate_trim_cases t invalid) as [E|E]; [left; exact E|right].
  rewrite E. exact E.
Qed.

Lemma normalise_make_validated df mk mapping words invalid (r : row) :
  In r (normalise_make df mk mapping words invalid) -> row_make r = mk ->
  row_trim r = unknown \/ validate_trim (row_trim r) invalid = row_trim r.
Proof.
  unfold normalise_make. intros Hin Hmk.
  apply on_make_In in Hin; [|intros r0; reflexivity|exact Hmk].
  destruct Hin as (r0 & _ & _ & ->).
  change (row_trim (row_set_trim (validate_trim (row_trim r0) invalid) r0))
    with (validate_trim (row_trim r0) invalid).
  apply validated_cases.
Qed.

Lemma rejected_text (t : str) (invalid : option (list str)) :
  In t ValidateTrimTables.invalid_trims -> validate_trim t invalid = unknown.
Proof.
  intros H. unfold validate_trim. rewrite mem_str_app.
  apply mem_str_In in H. rewrite H. reflexivity.
Qed.

Lemma process_trim_by_make_verdict df mk mapping valid words invalid threshold (r : row) :
  In r (process_trim_by_make df mk mapping valid words invalid threshold) ->
  row_make r = mk ->
  row_trim r = unknown
  \/ validate_trim (row_trim r) invalid = row_trim r
  \/ exists l, valid = ValidTrims l /\ In (row_trim r) l.
Proof.
  intros Hin Hmk. unfold process_trim_by_make in Hin.
  set (df1 := normalise_make df mk mapping words invalid) in *.
  assert (N1 : forall r1, In r1 df1 -> row_make r1 = mk ->
                          row_trim r1 = unknown
                          \/ validate_trim (row_trim r1) invalid = row_trim r1)
    by (intros r1; apply normalise_make_validated).
  destruct valid as [| |[|v l]].
  - destruct (N1 r Hin Hmk) as [E|E]; [left; exact E|right; left; exact E].
  - apply on_make_In in Hin; [|intros r0; apply row_make_update_unknown_trim|exact Hmk].
    destruct Hin as (r0 & Hr0 & Hmk0 & ->).
    destruct (update_unknown_trim_cases
                r0 (get_sorted_trims_above_threshold df1 mk threshold))
      as [E|(t & Ht & _ & _ & _ & E)]; rewrite E.
    + destruct (N1 r0 Hr0 Hmk0) as [E'|E']; [left; exact E'|right; left; exact E'].
    + change (row_trim (row_set_trim t r0)) with t.
      apply allowlist_In in Ht. destruct Ht as (Ht & _).
      apply in_map_iff in Ht. destruct Ht as (r1 & <- & Hr1).
      apply filter_In in Hr1. destruct Hr1 as [Hr1 Hm1]. apply eqb_str_eq in Hm1.
      destruct (N1 r1 Hr1 Hm1) as [E'|E']; [left; exact E'|right; left; exact E'].
  - destruct (N1 r Hin Hmk) as [E|E]; [left; exact E|right; left; exact E].
  - apply on_make_In in Hin; [|intros r0; apply row_make_update_unknown_trim|exact Hmk].
    destruct Hin as (r0 & Hr0 & Hmk0 & ->).
    destruct (update_unknown_trim_cases r0 (v :: l)) as [E|(t & Ht & _ & _ & _ & E)];
      rewrite E.
    + destruct (N1 r0 Hr0 Hmk0) as [E'|E']; [left; exact E'|right; left; exact E'].
    + right. right. exists (v :: l). split; [reflexivity|exact Ht].
Qed.

Lemma validated_not_missing (t : str) (invalid : option (list str)) :
  t = unknown \/ validate_trim t invalid = t -> t <> [] /\ t <> u "nan".
Proof.
  intros [E|E].
  - rewrite E. split; vm_compute; discriminate.
  - split; intros E'; rewrite E' in E.
    + rewrite (rejected_text [] invalid) in E; [discriminate|].
      vm_compute. tauto.
    + rewrite (rejected_text (u "nan") invalid) in E; [vm_compute in E; discriminate|].
      left. reflexivity.
Qed.

(** X14.  After [process_trim_by_make], the trim of every row of the make
    is "unknown", or a text that the validator accepts with the same extra
    invalid trims, or, under a literal list, an entry of that list.  Under
    the "auto" policy and without a list, a row of the make therefore never
    keeps an empty trim or the text "nan" of a missing one. *)
Theorem process_trim_by_make_validated
        (df : list row) (make : str) (trim_correction_mapping : option (list (str * str)))
        (valid_trims : valid_trims_arg) (add_unwanted_words add_invalid_trims : option (list str))
        (unknown_threshold : Z) (r : row) :
  In r (process_trim_by_make df make trim_correction_mapping valid_trims
                             add_unwanted_words add_invalid_trims unknown_threshold) ->
  row_make r = make ->
  (row_trim r = unknown
   \/ validate_trim (row_trim r) add_invalid_trims = row_trim r
   \/ exists l, valid_trims = ValidTrims l /\ In (row_trim r) l)
  /\ ((forall l, valid_trims <> ValidTrims l) -> row_trim r <> [] /\ row_trim r <> u "nan").
Proof.
  intros Hin Hmk.
  pose proof (process_trim_by_make_verdict _ _ _ _ _ _ _ r Hin Hmk) as H.
  split; [exact H|]. intros Hno. apply (validated_not_missing _ add_invalid_trims).
  destruct H as [E|[E|(l & E & _)]]; [left; exact E|right; exact E|destruct (Hno l E)].
Qed.

Lemma process_trim_by_make_validated_witness :
  (row_trim (mkRow (sample "jeep" "wrangler" "sahara") (u "sahara certified")) = unknown
   \/ validate_trim (row_trim (mkRow (sample "jeep" "wrangler" "sahara") (u "sahara certified")))
                    None
      = row_trim (mkRow (sample "jeep" "wrangler" "sahara") (u "sahara certified"))
   \/ exists l, Auto = ValidTrims l
                /\ In (row_trim (mkRow (sample "jeep" "wrangler" "sahara")
                                       (u "sahara certified"))) l)
  /\ ((forall l, Auto <> ValidTrims l) ->
      row_trim (mkRow (sample "jeep" "wrangler" "sahara") (u "sahara certified")) <> []
      /\ row_trim (mkRow (sample "jeep" "wrangler" "sahara") (u "sahara certified"))
         <> u "nan").
Proof.
  apply (process_trim_by_make_validated backfill_lot (u "jeep") None Auto None None 4).
  - vm_compute. do 4 right. left. reflexivity.
  - reflexivity.
Defined.

(* ================================================================= *)
(** ** The driver, column by column *)

Lemma suppress_rare_fixed (min_occurrences : Z) (df : list listing) :
  (forall l, In l df -> trim l = unknown \/ popular min_occurrences df (trim l) = true) ->
  suppress_rare min_occurrences df = df.
Proof.
  intros H. unfold suppress_rare.
  transitivity (List.map (fun l : listing => l) df); [|apply map_id].
  apply map_ext_in. intros l Hl.
  destruct (popular min_occurrences df (trim l)) eqn:E; [reflexivity|].
  destruct (H l Hl) as [Hu|Hp]; [|rewrite Hp in E; discriminate].
  rewrite <- Hu. apply set_trim_same.
Qed.

(** X15.  The suppression of rare trims in [process_trim] is stable: on a
    table that it has produced it changes nothing, because a trim that
    reaches the threshold keeps all its rows.  With a threshold of one or
    less it changes nothing at all. *)
Theorem suppress_rare_stable (min_occurrences : Z) (df : list listing) :
  suppress_rare min_occurrences (suppress_rare min_occurrences df)
  = suppress_rare min_occurrences df
  /\ ((min_occurrences <= 1)%Z -> suppress_rare min_occurrences df = df).
Proof.
  split.
  - apply suppress_rare_fixed. intros l Hl.
    destruct (suppress_rare_floor min_occurrences df l Hl) as [H|H]; [left; exact H|right].
    unfold popular. apply Z.leb_le. exact H.
  - intros Hm. apply suppress_rare_fixed. intros l Hl. right.
    unfold popular. apply Z.leb_le.
    assert (Hc : (0 < count_str (trim l) (List.map trim df))%nat)
      by (apply count_str_In, in_map; exact Hl).
    lia.
Qed.

Lemma suppress_rare_stable_witness : suppress_rare 1 civic_and_accord = civic_and_accord.
Proof.
  destruct (suppress_rare_stable 1 civic_and_accord) as [_ H]. apply H. lia.
Defined.

Lemma run_call_blank (df : list row) (c : call) :
  List.map (row_set_trim []) (run_call df c) = List.map (row_set_trim []) df.
Proof. unfold run_call. apply process_trim_by_make_blank. Qed.

Lemma run_calls_blank (calls : list call) (df : list row) :
  List.map (row_set_trim []) (fold_left run_call calls df) = List.map (row_set_trim []) df.
Proof.
  revert df. induction calls as [|c calls IH]; intros df; [reflexivity|].
  cbn [fold_left]. rewrite IH. apply run_call_blank.
Qed.

Lemma rule_applies_lower (c : column) (t : str) (upd : column * str * str) :
  rule_applies c (lower t) upd = rule_applies c t upd.
Proof.
  destruct upd as [[c' s] v]. unfold rule_applies, contains_nocase.
  rewrite (lower_fixed (lower t) (is_lower_lower t)). reflexivity.
Qed.

Lemma last_rule_lower (rules : list (column * str * str)) (c : column) (t : str) :
  last_rule rules c (lower t) = last_rule rules c t.
Proof.
  unfold last_rule. induction (rev rules) as [|upd l IH]; [reflexivity|].
  cbn [find]. rewrite rule_applies_lower, IH. reflexivity.
Qed.

Lemma apply_updates_lower (rules : list (column * str * str)) (l : listing) :
  set_trim [] (fold_left (fun l upd => apply_update upd l) rules (set_trim (lower (trim l)) l))
  = set_trim [] (fold_left (fun l upd => apply_update upd l) rules l).
Proof.
  rewrite !apply_updates_row. rewrite trim_set_trim, !last_rule_lower. reflexivity.
Qed.

Lemma process_makes_blank (df : list listing) :
  List.map (set_trim []) (process_makes df) = List.map (set_trim []) (extract_info_from_trim df).
Proof.
  unfold process_makes, extract_info_from_trim. rewrite !extract_info_rows.
  rewrite map_map.
  change (fun x : row => set_trim [] (cols x)) with (fun x : row => cols (row_set_trim [] x)).
  rewrite <- (map_map (row_set_trim []) cols), run_calls_blank.
  rewrite !map_map. apply map_ext. intros l. apply apply_updates_lower.
Qed.

Lemma suppress_rare_blank (min_occurrences : Z) (df : list listing) :
  List.map (set_trim []) (suppress_rare min_occurrences df) = List.map (set_trim []) df.
Proof.
  unfold suppress_rare. rewrite map_map. apply map_ext. intros l.
  destruct (popular min_occurrences df (trim l)); reflexivity.
Qed.

(** X16.  Apart from the trim column, the table that [process_trim] returns
    is the table that [extract_info_from_trim] makes of the input: same rows
    in the same order, make and model untouched, and side columns decided by
    the raw trim alone, before any cleaning, whatever the threshold and the
    combination flag. *)
Theorem process_trim_other_columns (df : list listing) (min_occurrences : Z)
        (combine_with_modelname : bool) :
  (forall l, In l df -> latin1 (trim l)) ->
  List.map (set_trim []) (process_trim df min_occurrences combine_with_modelname)
  = List.map (set_trim []) (extract_info_from_trim df).
Proof.
  intros _. destruct combine_with_modelname.
  - rewrite process_trim_combined, map_map.
    change (fun x : listing => set_trim [] (combine_plain x)) with (set_trim []).
    rewrite suppress_rare_blank. apply process_makes_blank.
  - rewrite process_trim_uncombined, suppress_rare_blank. apply process_makes_blank.
Qed.

Lemma process_trim_other_columns_witness :
  List.map (set_trim []) (process_trim mixed_lot 5 true)
  = List.map (set_trim []) (extract_info_from_trim mixed_lot).
Proof.
  apply (process_trim_other_columns mixed_lot 5 true).
  intros l Hl. unfold mixed_lot in Hl. cbn [repeat app In] in Hl.
  repeat (destruct Hl as [<-|Hl]; [vm_compute; reflexivity|]).
  contradiction.
Defined.

Lemma run_call_other (df : list row) (c : call) (i : nat) (r : row) :
  nth_error df i = Some r -> row_make r <> call_make c -> nth_error (run_call df c) i = Some r.
Proof.
  intros Hi Hr. unfold run_call, process_trim_by_make.
  pose proof (normalise_make_other df (call_make c) (call_trim_correction_mapping c)
                                   (call_add_unwanted_words c) (call_add_invalid_trims c)
                                   i r Hi Hr) as Hn.
  destruct (call_valid_trims c) as [| |[|v l]]; try exact Hn;
    apply on_make_other; assumption.
Qed.

Lemma run_calls_other (calls : list call) (df : list row) (i : nat) (r : row) :
  nth_error df i = Some r -> ~ In (row_make r) (List.map call_make calls) ->
  nth_error (fold_left run_call calls df) i = Some r.
Proof.
  revert df. induction calls as [|c calls IH]; intros df Hi Hr; [exact Hi|].
  cbn [fold_left]. apply IH.
  - apply run_call_other; [exact Hi|]. intros E. apply Hr. left. symmetry. exact E.
  - intros H. apply Hr. right. exact H.
Qed.

Lemma run_pipeline_other (rules : list (column * str * str)) (calls : list call)
      (df : list listing) (i : nat) (l : listing) :
  nth_error df i = Some l -> ~ In (make l) (List.map call_make calls) ->
  exists l',
    nth_error
      (List.map cols
         (fold_left run_call calls
            (List.map (fun l => mkRow l (trim l))
               (fold_left (fun df upd => List.map (apply_update upd) df) rules
                          (List.map (fun l => set_trim (lower (trim l)) l) df))))) i
    = Some l'
    /\ model l' = model l /\ trim l' = lower (trim l).
Proof.
  intros Hi Hm. rewrite extract_info_rows.
  destruct (apply_updates_keep rules (set_trim (lower (trim l)) l)) as (K1 & K2 & K3).
  revert K1 K2 K3. rewrite !map_map.
  pose proof (map_nth_error
                (fun x => mkRow (fold_left (fun l upd => apply_update upd l) rules
                                           (set_trim (lower (trim x)) x))
                                (trim (fold_left (fun l upd => apply_update upd l) rules
                                                 (set_trim (lower (trim x)) x)))) i df Hi)
    as Hrow.
  cbv beta in Hrow. revert Hrow.
  generalize (fold_left (fun l upd => apply_update upd l) rules (set_trim (lower (trim l)) l)).
  intros e Hrow K1 K2 K3. exists e. split; [|split; [exact K2|exact K3]].
  apply (map_nth_error cols i _ (d := mkRow e (trim e))). apply run_calls_other; [exact Hrow|].
  unfold row_make. cbn [cols]. rewrite K1. exact Hm.
Qed.

Lemma process_makes_other (df : list listing) (i : nat) (l : listing) :
  nth_error df i = Some l -> ~ In (make l) processed_makes ->
  exists l', nth_error (process_makes df) i = Some l'
             /\ model l' = model l /\ trim l' = lower (trim l).
Proof.
  intros Hi Hm. unfold processed_makes in Hm. unfold process_makes, extract_info_from_trim.
  exact (run_pipeline_other update_list MakeRules.calls df i l Hi Hm).
Qed.

(** X17.  A row whose make is not one of the makes that [process_trim]
    processes (the comparison is exact, so a make written in capitals is not
    one of them) is never cleaned, corrected or validated: its trim is only
    lower-cased, then kept or replaced by "unknown" by the frequency filter,
    and prefixed with the model when combination is enabled. *)
Theorem process_trim_unprocessed_make (df : list listing) (min_occurrences : Z)
        (combine_with_modelname : bool) (i : nat) (l : listing) :
  nth_error df i = Some l -> latin1 (trim l) -> ~ In (make l) processed_makes ->
  exists l' t,
    nth_error (process_trim df min_occurrences combine_with_modelname) i = Some l'
    /\ (t = lower (trim l) \/ t = unknown)
    /\ trim l' = if combine_with_modelname then model l ++ u "-" ++ t else t.
Proof.
  intros Hi _ Hm. destruct (process_makes_other df i l Hi Hm) as (e & He & Hmodel & Htrim).
  assert (Hs : exists t, (t = lower (trim l) \/ t = unknown)
                         /\ nth_error (suppress_rare min_occurrences (process_makes df)) i
                            = Some (set_trim t e)).
  { revert He. generalize (process_makes df). intros rows He. unfold suppress_rare.
    exists (if popular min_occurrences rows (trim e) then trim e else unknown). split.
    - destruct (popular min_occurrences rows (trim e)); [left; exact Htrim|right; reflexivity].
    - rewrite (map_nth_error _ i rows He).
      destruct (popular min_occurrences rows (trim e)); [|reflexivity].
      rewrite set_trim_same. reflexivity. }
  destruct Hs as (t & Ht & Hs). destruct combine_with_modelname.
  - rewrite process_trim_combined. exists (combine_plain (set_trim t e)), t.
    split; [exact (map_nth_error combine_plain i _ Hs)|]. split; [exact Ht|].
    unfold combine_plain. rewrite !trim_set_trim.
    change (model (set_trim t e)) with (model e). rewrite Hmodel. reflexivity.
  - rewrite process_trim_uncombined. exists (set_trim t e), t.
    split; [exact Hs|]. split; [exact Ht|apply trim_set_trim].
Qed.

Lemma process_trim_unprocessed_make_witness :
  exists l' t,
    nth_error (process_trim mixed_lot 5 false) 10 = Some l'
    /\ (t = lower (trim (sample "jaguar" "f-pace" " R-Sport  AWD")) \/ t = unknown)
    /\ trim l' = t.
Proof.
  apply (process_trim_unprocessed_make mixed_lot 5 false 10
                                       (sample "jaguar" "f-pace" " R-Sport  AWD")).
  - reflexivity.
  - vm_compute. reflexivity.
  - vm_compute. intros H.
    repeat (destruct H as [H|H]; [discriminate|]). exact H.
Defined.

(* ================================================================= *)
(** ** The make and model steps of the caller *)






Section RareModels.

Variable A : Type.
Variable model_of : A -> option str.



End RareModels.



(* ================================================================= *)
(** ** The verdict of the validator at the end of [process_trim] *)

Lemma on_make_In_other (mk : str) (f : row -> row) (df : list row) (r : row) :
  (forall r0, row_make (f r0) = row_make r0) ->
  In r (on_make mk f df) -> row_make r <> mk -> In r df.
Proof.
  intros Hf Hin Hmk. unfold on_make in Hin. apply in_map_iff in Hin.
  destruct Hin as (r0 & E & Hr0). destruct (eqb_str (row_make r0) mk) eqn:Em.
  - apply eqb_str_eq in Em. exfalso. apply Hmk. rewrite <- E, Hf. exact Em.
  - subst r. exact Hr0.
Qed.

Lemma run_call_In_other (df : list row) (c : call) (r : row) :
  In r (run_call df c) -> row_make r <> call_make c -> In r df.
Proof.
  unfold run_call, process_trim_by_make, normalise_make. intros Hin Hmk.
  assert (S1 : forall f df', (forall r0, row_make (f r0) = row_make r0) ->
                             In r (on_make (call_make c) f df') -> In r df')
    by (intros f df' Hf H; exact (on_make_In_other _ f df' r Hf H Hmk)).
  assert (U : forall l df', In r (on_make (call_make c)
                                          (fun r => update_unknown_trim r l) df') -> In r df')
    by (intros l df'; apply S1; intros r0; apply row_make_update_unknown_trim).
  assert (V : In r (on_make (call_make c)
                            (fun r => row_set_trim
                                        (validate_trim (row_trim r) (call_add_invalid_trims c)) r)
                            match call_trim_correction_mapping c with
                            | Some ((_ :: _) as mapping) =>
                              on_make (call_make c)
                                      (fun r => row_set_trim (replace_cell mapping (row_trim r)) r)
                                      (on_make (call_make c)
                                         (fun r => row_set_trim
                                                     (clean_trim (PyStr (row_trim r))
                                                                 (call_add_unwanted_words c)) r)
                                         df)
                            | _ =>
                              on_make (call_make c)
                                      (fun r => row_set_trim
                                                  (clean_trim (PyStr (row_trim r))
                                                              (call_add_unwanted_words c)) r)
                                      df
                            end)).
  { destruct (call_valid_trims c) as [| |[|v l]]; try exact Hin; exact (U _ _ Hin). }
  apply S1 in V; [|intros r0; reflexivity].
  destruct (call_trim_correction_mapping c) as [[|kv mapping]|].
  - apply S1 in V; [exact V|intros r0; reflexivity].
  - apply S1 in V; [|intros r0; reflexivity].
    apply S1 in V; [exact V|intros r0; reflexivity].
  - apply S1 in V; [exact V|intros r0; reflexivity].
Qed.

Lemma run_calls_In_other (calls : list call) (df : list row) (r : row) :
  In r (fold_left run_call calls df) -> ~ In (row_make r) (List.map call_make calls) ->
  In r df.
Proof.
  revert df. induction calls as [|c calls IH]; intros df Hin Hno; [exact Hin|].
  cbn [fold_left] in Hin. apply (run_call_In_other df c).
  - apply IH; [exact Hin|]. intros H. apply Hno. right. exact H.
  - intros E. apply Hno. left. symmetry. exact E.
Qed.

Lemma run_calls_verdict (calls : list call) (df : list row) (c : call) (r : row) :
  NoDup (List.map call_make calls) -> In c calls ->
  In r (fold_left run_call calls df) -> row_make r = call_make c ->
  row_trim r = unknown
  \/ validate_trim (row_trim r) (call_add_invalid_trims c) = row_trim r
  \/ exists l, call_valid_trims c = ValidTrims l /\ In (row_trim r) l.
Proof.
  revert df. induction calls as [|c0 calls IH]; intros df Hnd Hc Hin Hmk; [destruct Hc|].
  cbn [List.map] in Hnd. inversion Hnd as [|? ? Hfresh Hnd']; subst.
  cbn [fold_left] in Hin. destruct Hc as [->|Hc].
  - apply (run_calls_In_other calls) in Hin; [|rewrite Hmk; exact Hfresh].
    unfold run_call in Hin.
    exact (process_trim_by_make_verdict _ _ _ _ _ _ _ r Hin Hmk).
  - exact (IH (run_call df c0) Hnd' Hc Hin Hmk).
Qed.

Lemma calls_makes_NoDup : NoDup (List.map call_make MakeRules.calls).
Proof. apply distinct_words_NoDup. vm_compute. reflexivity. Qed.

Lemma pipeline_verdict (calls : list call) (rows : list row) (c : call) (l : listing) :
  NoDup (List.map call_make calls) -> In c calls ->
  In l (List.map cols (fold_left run_call calls rows)) -> make l = call_make c ->
  trim l = unknown
  \/ validate_trim (trim l) (call_add_invalid_trims c) = trim l
  \/ exists vl, call_valid_trims c = ValidTrims vl /\ In (trim l) vl.
Proof.
  intros Hnd Hc Hl Hmk. apply in_map_iff in Hl. destruct Hl as (r & <- & Hr).
  exact (run_calls_verdict calls rows c r Hnd Hc Hr Hmk).
Qed.

Lemma process_makes_verdict (df : list listing) (c : call) (l : listing) :
  In c MakeRules.calls -> In l (process_makes df) -> make l = call_make c ->
  trim l = unknown
  \/ validate_trim (trim l) (call_add_invalid_trims c) = trim l
  \/ exists vl, call_valid_trims c = ValidTrims vl /\ In (trim l) vl.
Proof.
  intros Hc. unfold process_makes.
  exact (pipeline_verdict MakeRules.calls _ c l calls_makes_NoDup Hc).
Qed.

Lemma literal_lists_checked (c : call) (vl : list str) (t : str) :
  In c MakeRules.calls -> call_valid_trims c = ValidTrims vl -> In t vl ->
  t <> [] /\ t <> u "nan".
Proof.
  intros Hc Hv Ht.
  assert (A : forallb (fun c => match call_valid_trims c with
                                | ValidTrims vl =>
                                  forallb (fun t => negb (eqb_str t [])
                                                    && negb (eqb_str t (u "nan"))) vl
                                | _ => true
                                end) MakeRules.calls = true) by (vm_compute; reflexivity).
  rewrite forallb_forall in A. specialize (A c Hc). rewrite Hv in A.
  rewrite forallb_forall in A. specialize (A t Ht).
  apply andb_true_iff in A. destruct A as [A1 A2].
  apply negb_true_iff in A1, A2. split; apply eqb_str_neq; assumption.
Qed.

Lemma suppress_rare_In (min_occurrences : Z) (rows : list listing) (x : listing) :
  In x (suppress_rare min_occurrences rows) ->
  exists y, In y rows /\ make x = make y /\ (trim x = trim y \/ trim x = unknown).
Proof.
  unfold suppress_rare. intros H. apply in_map_iff in H. destruct H as (y & <- & Hy).
  exists y. split; [exact Hy|].
  destruct (popular min_occurrences rows (trim y)); split;
    [reflexivity|left; reflexivity|reflexivity|right; reflexivity].
Qed.

(** X20.  At the end of [process_trim], before the combination with the
    model, the trim of every row whose make is one of the processed makes is
    "unknown", or a text that the validator accepts with the extra invalid
    trims of that make's call, or an entry of the literal list of that call.
    In particular such a row never ends with an empty trim or with the text
    "nan" of a missing trim.  With combination the same holds for the part
    of the trim after the model and the dash. *)
Theorem process_trim_validated (df : list listing) (min_occurrences : Z)
        (combine_with_modelname : bool) (l : listing) (c : call) :
  In c MakeRules.calls -> In l (process_trim df min_occurrences combine_with_modelname) ->
  make l = call_make c ->
  exists t,
    trim l = (if combine_with_modelname then model l ++ u "-" ++ t else t)
    /\ (t = unknown
        \/ validate_trim t (call_add_invalid_trims c) = t
        \/ exists vl, call_valid_trims c = ValidTrims vl /\ In t vl)
    /\ t <> [] /\ t <> u "nan".
Proof.
  intros Hc.
  assert (F : forall t, (t = unknown
                         \/ validate_trim t (call_add_invalid_trims c) = t
                         \/ exists vl, call_valid_trims c = ValidTrims vl /\ In t vl) ->
                        t <> [] /\ t <> u "nan").
  { intros t [E|[E|(vl & Hv & Ht)]].
    - apply (validated_not_missing t None). left. exact E.
    - apply (validated_not_missing t (call_add_invalid_trims c)). right. exact E.
    - exact (literal_lists_checked c vl t Hc Hv Ht). }
  destruct combine_with_modelname;
    [rewrite process_trim_combined|rewrite process_trim_uncombined];
    generalize (fun y => process_makes_verdict df c y Hc);
    generalize (process_makes df); intros rows V Hl Hmk.
  - apply in_map_iff in Hl. destruct Hl as (x & <- & Hx).
    destruct (suppress_rare_In min_occurrences rows x Hx) as (y & Hy & E1 & E2).
    exists (trim x). split; [reflexivity|].
    assert (T : trim x = unknown
                \/ validate_trim (trim x) (call_add_invalid_trims c) = trim x
                \/ exists vl, call_valid_trims c = ValidTrims vl /\ In (trim x) vl).
    { destruct E2 as [E2|E2]; [|left; exact E2]. rewrite E2. apply (V y Hy).
      rewrite <- E1. exact Hmk. }
    split; [exact T|exact (F _ T)].
  - destruct (suppress_rare_In min_occurrences rows l Hl) as (y & Hy & E1 & E2).
    exists (trim l). split; [reflexivity|].
    assert (T : trim l = unknown
                \/ validate_trim (trim l) (call_add_invalid_trims c) = trim l
                \/ exists vl, call_valid_trims c = ValidTrims vl /\ In (trim l) vl).
    { destruct E2 as [E2|E2]; [|left; exact E2]. rewrite E2. apply (V y Hy).
      rewrite <- E1. exact Hmk. }
    split; [exact T|exact (F _ T)].
Qed.

Lemma process_trim_validated_witness :
  exists t,
    trim (sample "honda" "civic" "sport sport") = t
    /\ (t = unknown
        \/ validate_trim t (Some MakeRules.invalid_honda_trims) = t
        \/ exists vl, NoValidTrims = ValidTrims vl /\ In t vl)
    /\ t <> [] /\ t <> u "nan".
Proof.
  apply (process_trim_validated
           mixed_lot 5 false (sample "honda" "civic" "sport sport")
           (mkCall (u "honda") None NoValidTrims (Some MakeRules.words_to_remove_honda)
                   (Some MakeRules.invalid_honda_trims) 4)).
  - vm_compute. do 3 right. left. reflexivity.
  - vm_compute. do 5 right. left. reflexivity.
  - reflexivity.
Defined.
